(** * OrderedMultiDictBase: a shallow embedding of
      [utils/collections_/orderedmultidictBase.pyx]

    The Cython class keeps two structures:
    - [_items], a Python [OrderedDict] from slot id to the tuple
      [(key, value)];
    - [_map], a C++ [unordered_map] from [PyObject*] to a
      [deque] of [pair<size_t, PyObject*>], whose hash functor is
      [PyObjectPtrHash] and whose equality functor is
      [PyObjectPtrHashEqual] (it compares [PyObject_Hash] results only);
    and a counter [_index].

    Python objects are modelled by their address ([ObjectPtr]); the
    interpreter's [PyObject_Hash] and [==] are the two members of the
    class [PyObjectProtocol], taken to be pure functions.  Every method
    is a function from the state to a result (a returned value or a
    raised exception) and the state it leaves behind, so a mutation
    that happens before an exception is raised stays visible, as in the
    source.

    Slot ids and the counter [_index] are [size_t] in the source and
    [nat] here: the counter is not taken to wrap around, so a
    statement about one call holds of the source while the counter is
    below [SIZE_MAX], and the statements about sequences of calls of
    any length carry that as the hypothesis [counter_within].  An
    exception raised inside a [cdef] or [cpdef void] method
    ([getAllOrNull], [_tryDeleteAll], [add], [addAll], [extend],
    [setAll], [load]) is passed on to the caller; on the states that
    satisfy the representation invariant none of these raises
    ([add_consistent], [getAllOrNull_consistent],
    [tryDeleteAll_consistent]), so this reading only bears on states in
    which the ledger and the key index disagree. *)

From Stdlib Require Import ZArith List Lia Bool String Ascii.
From stdpp Require Import base option list sorting gmap.

Local Open Scope nat_scope.

(** ** Objects, tuples and exceptions *)

(** [ctypedef PyObject* ObjectPtr]: an object is its identity. *)
Definition ObjectPtr : Type := nat.

(** The tuple [(key, value)] stored in the ledger. *)
Definition Item : Type := ObjectPtr * ObjectPtr.

(** The exceptions the methods raise.  [KeyError key] is
    [raise KeyError(key)]; [KeyError_slot i] is the [KeyError] of
    [del self._items[i]] or [self._items[i]] on a missing slot;
    [KeyError_empty] is the one of [popitem] on an empty [OrderedDict];
    [RuntimeError] is ["Bad State in OrderedMultiDict"];
    [AssertionError] is the failing [assert not result.empty()]. *)
Inductive PyExc : Type :=
| KeyError (key : ObjectPtr)
| KeyError_slot (i : nat)
| KeyError_empty
| RuntimeError
| AssertionError.

Inductive Result (A : Type) : Type :=
| Return (a : A)
| Raise (e : PyExc).
Arguments Return {A} a.
Arguments Raise {A} e.

(** What the interpreter knows about an object and the map uses:
    [py_hash] is [PyObject_Hash], [py_eq a b] is [a == b]. *)
Class PyObjectProtocol : Type := {
  py_hash : ObjectPtr -> Z;
  py_eq : ObjectPtr -> ObjectPtr -> bool
}.

(** ** [OrderedDict] as an association list in insertion order *)

Module OrderedDict.

Definition t : Type := list (nat * Item).

(** [d[i]] *)
Fixpoint get (d : t) (i : nat) : option Item :=
  match d with
  | [] => None
  | (j, x) :: d' => if Nat.eqb j i then Some x else get d' i
  end.

(** [d[i] = x]: an existing slot keeps its position, a new one goes
    to the end. *)
Fixpoint set (d : t) (i : nat) (x : Item) : t :=
  match d with
  | [] => [(i, x)]
  | (j, y) :: d' => if Nat.eqb j i then (j, x) :: d' else (j, y) :: set d' i x
  end.

(** [del d[i]]; [None] is the [KeyError]. *)
Fixpoint del (d : t) (i : nat) : option t :=
  match d with
  | [] => None
  | (j, y) :: d' =>
      if Nat.eqb j i then Some d'
      else match del d' i with
           | Some d'' => Some ((j, y) :: d'')
           | None => None
           end
  end.

(** [d.popitem(last=...)]; [None] is the [KeyError] on an empty dict. *)
Definition popitem (d : t) (last_ : bool) : option ((nat * Item) * t) :=
  if last_ then
    match last d with
    | Some x => Some (x, removelast d)
    | None => None
    end
  else
    match d with
    | x :: d' => Some (x, d')
    | [] => None
    end.

(** [d.values()] *)
Definition values (d : t) : list Item := snd <$> d.

(** [OrderedDict(enumerate(l))] *)
Definition of_enumerate (l : list Item) : t := zip (seq 0 (length l)) l.

End OrderedDict.

(** ** The state of the map *)

(** A node of the [unordered_map]: the key pointer stored when the node
    was created and the deque of [(slot id, value)]. *)
Record OrderedMultiDictBase : Type := mkOMD {
  _items : list (nat * Item);
  _map : gmap Z (ObjectPtr * list (nat * ObjectPtr));
  _index : nat
}.

(** What [getAllOrNull] hands back: [NULL] or a pointer to the deque. *)
Inductive DequePtr : Type :=
| NULL
| Ptr (values : list (nat * ObjectPtr)).

(** An argument with a default at the call site. *)
Inductive Arg (A : Type) : Type :=
| Omitted
| Supplied (a : A).
Arguments Omitted {A}.
Arguments Supplied {A} a.

(** A Cython parameter typed [list]: a list or [None]. *)
Inductive PyListOrNone : Type :=
| PyNone
| PyList (l : list ObjectPtr).

(** ** [sorted(..., key=..., reverse=...)] *)

Section Sorted.
Context {A K : Type}.
Variable key : A -> K.
(** [a < b] on the sort keys, the only comparison [sorted] uses. *)
Variable lt : K -> K -> bool.

(** Insert [x] in front of the first element that is not smaller. *)
Fixpoint insert_sorted (x : A) (l : list A) : list A :=
  match l with
  | [] => [x]
  | y :: l' => if lt (key y) (key x) then y :: insert_sorted x l' else x :: y :: l'
  end.

(** A stable sort: equal elements keep their relative order. *)
Definition stable_sort (l : list A) : list A :=
  foldr insert_sorted [] l.

(** [reverse=True] reverses, sorts and reverses again, which keeps the
    sort stable. *)
Definition sorted (reverse_ : bool) (l : list A) : list A :=
  if reverse_ then reverse (stable_sort (reverse l)) else stable_sort l.
End Sorted.

(** The comparisons for which a stable sort has one possible result:
    [<] is irreflexive and transitive, and so is "neither is smaller". *)
Definition strict_weak_order {K : Type} (lt : K -> K -> bool) : Prop :=
  (forall x, lt x x = false) /\
  (forall x y z, lt x y = true -> lt y z = true -> lt x z = true) /\
  (forall x y z, lt x y = false -> lt y z = false -> lt x z = false).

(** ** The methods *)

Section Methods.

Context `{PyObjectProtocol}.

(** [OrderedMultiDictBase()]: [__cinit__] and [__init__] without an
    iterable. *)
Definition empty : OrderedMultiDictBase := mkOMD [] ∅ 0.

(** [self._map.find(key)]: the hash functor and the equality functor
    both go through [PyObject_Hash], so a node is found by hash. *)
Definition find (m : OrderedMultiDictBase) (key : ObjectPtr)
  : option (ObjectPtr * list (nat * ObjectPtr)) :=
  _map m !! py_hash key.

(** Writing through the pointer [getAllOrNull] returned. *)
Definition store (mp : gmap Z (ObjectPtr * list (nat * ObjectPtr)))
    (key : ObjectPtr) (values : list (nat * ObjectPtr))
  : gmap Z (ObjectPtr * list (nat * ObjectPtr)) :=
  alter (fun node => (fst node, values)) (py_hash key) mp.

(** [self._map.erase(key)] *)
Definition erase (mp : gmap Z (ObjectPtr * list (nat * ObjectPtr)))
    (key : ObjectPtr) : gmap Z (ObjectPtr * list (nat * ObjectPtr)) :=
  delete (py_hash key) mp.

(** [if values.empty(): self._map.erase(key)] *)
Definition erase_if_empty (mp : gmap Z (ObjectPtr * list (nat * ObjectPtr)))
    (key : ObjectPtr) (values : list (nat * ObjectPtr))
  : gmap Z (ObjectPtr * list (nat * ObjectPtr)) :=
  match values with
  | [] => erase mp key
  | _ :: _ => mp
  end.

Definition getAllOrNull (m : OrderedMultiDictBase) (key : ObjectPtr)
  : Result DequePtr :=
  match find m key with
  | Some (_, []) => Raise AssertionError
  | Some (_, values) => Return (Ptr values)
  | None => Return NULL
  end.

(** [__contains__] *)
Definition contains (m : OrderedMultiDictBase) (key : ObjectPtr) : bool :=
  match find m key with
  | Some _ => true
  | None => false
  end.

Definition clear (m : OrderedMultiDictBase) : OrderedMultiDictBase :=
  mkOMD [] ∅ 0.

Definition get (m : OrderedMultiDictBase) (key default_ : ObjectPtr)
  : Result ObjectPtr :=
  match getAllOrNull m key with
  | Raise e => Raise e
  | Return (Ptr ((_, v) :: _)) => Return v
  | Return (Ptr []) => Raise AssertionError
  | Return NULL => Return default_
  end.

Definition getFirst (m : OrderedMultiDictBase) (key default_ : ObjectPtr)
  : Result ObjectPtr :=
  match getAllOrNull m key with
  | Raise e => Raise e
  | Return (Ptr ((_, v) :: _)) => Return v
  | Return (Ptr []) => Raise AssertionError
  | Return NULL => Return default_
  end.

Definition getLast (m : OrderedMultiDictBase) (key default_ : ObjectPtr)
  : Result ObjectPtr :=
  match getAllOrNull m key with
  | Raise e => Raise e
  | Return (Ptr values) =>
      match last values with
      | Some (_, v) => Return v
      | None => Raise AssertionError
      end
  | Return NULL => Return default_
  end.

(** [default_ = None] is the [_SENTINEL_]. *)
Definition getall (m : OrderedMultiDictBase) (key : ObjectPtr)
    (default_ : option (list ObjectPtr)) : Result (list ObjectPtr) :=
  match getAllOrNull m key with
  | Raise e => Raise e
  | Return (Ptr values) => Return (snd <$> values)
  | Return NULL =>
      match default_ with
      | None => Return []
      | Some d => Return d
      end
  end.

Definition add (m : OrderedMultiDictBase) (key value : ObjectPtr)
  : Result unit * OrderedMultiDictBase :=
  let index := _index m in
  (* values = &self._map[0][key]: the node is created if necessary *)
  let node := default (key, []) (find m key) in
  match snd node with
  | [] =>
      (Return tt,
       mkOMD (OrderedDict.set (_items m) index (key, value))
             (<[py_hash key := (fst node, [(index, value)])]> (_map m))
             (S index))
  | (keyIndex, _) :: _ =>
      match OrderedDict.get (_items m) keyIndex with
      | None => (Raise (KeyError_slot keyIndex), mkOMD (_items m) (_map m) (S index))
      | Some (key', _) =>
          (Return tt,
           mkOMD (OrderedDict.set (_items m) index (key', value))
                 (<[py_hash key := (fst node, snd node ++ [(index, value)])]> (_map m))
                 (S index))
      end
  end.

Fixpoint addAll (m : OrderedMultiDictBase) (key : ObjectPtr)
    (valuelist : list ObjectPtr) : Result unit * OrderedMultiDictBase :=
  match valuelist with
  | [] => (Return tt, m)
  | value :: valuelist' =>
      match add m key value with
      | (Return _, m') => addAll m' key valuelist'
      | (Raise e, m') => (Raise e, m')
      end
  end.

Fixpoint extend (m : OrderedMultiDictBase) (keyValuelist : list Item)
  : Result unit * OrderedMultiDictBase :=
  match keyValuelist with
  | [] => (Return tt, m)
  | (key, value) :: keyValuelist' =>
      match add m key value with
      | (Return _, m') => extend m' keyValuelist'
      | (Raise e, m') => (Raise e, m')
      end
  end.

Definition load (m : OrderedMultiDictBase) (iterable : list Item)
  : Result unit * OrderedMultiDictBase :=
  extend (clear m) iterable.

Definition setdefault (m : OrderedMultiDictBase) (key default_ : ObjectPtr)
  : Result ObjectPtr * OrderedMultiDictBase :=
  match getAllOrNull m key with
  | Raise e => (Raise e, m)
  | Return (Ptr ((_, v) :: _)) => (Return v, m)
  | Return (Ptr []) => (Raise AssertionError, m)
  | Return NULL =>
      match add m key default_ with
      | (Return _, m') => (Return default_, m')
      | (Raise e, m') => (Raise e, m')
      end
  end.

Definition setdefaultAll (m : OrderedMultiDictBase) (key : ObjectPtr)
    (defaultlist : list ObjectPtr)
  : Result (list ObjectPtr) * OrderedMultiDictBase :=
  match getAllOrNull m key with
  | Raise e => (Raise e, m)
  | Return (Ptr _) => (getall m key None, m)
  | Return NULL =>
      match addAll m key defaultlist with
      | (Return _, m') => (Return defaultlist, m')
      | (Raise e, m') => (Raise e, m')
      end
  end.

(** The loop [for val in values[0]: del self._items[val.first]]. *)
Fixpoint del_slots (items : list (nat * Item)) (values : list (nat * ObjectPtr))
  : Result unit * list (nat * Item) :=
  match values with
  | [] => (Return tt, items)
  | (i, _) :: values' =>
      match OrderedDict.del items i with
      | Some items' => del_slots items' values'
      | None => (Raise (KeyError_slot i), items)
      end
  end.

Definition _tryDeleteAll (m : OrderedMultiDictBase) (key : ObjectPtr)
  : Result bool * OrderedMultiDictBase :=
  match getAllOrNull m key with
  | Raise e => (Raise e, m)
  | Return (Ptr values) =>
      match del_slots (_items m) values with
      | (Return _, items') =>
          (Return true, mkOMD items' (erase (_map m) key) (_index m))
      | (Raise e, items') => (Raise e, mkOMD items' (_map m) (_index m))
      end
  | Return NULL => (Return false, m)
  end.

Definition deleteAll (m : OrderedMultiDictBase) (key : ObjectPtr)
  : Result unit * OrderedMultiDictBase :=
  match _tryDeleteAll m key with
  | (Return true, m') => (Return tt, m')
  | (Return false, m') => (Raise (KeyError key), m')
  | (Raise e, m') => (Raise e, m')
  end.

Definition setAll (m : OrderedMultiDictBase) (key : ObjectPtr)
    (valueList : list ObjectPtr) : Result unit * OrderedMultiDictBase :=
  match _tryDeleteAll m key with
  | (Return _, m') => addAll m' key valueList
  | (Raise e, m') => (Raise e, m')
  end.

(** [default_] is the parameter after binding: [PyNone] when the
    caller passed [None] or passed nothing. *)
Definition popAll (m : OrderedMultiDictBase) (key : ObjectPtr)
    (default_ : PyListOrNone) : Result (list ObjectPtr) * OrderedMultiDictBase :=
  match getAllOrNull m key with
  | Raise e => (Raise e, m)
  | Return (Ptr values) =>
      match del_slots (_items m) values with
      | (Return _, items') =>
          (Return (snd <$> values), mkOMD items' (erase (_map m) key) (_index m))
      | (Raise e, items') => (Raise e, mkOMD items' (_map m) (_index m))
      end
  | Return NULL =>
      match default_ with
      | PyList d => (Return d, m)
      | PyNone => (Raise (KeyError key), m)
      end
  end.

(** A call [popAll(key)] or [popAll(key, default)]: the signature is
    [default: list = None]. *)
Definition popAll_call (m : OrderedMultiDictBase) (key : ObjectPtr)
    (default_ : Arg PyListOrNone) : Result (list ObjectPtr) * OrderedMultiDictBase :=
  popAll m key (match default_ with Omitted => PyNone | Supplied d => d end).

(** [default_ = None] is the private marker [_absent]. *)
Definition popFirstItem (m : OrderedMultiDictBase) (default_ : option ObjectPtr)
  : Result (Item + ObjectPtr) * OrderedMultiDictBase :=
  match OrderedDict.popitem (_items m) false with
  | None =>
      match default_ with
      | Some d => (Return (inr d), m)
      | None => (Raise KeyError_empty, m)
      end
  | Some ((_, item), items') =>
      let m1 := mkOMD items' (_map m) (_index m) in
      match getAllOrNull m1 (fst item) with
      | Raise e => (Raise e, m1)
      | Return (Ptr values) =>
          let values' := tail values in
          (Return (inl item),
           mkOMD items'
                 (erase_if_empty (store (_map m) (fst item) values') (fst item) values')
                 (_index m))
      | Return NULL => (Raise RuntimeError, m1)
      end
  end.

Definition popLastItem (m : OrderedMultiDictBase) (default_ : option ObjectPtr)
  : Result (Item + ObjectPtr) * OrderedMultiDictBase :=
  match OrderedDict.popitem (_items m) true with
  | None =>
      match default_ with
      | Some d => (Return (inr d), m)
      | None => (Raise KeyError_empty, m)
      end
  | Some ((_, item), items') =>
      let m1 := mkOMD items' (_map m) (_index m) in
      match getAllOrNull m1 (fst item) with
      | Raise e => (Raise e, m1)
      | Return (Ptr values) =>
          let values' := removelast values in
          (Return (inl item),
           mkOMD items'
                 (erase_if_empty (store (_map m) (fst item) values') (fst item) values')
                 (_index m))
      | Return NULL => (Raise RuntimeError, m1)
      end
  end.

Definition popFirst (m : OrderedMultiDictBase) (key : ObjectPtr)
    (default_ : option ObjectPtr) : Result ObjectPtr * OrderedMultiDictBase :=
  match getAllOrNull m key with
  | Raise e => (Raise e, m)
  | Return (Ptr values) =>
      match values with
      | [] => (Raise AssertionError, m)
      | (index, value) :: values' =>
          let mp := store (_map m) key values' in
          match OrderedDict.del (_items m) index with
          | None => (Raise (KeyError_slot index), mkOMD (_items m) mp (_index m))
          | Some items' =>
              (Return value, mkOMD items' (erase_if_empty mp key values') (_index m))
          end
      end
  | Return NULL =>
      match default_ with
      | Some d => (Return d, m)
      | None => (Raise (KeyError key), m)
      end
  end.

Definition popLast (m : OrderedMultiDictBase) (key : ObjectPtr)
    (default_ : option ObjectPtr) : Result ObjectPtr * OrderedMultiDictBase :=
  match getAllOrNull m key with
  | Raise e => (Raise e, m)
  | Return (Ptr values) =>
      match last values with
      | None => (Raise AssertionError, m)
      | Some (index, value) =>
          let values' := removelast values in
          let mp := store (_map m) key values' in
          match OrderedDict.del (_items m) index with
          | None => (Raise (KeyError_slot index), mkOMD (_items m) mp (_index m))
          | Some items' =>
              (Return value, mkOMD items' (erase_if_empty mp key values') (_index m))
          end
      end
  | Return NULL =>
      match default_ with
      | Some d => (Return d, m)
      | None => (Raise (KeyError key), m)
      end
  end.

Definition pop (m : OrderedMultiDictBase) (key : ObjectPtr)
    (default_ : option ObjectPtr) : Result ObjectPtr * OrderedMultiDictBase :=
  popLast m key default_.

(** [sort(key=..., reverse=...)]: only [_items] is assigned. *)
Definition sort {K : Type} (m : OrderedMultiDictBase) (key : Item -> K)
    (lt : K -> K -> bool) (reverse_ : bool) : OrderedMultiDictBase :=
  mkOMD (OrderedDict.of_enumerate
           (sorted key lt reverse_ (OrderedDict.values (_items m))))
        (_map m) (_index m).

(** [__setitem__] and [__delitem__] *)
Definition __setitem__ (m : OrderedMultiDictBase) (key value : ObjectPtr)
  : Result unit * OrderedMultiDictBase :=
  setAll m key [value].

Definition __delitem__ (m : OrderedMultiDictBase) (key : ObjectPtr)
  : Result unit * OrderedMultiDictBase :=
  match pop m key None with
  | (Return _, m') => (Return tt, m')
  | (Raise e, m') => (Raise e, m')
  end.

(** ** Views *)

(** [iter(items())], [iter(keys())], [iter(values())] *)
Definition items (m : OrderedMultiDictBase) : list Item :=
  OrderedDict.values (_items m).
Definition keys (m : OrderedMultiDictBase) : list ObjectPtr :=
  fst <$> items m.
Definition values (m : OrderedMultiDictBase) : list ObjectPtr :=
  snd <$> items m.

(** [PyObject_RichCompareBool(a, b, Py_EQ)]: identity first, then [==]. *)
Definition rich_eq (a b : ObjectPtr) : bool :=
  Nat.eqb a b || py_eq a b.

(** [k in alreadySeen] for a Python [set]: an element with the same
    hash that is the same object or compares equal. *)
Definition set_contains (seen : list ObjectPtr) (k : ObjectPtr) : bool :=
  existsb (fun e => Z.eqb (py_hash e) (py_hash k) && rich_eq e k) seen.

(** [(k for k in ks if k not in alreadySeen and not alreadySeen.add(k))] *)
Fixpoint unique_gen (alreadySeen : list ObjectPtr) (ks : list ObjectPtr)
  : list ObjectPtr :=
  match ks with
  | [] => []
  | k :: ks' =>
      if set_contains alreadySeen k then unique_gen alreadySeen ks'
      else k :: unique_gen (k :: alreadySeen) ks'
  end.

(** [iter(uniqueKeys())] and [reversed(uniqueKeys())] *)
Definition uniqueKeys (m : OrderedMultiDictBase) : list ObjectPtr :=
  unique_gen [] (fst <$> OrderedDict.values (_items m)).
Definition uniqueKeys_reversed (m : OrderedMultiDictBase) : list ObjectPtr :=
  unique_gen [] (fst <$> reverse (OrderedDict.values (_items m))).

(** [len(uniqueKeys())] *)
Definition uniqueKeys_len (m : OrderedMultiDictBase) : nat := size (_map m).

(** [i1 != i2] on two tuples of length two. *)
Definition item_ne (i1 i2 : Item) : bool :=
  negb (rich_eq (fst i1) (fst i2) && rich_eq (snd i1) (snd i2)).

(** The loop of [__eq__] over [zip_longest(..., fillvalue=_absent)]. *)
Fixpoint zip_longest_eq (l1 l2 : list Item) : bool :=
  match l1, l2 with
  | [], [] => true
  | i1 :: l1', i2 :: l2' => if item_ne i1 i2 then false else zip_longest_eq l1' l2'
  | _, _ => false
  end.

Definition __eq__ (m other : OrderedMultiDictBase) : bool :=
  zip_longest_eq (items m) (items other).

(** ** The other special methods and views *)

(** The two functors of [pyObjectPtrHash.h]. *)
Definition PyObjectPtrHash (o : ObjectPtr) : Z := py_hash o.

Definition PyObjectPtrHashEqual (lhs rhs : ObjectPtr) : bool :=
  Z.eqb (PyObjectPtrHash lhs) (PyObjectPtrHash rhs).

(** [__len__], which is also [_ViewBase.__len__] of the items, keys
    and values views. *)
Definition __len__ (m : OrderedMultiDictBase) : nat := length (_items m).

(** [__nonzero__]: [not self._map.empty()] *)
Definition __nonzero__ (m : OrderedMultiDictBase) : bool :=
  negb (Nat.eqb (size (_map m)) 0).

Definition __getitem__ (m : OrderedMultiDictBase) (key : ObjectPtr)
  : Result ObjectPtr :=
  match getAllOrNull m key with
  | Raise e => Raise e
  | Return (Ptr ((_, v) :: _)) => Return v
  | Return (Ptr []) => Raise AssertionError
  | Return NULL => Raise (KeyError key)
  end.

Definition __ne__ (m other : OrderedMultiDictBase) : bool :=
  negb (__eq__ m other).

(** [__getstate__]: [list(self._items.values())] *)
Definition __getstate__ (m : OrderedMultiDictBase) : list Item :=
  OrderedDict.values (_items m).

(** [__setstate__]: [_items] is replaced by a new [OrderedDict], the
    key index and the counter are left as they are, and the pairs are
    added. *)
Definition __setstate__ (m : OrderedMultiDictBase) (state : list Item)
  : Result unit * OrderedMultiDictBase :=
  extend (mkOMD [] (_map m) (_index m)) state.

(** [reversed(items())], [reversed(keys())], [reversed(values())] *)
Definition items_reversed (m : OrderedMultiDictBase) : list Item :=
  reverse (OrderedDict.values (_items m)).
Definition keys_reversed (m : OrderedMultiDictBase) : list ObjectPtr :=
  fst <$> reverse (OrderedDict.values (_items m)).
Definition values_reversed (m : OrderedMultiDictBase) : list ObjectPtr :=
  snd <$> reverse (OrderedDict.values (_items m)).

End Methods.

(** ** The dual-index invariant *)

Section Invariant.

Context `{PyObjectProtocol}.

(** The invariant of the data model, as the specification words it:
    every slot id recorded in the key index exists in the ledger with
    the identical key and value, and every ledger entry's key has a
    key-index entry that lists its slot id. *)
Definition dual_index (m : OrderedMultiDictBase) : Prop :=
  (forall h k0 values i v,
      _map m !! h = Some (k0, values) -> (i, v) ∈ values ->
      OrderedDict.get (_items m) i = Some (k0, v)) /\
  (forall i k v,
      (i, (k, v)) ∈ _items m ->
      exists values, find m k = Some (k, values) /\ (i, v) ∈ values).

(** The ledger entries whose key hashes to [h], in ledger order. *)
Definition bucket (h : Z) (l : list (nat * Item)) : list (nat * Item) :=
  filter (fun e : nat * Item => py_hash (fst (snd e)) = h) l.

(** The deque element of a ledger entry. *)
Definition slot_value (e : nat * Item) : nat * ObjectPtr :=
  (fst e, snd (snd e)).

(** The node such a group of ledger entries stands for. *)
Definition node_of (b : list (nat * Item))
  : option (ObjectPtr * list (nat * ObjectPtr)) :=
  match b with
  | [] => None
  | e :: _ => Some (fst (snd e), slot_value <$> b)
  end.

(** The representation invariant used in the proofs: slot ids are
    unique and below the counter, entries whose keys hash alike carry
    the same key object, and the key index is exactly the ledger
    grouped by hash. *)
Record consistent (m : OrderedMultiDictBase) : Prop := {
  slots_nodup : NoDup (fst <$> _items m);
  slots_fresh : forall e : nat * Item, e ∈ _items m -> fst e < _index m;
  keys_canonical :
    forall e1 e2 : nat * Item, e1 ∈ _items m -> e2 ∈ _items m ->
      py_hash (fst (snd e1)) = py_hash (fst (snd e2)) ->
      fst (snd e1) = fst (snd e2);
  index_exact : forall h, _map m !! h = node_of (bucket h (_items m))
}.

(** The part of it that every method keeps, [sort] included: the slot
    ids of the ledger are distinct and below the counter. *)
Definition slots_below_index (m : OrderedMultiDictBase) : Prop :=
  NoDup (fst <$> _items m) /\
  forall e : nat * Item, e ∈ _items m -> fst e < _index m.

(** Slot ids ascend along the ledger and stay below the counter. *)
Definition slots_ascending (m : OrderedMultiDictBase) : Prop :=
  StronglySorted Nat.lt (fst <$> _items m) /\
  forall e : nat * Item, e ∈ _items m -> fst e < _index m.

(** The key object [add] stores for [key]: the one already in the map
    when there is one. *)
Definition stored_key (m : OrderedMultiDictBase) (key : ObjectPtr) : ObjectPtr :=
  match find m key with
  | Some (k0, _) => k0
  | None => key
  end.

(** Two keys a Python [set] takes for the same element. *)
Definition same_key (a b : ObjectPtr) : bool :=
  Z.eqb (py_hash a) (py_hash b) && rich_eq a b.

(** [out] is [ks] with each distinct key kept at its first occurrence:
    the keys are read in order, and a key is appended to the output
    exactly when none of the keys appended so far is alike. *)
Inductive first_occurrences : list ObjectPtr -> list ObjectPtr -> Prop :=
| first_occurrences_nil : first_occurrences [] []
| first_occurrences_new ks out k :
    first_occurrences ks out ->
    (forall e, e ∈ out -> same_key e k = false) ->
    first_occurrences (ks ++ [k]) (out ++ [k])
| first_occurrences_seen ks out k e :
    first_occurrences ks out ->
    e ∈ out -> same_key e k = true ->
    first_occurrences (ks ++ [k]) out.

(** [out] lists each distinct key of [ks] exactly once: it keeps the
    order of [ks], every key of [ks] has its like in [out], no two
    elements of [out] are alike, and a key of [ks] with nothing alike
    before it is in [out]. *)
Definition each_key_once (ks out : list ObjectPtr) : Prop :=
  out `sublist_of` ks /\
  (forall k, k ∈ ks -> exists e, e ∈ out /\ same_key e k = true) /\
  (forall i j x y, out !! i = Some x -> out !! j = Some y -> i < j ->
     same_key x y = false) /\
  (forall l1 k l2, ks = l1 ++ k :: l2 ->
     (forall e, e ∈ l1 -> same_key e k = false) -> k ∈ out).

(** The key object [add] writes into the ledger: the key given when
    its node is new, and otherwise the key the ledger holds in the
    first slot of the node. *)
Definition ledger_key (m : OrderedMultiDictBase) (key : ObjectPtr) : ObjectPtr :=
  match find m key with
  | Some (_, (keyIndex, _) :: _) =>
      match OrderedDict.get (_items m) keyIndex with
      | Some (key', _) => key'
      | None => key
      end
  | _ => key
  end.

(** ** The key index as the C++ container has it *)

(** [unordered_map::find] over the nodes of the container, in the
    order it iterates them: it goes to the bucket the hash functor
    selects for the key ([bucket_of] is the container's rule from a
    hash value to a bucket) and returns the first node there whose key
    the equality functor takes for the key. *)
Definition um_find (bucket_of : Z -> Z)
    (nodes : list (ObjectPtr * list (nat * ObjectPtr))) (key : ObjectPtr)
  : option (ObjectPtr * list (nat * ObjectPtr)) :=
  List.find
    (fun node =>
       Z.eqb (bucket_of (PyObjectPtrHash (fst node))) (bucket_of (PyObjectPtrHash key))
       && PyObjectPtrHashEqual key (fst node))
    nodes.

(** The nodes the key index of the model stands for. *)
Definition map_nodes (m : OrderedMultiDictBase)
  : list (ObjectPtr * list (nat * ObjectPtr)) :=
  snd <$> map_to_list (_map m).

(** The contract of [__hash__]: objects that compare equal hash alike. *)
Definition hash_respects_eq (a b : ObjectPtr) : Prop :=
  py_eq a b = true -> py_hash a = py_hash b.

(** ** The public mutations as data *)

(** One constructor for each public method that changes the map,
    [pop], the bracket operators and [__setstate__] included. *)

Inductive Mutation : Type :=
| Add (key value : ObjectPtr)
| AddAll (key : ObjectPtr) (valuelist : list ObjectPtr)
| Extend (keyValuelist : list Item)
| SetAll (key : ObjectPtr) (valueList : list ObjectPtr)
| Setdefault (key default_ : ObjectPtr)
| SetdefaultAll (key : ObjectPtr) (defaultlist : list ObjectPtr)
| PopFirst (key : ObjectPtr) (default_ : option ObjectPtr)
| PopLast (key : ObjectPtr) (default_ : option ObjectPtr)
| PopAll (key : ObjectPtr) (default_ : Arg PyListOrNone)
| PopFirstItem (default_ : option ObjectPtr)
| PopLastItem (default_ : option ObjectPtr)
| DeleteAll (key : ObjectPtr)
| Clear
| Load (iterable : list Item)
| Sort {K : Type} (key : Item -> K) (lt : K -> K -> bool) (reverse_ : bool)
| Pop (key : ObjectPtr) (default_ : option ObjectPtr)
| SetItem (key value : ObjectPtr)
| DelItem (key : ObjectPtr)
| SetState (state : list Item).

(** The state a call leaves behind, whether it returned or raised. *)
Definition perform (m : OrderedMultiDictBase) (c : Mutation) : OrderedMultiDictBase :=
  match c with
  | Add key value => snd (add m key value)
  | AddAll key valuelist => snd (addAll m key valuelist)
  | Extend keyValuelist => snd (extend m keyValuelist)
  | SetAll key valueList => snd (setAll m key valueList)
  | Setdefault key default_ => snd (setdefault m key default_)
  | SetdefaultAll key defaultlist => snd (setdefaultAll m key defaultlist)
  | PopFirst key default_ => snd (popFirst m key default_)
  | PopLast key default_ => snd (popLast m key default_)
  | PopAll key default_ => snd (popAll_call m key default_)
  | PopFirstItem default_ => snd (popFirstItem m default_)
  | PopLastItem default_ => snd (popLastItem m default_)
  | DeleteAll key => snd (deleteAll m key)
  | Clear => clear m
  | Load iterable => snd (load m iterable)
  | Sort key lt reverse_ => sort m key lt reverse_
  | Pop key default_ => snd (pop m key default_)
  | SetItem key value => snd (__setitem__ m key value)
  | DelItem key => snd (__delitem__ m key)
  | SetState state => snd (__setstate__ m state)
  end.

(** [sort] and [__setstate__] assign a new [OrderedDict] to [_items]
    and leave the key index as it is. *)
Definition replaces_ledger (c : Mutation) : bool :=
  match c with
  | Sort _ _ _ | SetState _ => true
  | _ => false
  end.

(** The state after a sequence of calls on a new map. *)
Definition run (cs : list Mutation) : OrderedMultiDictBase :=
  foldl perform empty cs.

(** The counter [_index] is a [size_t] in the source and wraps around
    after [SIZE_MAX]; here it is a [nat].  The two agree on a sequence
    of calls as long as the counter has never gone beyond [SIZE_MAX]:
    [counter_within bits cs] says so of every state along [cs], for a
    [size_t] of [bits] bits. *)
Definition SIZE_MAX (bits : Z) : Z := (2 ^ bits - 1)%Z.

Definition counter_within (bits : Z) (cs : list Mutation) : Prop :=
  forall n, (Z.of_nat (_index (run (take n cs))) <= SIZE_MAX bits)%Z.

(** ** What the calls of a sequence raise, and what [load] stores *)

(** The exception a result carries, if any. *)
Definition raised {A : Type} (r : Result A) : option PyExc :=
  match r with
  | Return _ => None
  | Raise e => Some e
  end.



(** The pairs a replay of [kvs] stores when the keys in [seen] are
    already stored: each key is replaced by the first stored key that
    hashes like it. *)
Fixpoint canonical (seen : list ObjectPtr) (kvs : list Item) : list Item :=
  match kvs with
  | [] => []
  | (k, v) :: kvs' =>
      let s := default k (head (filter (fun s => py_hash s = py_hash k) seen)) in
      (s, v) :: canonical (seen ++ [s]) kvs'
  end.

End Invariant.

(** ** A concrete interpreter state for the examples

    Small integers hash to themselves except [-1], whose hash is [-2]
    like that of [-2]; the two objects at addresses 9 and 10 are two
    distinct integers [1000]. *)

Inductive PyVal : Type :=
| PyInt (z : Z)
| PyStr (s : string).

Definition heap : list PyVal :=
  [PyInt 0; PyInt 1; PyInt 2; PyInt 3; PyStr "a"; PyStr "b"; PyStr "c";
   PyInt (-1); PyInt (-2); PyInt 1000; PyInt 1000; PyInt 5].

Definition hash_of (v : PyVal) : Z :=
  match v with
  | PyInt z => if Z.eqb z (-1) then (-2)%Z else z
  | PyStr EmptyString => 0%Z
  | PyStr (String c _) => (1000003 * Z.of_nat (nat_of_ascii c))%Z
  end.

Definition val_eqb (a b : PyVal) : bool :=
  match a, b with
  | PyInt x, PyInt y => Z.eqb x y
  | PyStr s, PyStr t => String.eqb s t
  | _, _ => false
  end.

#[export] Instance cpython : PyObjectProtocol := {|
  py_hash p := match heap !! p with Some v => hash_of v | None => 0%Z end;
  py_eq p q :=
    match heap !! p, heap !! q with
    | Some a, Some b => val_eqb a b
    | _, _ => false
    end
|}.

(** Names for the addresses. *)
Definition int_1 : ObjectPtr := 1.
Definition int_2 : ObjectPtr := 2.
Definition int_3 : ObjectPtr := 3.
Definition str_a : ObjectPtr := 4.
Definition str_b : ObjectPtr := 5.
Definition str_c : ObjectPtr := 6.
Definition int_m1 : ObjectPtr := 7.
Definition int_m2 : ObjectPtr := 8.
Definition int_1000 : ObjectPtr := 9.
Definition int_1000' : ObjectPtr := 10.
Definition int_5 : ObjectPtr := 11.

(** [lambda kv: kv[1]] on string values, as the code point of the
    first character. *)
Definition by_value (kv : Item) : Z :=
  match heap !! snd kv with
  | Some (PyStr (String c _)) => Z.of_nat (nat_of_ascii c)
  | _ => 0%Z
  end.

(** [lambda kv: kv[0]] on integer keys. *)
Definition by_key (kv : Item) : Z :=
  match heap !! fst kv with
  | Some (PyInt z) => z
  | _ => 0%Z
  end.

(** * Proofs *)

(** ** Filtering a list *)

Section FilterFacts.

Context {A : Type} (P Q : A -> Prop).
Context `{!forall x, Decision (P x)} `{!forall x, Decision (Q x)}.

Lemma filter_all (l : list A) :
  (forall x, x ∈ l -> P x) -> filter P l = l.
Proof.
  induction l as [|a l IH]; intros HP; [done|].
  rewrite filter_cons_True by (apply HP; left).
  f_equal. apply IH. intros x Hx. apply HP. by right.
Qed.

Lemma filter_none (l : list A) :
  (forall x, x ∈ l -> ~ P x) -> filter P l = [].
Proof.
  induction l as [|a l IH]; intros HP; [done|].
  rewrite filter_cons_False by (apply HP; left).
  apply IH. intros x Hx. apply HP. by right.
Qed.

Lemma filter_ext_elem (l : list A) :
  (forall x, x ∈ l -> P x <-> Q x) -> filter P l = filter Q l.
Proof.
  induction l as [|a l IH]; intros HPQ; [done|].
  rewrite !filter_cons.
  rewrite IH by (intros x Hx; apply HPQ; by right).
  destruct (decide (P a)) as [Hp|Hp], (decide (Q a)) as [Hq|Hq]; try done;
    exfalso; apply (HPQ a (list_elem_of_here _ _)) in Hp || apply Hp, HPQ;
    try done; left.
Qed.

Lemma filter_swap (l : list A) :
  filter P (filter Q l) = filter Q (filter P l).
Proof.
  rewrite !list_filter_filter. apply list_filter_iff. tauto.
Qed.

End FilterFacts.

(** ** The association list *)

Section OrderedDictFacts.

Implicit Types (d : list (nat * Item)) (i : nat) (x : Item).

Lemma od_get_elem_of d i x :
  OrderedDict.get d i = Some x -> (i, x) ∈ d.
Proof.
  induction d as [|[j y] d IH]; simpl; [discriminate|].
  destruct (Nat.eqb_spec j i) as [->|Hne]; intros Hg.
  - injection Hg as ->. apply list_elem_of_here.
  - apply list_elem_of_further, IH, Hg.
Qed.

Lemma od_get_of_elem d i x :
  NoDup (fst <$> d) -> (i, x) ∈ d -> OrderedDict.get d i = Some x.
Proof.
  induction d as [|[j y] d IH]; simpl; intros Hnd Hin.
  - apply elem_of_nil in Hin. destruct Hin.
  - apply NoDup_cons in Hnd as [Hj Hnd].
    apply elem_of_cons in Hin as [Heq|Hin].
    + injection Heq as -> ->. by rewrite Nat.eqb_refl.
    + destruct (Nat.eqb_spec j i) as [->|Hne]; [|by apply IH].
      exfalso. apply Hj. apply list_elem_of_fmap. by exists (i, x).
Qed.

Lemma od_set_fresh d i x :
  i ∉ fst <$> d -> OrderedDict.set d i x = d ++ [(i, x)].
Proof.
  induction d as [|[j y] d IH]; simpl; intros Hni; [done|].
  apply not_elem_of_cons in Hni as [Hne Hni].
  destruct (Nat.eqb_spec j i) as [->|_]; [done|].
  by rewrite IH.
Qed.

Lemma od_del_filter d i :
  NoDup (fst <$> d) -> i ∈ fst <$> d ->
  OrderedDict.del d i = Some (filter (fun e : nat * Item => fst e <> i) d).
Proof.
  induction d as [|[j y] d IH]; simpl; intros Hnd Hin.
  - apply elem_of_nil in Hin. destruct Hin.
  - apply NoDup_cons in Hnd as [Hj Hnd].
    rewrite filter_cons. simpl.
    destruct (Nat.eqb_spec j i) as [->|Hne].
    + rewrite decide_False by (intros Hc; by apply Hc).
      f_equal. symmetry. apply filter_all.
      intros e He Heq. apply Hj. rewrite <- Heq.
      apply list_elem_of_fmap. by exists e.
    + rewrite decide_True by done.
      apply elem_of_cons in Hin as [Heq|Hin]; [congruence|].
      by rewrite IH.
Qed.

Lemma od_del_None d i :
  i ∉ fst <$> d -> OrderedDict.del d i = None.
Proof.
  induction d as [|[j y] d IH]; simpl; intros Hni; [done|].
  apply not_elem_of_cons in Hni as [Hne Hni].
  destruct (Nat.eqb_spec j i) as [->|_]; [done|].
  by rewrite IH.
Qed.

End OrderedDictFacts.


(** ** [sorted] *)

Section SortedFacts.

Context {A K : Type} (key : A -> K) (lt : K -> K -> bool).

Lemma insert_sorted_Permutation x l : insert_sorted key lt x l ≡ₚ x :: l.
Proof.
  induction l as [|y l IH]; simpl; [done|].
  destruct (lt (key y) (key x)); [|done].
  rewrite IH. apply Permutation_swap.
Qed.

Lemma stable_sort_Permutation l : stable_sort key lt l ≡ₚ l.
Proof.
  induction l as [|x l IH]; simpl; [done|].
  unfold stable_sort in *. simpl. by rewrite insert_sorted_Permutation, IH.
Qed.

Lemma sorted_Permutation reverse_ l : sorted key lt reverse_ l ≡ₚ l.
Proof.
  unfold sorted. destruct reverse_.
  - by rewrite reverse_Permutation, stable_sort_Permutation, reverse_Permutation.
  - apply stable_sort_Permutation.
Qed.

Lemma sorted_length reverse_ l : length (sorted key lt reverse_ l) = length l.
Proof. apply Permutation_length, sorted_Permutation. Qed.

(** The result is in order as soon as [lt] is asymmetric. *)
Lemma insert_sorted_Sorted x l :
  (forall a b, lt a b = true -> lt b a = false) ->
  Sorted (fun a b => lt (key b) (key a) = false) l ->
  Sorted (fun a b => lt (key b) (key a) = false) (insert_sorted key lt x l).
Proof.
  intros Hasym Hs. induction Hs as [|y l Hs IH Hhd]; simpl.
  - by repeat constructor.
  - destruct (lt (key y) (key x)) eqn:Hyx.
    + constructor; [done|].
      destruct Hhd as [|z l Hz]; simpl.
      * constructor. by apply Hasym.
      * destruct (lt (key z) (key x)); constructor; [done|by apply Hasym].
    + constructor; [by constructor|]. by constructor.
Qed.

Lemma stable_sort_Sorted l :
  (forall a b, lt a b = true -> lt b a = false) ->
  Sorted (fun a b => lt (key b) (key a) = false) (stable_sort key lt l).
Proof.
  intros Hasym. induction l as [|x l IH]; [constructor|].
  by apply insert_sorted_Sorted.
Qed.

(** With [reverse=False] the result ascends, with [reverse=True] it
    descends. *)
Lemma sorted_Sorted (reverse_ : bool) l :
  (forall a b, lt a b = true -> lt b a = false) ->
  if reverse_
  then Sorted (fun a b => lt (key a) (key b) = false) (sorted key lt true l)
  else Sorted (fun a b => lt (key b) (key a) = false) (sorted key lt false l).
Proof.
  intros Hasym. destruct reverse_; unfold sorted.
  - apply (Sorted_reverse (fun a b => lt (key b) (key a) = false)).
    by apply stable_sort_Sorted.
  - by apply stable_sort_Sorted.
Qed.

(** Stability: the elements with a given sort key keep their order. *)
Context `{!EqDecision K}.

Lemma insert_sorted_stable x l c :
  lt c c = false ->
  filter (fun y => key y = c) (insert_sorted key lt x l)
    = filter (fun y => key y = c) (x :: l).
Proof.
  intros Hirr. induction l as [|y l IH]; simpl; [done|].
  destruct (lt (key y) (key x)) eqn:Hyx; [|done].
  rewrite (filter_cons _ y), IH, !filter_cons.
  destruct (decide (key y = c)) as [Hy|Hy], (decide (key x = c)) as [Hx|Hx];
    try done.
  rewrite Hy, Hx, Hirr in Hyx. discriminate.
Qed.

Lemma stable_sort_stable l c :
  lt c c = false ->
  filter (fun y => key y = c) (stable_sort key lt l) = filter (fun y => key y = c) l.
Proof.
  intros Hirr. induction l as [|x l IH]; [done|].
  unfold stable_sort in *. simpl.
  rewrite insert_sorted_stable by done. by rewrite !filter_cons, IH.
Qed.

Lemma sorted_stable reverse_ l c :
  lt c c = false ->
  filter (fun y => key y = c) (sorted key lt reverse_ l)
    = filter (fun y => key y = c) l.
Proof.
  intros Hirr. unfold sorted. destruct reverse_.
  - rewrite filter_reverse, stable_sort_stable, filter_reverse by done.
    apply reverse_involutive.
  - by apply stable_sort_stable.
Qed.

End SortedFacts.

(** ** The representation invariant *)

Section ConsistentFacts.

Context `{PyObjectProtocol}.

Implicit Types (m : OrderedMultiDictBase) (l b : list (nat * Item))
  (e : nat * Item) (h : Z) (key k v : ObjectPtr).

Lemma nodup_fst_inj l e1 e2 :
  NoDup (fst <$> l) -> e1 ∈ l -> e2 ∈ l -> fst e1 = fst e2 -> e1 = e2.
Proof.
  induction l as [|a l IH]; simpl; intros Hnd H1 H2 Heq.
  - by apply elem_of_nil in H1.
  - apply NoDup_cons in Hnd as [Ha Hnd].
    apply elem_of_cons in H1 as [->|H1]; apply elem_of_cons in H2 as [->|H2].
    + done.
    + exfalso. apply Ha. rewrite Heq. by apply list_elem_of_fmap_2.
    + exfalso. apply Ha. rewrite <- Heq. by apply list_elem_of_fmap_2.
    + by apply IH.
Qed.

Lemma nodup_fst_filter (P : nat * Item -> Prop) `{!forall x, Decision (P x)} l :
  NoDup (fst <$> l) -> NoDup (fst <$> filter P l).
Proof.
  intros Hnd. eapply sublist_NoDup; [exact Hnd|].
  apply fmap_sublist, sublist_filter.
Qed.

Lemma bucket_app h l1 l2 : bucket h (l1 ++ l2) = bucket h l1 ++ bucket h l2.
Proof. apply filter_app. Qed.

Lemma bucket_cons h e l :
  bucket h (e :: l) =
    if decide (py_hash (fst (snd e)) = h) then e :: bucket h l else bucket h l.
Proof. unfold bucket. by rewrite filter_cons. Qed.

Lemma elem_of_bucket h l e :
  e ∈ bucket h l <-> py_hash (fst (snd e)) = h /\ e ∈ l.
Proof. unfold bucket. by rewrite list_elem_of_filter. Qed.

Lemma consistent_empty : consistent empty.
Proof.
  split; simpl.
  - constructor.
  - intros e He. by apply elem_of_nil in He.
  - intros e1 e2 He. by apply elem_of_nil in He.
  - intros h. apply lookup_empty.
Qed.

Lemma find_consistent m key :
  consistent m -> find m key = node_of (bucket (py_hash key) (_items m)).
Proof. intros Hc. apply (index_exact _ Hc). Qed.

(** In a consistent state a key is in the map exactly when the ledger
    holds an entry that hashes like it. *)
Lemma contains_consistent m key :
  consistent m ->
  contains m key = match bucket (py_hash key) (_items m) with [] => false | _ => true end.
Proof.
  intros Hc. unfold contains. rewrite find_consistent by done.
  by destruct (bucket _ _).
Qed.

Lemma getAllOrNull_consistent m key :
  consistent m ->
  getAllOrNull m key =
    match bucket (py_hash key) (_items m) with
    | [] => Return NULL
    | b => Return (Ptr (slot_value <$> b))
    end.
Proof.
  intros Hc. unfold getAllOrNull. rewrite find_consistent by done.
  by destruct (bucket _ _).
Qed.

Lemma getAllOrNull_present m key :
  consistent m -> bucket (py_hash key) (_items m) <> [] ->
  getAllOrNull m key = Return (Ptr (slot_value <$> bucket (py_hash key) (_items m))).
Proof.
  intros Hc Hne. rewrite getAllOrNull_consistent by done.
  by destruct (bucket _ _).
Qed.

(** Appending an entry under the key object its hash group already
    uses. *)
Lemma consistent_snoc l mp idx k0 v :
  consistent (mkOMD l mp idx) ->
  (forall e, e ∈ l -> py_hash (fst (snd e)) = py_hash k0 -> fst (snd e) = k0) ->
  consistent
    (mkOMD (l ++ [(idx, (k0, v))])
           (<[py_hash k0 := (k0, (slot_value <$> bucket (py_hash k0) l) ++ [(idx, v)])]> mp)
           (S idx)).
Proof.
  intros [Hnd Hfr Hcan Hix] Hk0. simpl in *. split; simpl.
  - rewrite fmap_app. apply NoDup_app. split; [done|]. split.
    + intros i Hi Hi'. apply list_elem_of_singleton in Hi'. simpl in Hi'. subst i.
      apply list_elem_of_fmap in Hi as (e & He1 & He). apply Hfr in He. lia.
    + apply NoDup_singleton.
  - intros e He. apply elem_of_app in He as [He|He].
    + apply Hfr in He. lia.
    + apply list_elem_of_singleton in He. subst e. simpl. lia.
  - intros e1 e2 H1 H2 Hh.
    apply elem_of_app in H1 as [H1|H1]; apply elem_of_app in H2 as [H2|H2];
      try (apply list_elem_of_singleton in H1; subst e1);
      try (apply list_elem_of_singleton in H2; subst e2); simpl in *.
    + by apply Hcan.
    + by apply Hk0.
    + symmetry. by apply Hk0.
    + done.
  - intros h. rewrite bucket_app, bucket_cons. simpl.
    destruct (decide (py_hash k0 = h)) as [<-|Hne].
    + rewrite lookup_insert_eq.
      destruct (bucket (py_hash k0) l) as [|e b] eqn:Hb; simpl; [done|].
      assert (He : e ∈ bucket (py_hash k0) l) by (rewrite Hb; left).
      apply elem_of_bucket in He as [Hh He].
      rewrite (Hk0 e He Hh). by rewrite fmap_app.
    + rewrite lookup_insert_ne by done. rewrite app_nil_r. apply Hix.
Qed.

(** Removing one ledger entry and shrinking its deque accordingly. *)
Lemma consistent_remove m e key :
  consistent m -> e ∈ _items m -> py_hash key = py_hash (fst (snd e)) ->
  let l' := filter (fun x : nat * Item => fst x <> fst e) (_items m) in
  let values' := slot_value <$> bucket (py_hash key) l' in
  consistent
    (mkOMD l' (erase_if_empty (store (_map m) key values') key values') (_index m)).
Proof.
  intros [Hnd Hfr Hcan Hix] He Hkey l' values'. split; simpl.
  - by apply nodup_fst_filter.
  - intros x Hx. apply list_elem_of_filter in Hx as [_ Hx]. by apply Hfr.
  - intros e1 e2 H1 H2. apply list_elem_of_filter in H1 as [_ H1].
    apply list_elem_of_filter in H2 as [_ H2]. by apply Hcan.
  - intros h. destruct (decide (py_hash key = h)) as [<-|Hne].
    + subst values'. destruct (bucket (py_hash key) l') as [|e1 b1] eqn:Hb; simpl.
      * unfold erase. by rewrite lookup_delete_eq.
      * unfold store. rewrite lookup_alter_eq, Hix.
        assert (He' : e ∈ bucket (py_hash key) (_items m))
          by (apply elem_of_bucket; split; [done|done]).
        destruct (bucket (py_hash key) (_items m)) as [|e0 b0] eqn:Hb0;
          [by apply elem_of_nil in He'|]. simpl.
        assert (H0 : e0 ∈ bucket (py_hash key) (_items m)) by (rewrite Hb0; left).
        assert (H1 : e1 ∈ bucket (py_hash key) l') by (rewrite Hb; left).
        apply elem_of_bucket in H0 as [Hh0 H0].
        apply elem_of_bucket in H1 as [Hh1 H1].
        apply list_elem_of_filter in H1 as [_ H1].
        do 2 f_equal. apply Hcan; [done|done|].
        etrans; [exact Hh0|symmetry; exact Hh1].
    + assert (Hlk : erase_if_empty (store (_map m) key values') key values' !! h
                    = _map m !! h).
      { unfold erase_if_empty, erase, store. destruct values'.
        - rewrite lookup_delete_ne by done. by rewrite lookup_alter_ne.
        - by rewrite lookup_alter_ne. }
      rewrite Hlk, Hix. apply (f_equal node_of). subst l'. unfold bucket.
      rewrite filter_swap. symmetry. apply filter_all.
      intros x Hx Heq. apply list_elem_of_filter in Hx as [Hhx Hx].
      assert (x = e) by (by apply (nodup_fst_inj (_items m))). subst x.
      apply Hne. etrans; [exact Hkey|exact Hhx].
Qed.

(** Removing a whole hash group. *)
Lemma consistent_remove_bucket m key :
  consistent m ->
  consistent
    (mkOMD (filter (fun x : nat * Item => py_hash (fst (snd x)) <> py_hash key) (_items m))
           (erase (_map m) key) (_index m)).
Proof.
  intros [Hnd Hfr Hcan Hix]. split; simpl.
  - by apply nodup_fst_filter.
  - intros x Hx. apply list_elem_of_filter in Hx as [_ Hx]. by apply Hfr.
  - intros e1 e2 H1 H2. apply list_elem_of_filter in H1 as [_ H1].
    apply list_elem_of_filter in H2 as [_ H2]. by apply Hcan.
  - intros h. unfold erase, bucket. destruct (decide (py_hash key = h)) as [<-|Hne].
    + rewrite lookup_delete_eq. rewrite filter_none; [done|].
      intros x Hx Hhx. apply list_elem_of_filter in Hx as [Hx _]. done.
    + rewrite lookup_delete_ne by done. rewrite Hix. apply (f_equal node_of).
      unfold bucket. rewrite filter_swap. symmetry. apply filter_all.
      intros x Hx. apply list_elem_of_filter in Hx as [Hhx _].
      intros Heq. apply Hne. etrans; [symmetry; exact Heq|exact Hhx].
Qed.

End ConsistentFacts.

(** ** Every method on a consistent state *)

Section MethodFacts.

Context `{PyObjectProtocol}.

Implicit Types (m : OrderedMultiDictBase) (l b : list (nat * Item))
  (e : nat * Item) (h : Z) (key k v value : ObjectPtr).

Lemma stored_key_hash m key :
  consistent m -> py_hash (stored_key m key) = py_hash key.
Proof.
  intros Hc. unfold stored_key. rewrite find_consistent by done.
  destruct (bucket _ _) as [|e b] eqn:Hb; simpl; [done|].
  assert (He : e ∈ bucket (py_hash key) (_items m)) by (rewrite Hb; left).
  by apply elem_of_bucket in He as [? _].
Qed.

Lemma stored_key_canonical m key e :
  consistent m -> e ∈ _items m -> py_hash (fst (snd e)) = py_hash key ->
  fst (snd e) = stored_key m key.
Proof.
  intros Hc He Hh. unfold stored_key. rewrite find_consistent by done.
  destruct (bucket _ _) as [|e0 b] eqn:Hb; simpl.
  - exfalso. assert (He' : e ∈ bucket (py_hash key) (_items m))
      by (by apply elem_of_bucket).
    rewrite Hb in He'. by apply elem_of_nil in He'.
  - assert (H0 : e0 ∈ bucket (py_hash key) (_items m)) by (rewrite Hb; left).
    apply elem_of_bucket in H0 as [Hh0 H0].
    apply (keys_canonical _ Hc); [done|done|].
    etrans; [exact Hh|symmetry; exact Hh0].
Qed.

(** [add] never raises on a consistent state; it appends one entry,
    under the key object already stored for that hash if any. *)
Lemma add_consistent m key value :
  consistent m ->
  fst (add m key value) = Return tt /\
  consistent (snd (add m key value)) /\
  _items (snd (add m key value))
    = _items m ++ [(_index m, (stored_key m key, value))] /\
  _index (snd (add m key value)) = S (_index m).
Proof.
  intros Hc.
  pose proof (consistent_snoc (_items m) (_map m) (_index m)
                (stored_key m key) value) as Hsnoc.
  destruct m as [l mp idx]. simpl in Hsnoc.
  specialize (Hsnoc Hc).
  rewrite (stored_key_hash _ key Hc) in Hsnoc.
  assert (Hfresh : idx ∉ fst <$> l).
  { intros Hi. apply list_elem_of_fmap in Hi as (e & -> & He).
    apply (slots_fresh _ Hc) in He. simpl in He. lia. }
  specialize (Hsnoc (fun e He Hh => stored_key_canonical _ key e Hc He Hh)).
  revert Hsnoc. unfold add, stored_key. rewrite (find_consistent _ key Hc). simpl.
  destruct (bucket (py_hash key) l) as [|e b] eqn:Hb; simpl; intros Hsnoc.
  - rewrite od_set_fresh by done. done.
  - assert (He : e ∈ bucket (py_hash key) l) by (rewrite Hb; left).
    apply elem_of_bucket in He as [Hh He].
    rewrite (od_get_of_elem l (fst e) (snd e)); [|apply (slots_nodup _ Hc)|by destruct e].
    destruct e as [i [k0 v0]]; simpl in *.
    rewrite od_set_fresh by done. done.
Qed.

Lemma stored_key_add m key value key' :
  consistent m -> py_hash key' = py_hash key ->
  stored_key (snd (add m key value)) key' = stored_key m key.
Proof.
  intros Hc Hh. destruct (add_consistent m key value Hc) as (_ & Hc' & Hit & _).
  symmetry.
  apply (stored_key_canonical _ key' (_index m, (stored_key m key, value)) Hc').
  - rewrite Hit. apply elem_of_app. right. left.
  - simpl. rewrite stored_key_hash by done. done.
Qed.

Lemma addAll_consistent m key valuelist :
  consistent m ->
  fst (addAll m key valuelist) = Return tt /\
  consistent (snd (addAll m key valuelist)) /\
  items (snd (addAll m key valuelist))
    = items m ++ ((fun v => (stored_key m key, v)) <$> valuelist).
Proof.
  revert m. induction valuelist as [|v vs IH]; intros m Hc; simpl.
  - by rewrite app_nil_r.
  - destruct (add_consistent m key v Hc) as (Hr & Hc' & Hit & _).
    pose proof (stored_key_add m key v key Hc eq_refl) as Hsk.
    destruct (add m key v) as [r m']. simpl in *. subst r.
    destruct (IH m' Hc') as (Hr' & Hc'' & Hit').
    split; [done|]. split; [done|].
    rewrite Hit'. unfold items, OrderedDict.values. rewrite Hit, fmap_app. simpl.
    rewrite Hsk. by rewrite <- app_assoc.
Qed.

Lemma extend_consistent m keyValuelist :
  consistent m ->
  fst (extend m keyValuelist) = Return tt /\
  consistent (snd (extend m keyValuelist)).
Proof.
  revert m. induction keyValuelist as [|[k v] kvs IH]; intros m Hc; simpl; [done|].
  destruct (add_consistent m k v Hc) as (Hr & Hc' & _).
  destruct (add m k v) as [r m']. simpl in *. subst r. by apply IH.
Qed.

(** Replaying a sequence whose keys are already the stored ones
    appends it as it is. *)
Lemma extend_canonical m keyValuelist :
  consistent m ->
  (forall x y : Item, x ∈ items m ++ keyValuelist -> y ∈ items m ++ keyValuelist ->
     py_hash (fst x) = py_hash (fst y) -> fst x = fst y) ->
  items (snd (extend m keyValuelist)) = items m ++ keyValuelist.
Proof.
  revert m. induction keyValuelist as [|[k v] kvs IH]; intros m Hc Hcan; simpl.
  - by rewrite app_nil_r.
  - destruct (add_consistent m k v Hc) as (Hr & Hc' & Hit & _).
    assert (Hsk : stored_key m k = k).
    { unfold stored_key. rewrite find_consistent by done.
      destruct (bucket _ _) as [|e b] eqn:Hb; simpl; [done|].
      assert (He : e ∈ bucket (py_hash k) (_items m)) by (rewrite Hb; left).
      apply elem_of_bucket in He as [Hh He].
      apply (Hcan (snd e) (k, v)).
      - apply elem_of_app. left. unfold items, OrderedDict.values.
        by apply list_elem_of_fmap_2.
      - apply elem_of_app. right. left.
      - done. }
    destruct (add m k v) as [r m']. simpl in *. subst r.
    assert (Hit' : items m' = items m ++ [(k, v)]).
    { unfold items, OrderedDict.values. rewrite Hit, fmap_app. simpl.
      by rewrite Hsk. }
    rewrite IH; [|done|].
    + rewrite Hit'. by rewrite <- app_assoc.
    + rewrite Hit', <- app_assoc. exact Hcan.
Qed.

Lemma load_consistent m iterable :
  fst (load m iterable) = Return tt /\ consistent (snd (load m iterable)).
Proof. apply extend_consistent, consistent_empty. Qed.

Lemma setdefault_consistent m key default_ :
  consistent m -> consistent (snd (setdefault m key default_)).
Proof.
  intros Hc. unfold setdefault. rewrite getAllOrNull_consistent by done.
  destruct (bucket _ _) as [|[i [k0 v0]] b]; simpl.
  - destruct (add_consistent m key default_ Hc) as (Hr & Hc' & _).
    destruct (add m key default_) as [r m']. simpl in *. by subst r.
  - done.
Qed.

Lemma setdefaultAll_consistent m key defaultlist :
  consistent m -> consistent (snd (setdefaultAll m key defaultlist)).
Proof.
  intros Hc. unfold setdefaultAll. rewrite getAllOrNull_consistent by done.
  destruct (bucket _ _) as [|e b]; simpl.
  - destruct (addAll_consistent m key defaultlist Hc) as (Hr & Hc' & _).
    destruct (addAll m key defaultlist) as [r m']. simpl in *. by subst r.
  - done.
Qed.

(** Deleting the slots of a group of entries of the ledger. *)
Lemma del_slots_entries l b :
  NoDup (fst <$> l) -> NoDup (fst <$> b) -> (forall e, e ∈ b -> e ∈ l) ->
  del_slots l (slot_value <$> b)
    = (Return tt, filter (fun x : nat * Item => fst x ∉ fst <$> b) l).
Proof.
  revert l. induction b as [|e b IH]; intros l Hl Hb Hsub; simpl.
  - f_equal. symmetry. apply filter_all. intros x _. apply not_elem_of_nil.
  - apply NoDup_cons in Hb as [He Hb].
    rewrite od_del_filter; [|done|apply list_elem_of_fmap_2, Hsub; left].
    rewrite IH.
    + f_equal. rewrite list_filter_filter. apply list_filter_iff.
      intros x. rewrite not_elem_of_cons. tauto.
    + by apply nodup_fst_filter.
    + done.
    + intros e' He'. apply list_elem_of_filter. split.
      * intros Heq. apply He. rewrite <- Heq. by apply list_elem_of_fmap_2.
      * apply Hsub. by right.
Qed.

Lemma del_slots_bucket l h :
  NoDup (fst <$> l) ->
  del_slots l (slot_value <$> bucket h l)
    = (Return tt, filter (fun x : nat * Item => py_hash (fst (snd x)) <> h) l).
Proof.
  intros Hl. rewrite del_slots_entries.
  - f_equal. apply filter_ext_elem. intros x Hx. split.
    + intros Hni Hh. apply Hni. apply list_elem_of_fmap_2. by apply elem_of_bucket.
    + intros Hh Hin. apply list_elem_of_fmap in Hin as (y & Heq & Hy).
      apply elem_of_bucket in Hy as [Hhy Hy].
      assert (x = y) by (by apply (nodup_fst_inj l)). subst y. done.
  - done.
  - by apply nodup_fst_filter.
  - intros e He. by apply elem_of_bucket in He as [_ ?].
Qed.

(** The state [popAll], [deleteAll] and [setAll] reach after removing
    every entry of a key that is present. *)
Lemma tryDeleteAll_consistent m key :
  consistent m ->
  _tryDeleteAll m key =
    (Return (contains m key),
     if contains m key
     then mkOMD (filter (fun x : nat * Item => py_hash (fst (snd x)) <> py_hash key)
                   (_items m))
                (erase (_map m) key) (_index m)
     else m).
Proof.
  intros Hc. unfold _tryDeleteAll.
  rewrite getAllOrNull_consistent, contains_consistent by done.
  pose proof (del_slots_bucket (_items m) (py_hash key) (slots_nodup _ Hc)) as Hd.
  destruct (bucket _ _) as [|e b]; [done|].
  by rewrite Hd.
Qed.

Lemma tryDeleteAll_state_consistent m key :
  consistent m -> consistent (snd (_tryDeleteAll m key)).
Proof.
  intros Hc. rewrite tryDeleteAll_consistent by done. simpl.
  destruct (contains m key); [|done]. by apply consistent_remove_bucket.
Qed.

Lemma deleteAll_consistent m key :
  consistent m -> consistent (snd (deleteAll m key)).
Proof.
  intros Hc. pose proof (tryDeleteAll_state_consistent m key Hc) as Hc'.
  unfold deleteAll. rewrite tryDeleteAll_consistent in * by done.
  by destruct (contains m key).
Qed.

Lemma setAll_consistent m key valueList :
  consistent m ->
  fst (setAll m key valueList) = Return tt /\
  consistent (snd (setAll m key valueList)).
Proof.
  intros Hc. pose proof (tryDeleteAll_state_consistent m key Hc) as Hc'.
  unfold setAll. rewrite tryDeleteAll_consistent in * by done. simpl in *.
  destruct (addAll_consistent _ key valueList Hc') as (Hr & Hc'' & _). done.
Qed.

Lemma popAll_consistent m key default_ :
  consistent m ->
  popAll m key default_ =
    match find m key with
    | Some (_, values) =>
        (Return (snd <$> values),
         mkOMD (filter (fun x : nat * Item => py_hash (fst (snd x)) <> py_hash key)
                  (_items m))
               (erase (_map m) key) (_index m))
    | None =>
        match default_ with
        | PyList d => (Return d, m)
        | PyNone => (Raise (KeyError key), m)
        end
    end.
Proof.
  intros Hc. unfold popAll.
  rewrite getAllOrNull_consistent, find_consistent by done.
  pose proof (del_slots_bucket (_items m) (py_hash key) (slots_nodup _ Hc)) as Hd.
  destruct (bucket _ _) as [|e b]; [done|].
  by rewrite Hd.
Qed.

Lemma popAll_state_consistent m key default_ :
  consistent m -> consistent (snd (popAll m key default_)).
Proof.
  intros Hc. rewrite popAll_consistent by done.
  destruct (find m key) as [[k0 values]|]; simpl.
  - by apply consistent_remove_bucket.
  - by destruct default_.
Qed.

(** *** Removing one entry *)

Lemma filter_ne_cons e l :
  NoDup (fst <$> e :: l) ->
  filter (fun x : nat * Item => fst x <> fst e) (e :: l) = l.
Proof.
  intros Hnd. rewrite fmap_cons in Hnd. apply NoDup_cons in Hnd as [He _].
  rewrite filter_cons_False by (intros Hc; by apply Hc).
  apply filter_all. intros x Hx Heq. apply He. rewrite <- Heq.
  by apply list_elem_of_fmap_2.
Qed.

Lemma filter_ne_snoc e l :
  NoDup (fst <$> l ++ [e]) ->
  filter (fun x : nat * Item => fst x <> fst e) (l ++ [e]) = l.
Proof.
  intros Hnd. rewrite fmap_app in Hnd. apply NoDup_app in Hnd as (_ & He & _).
  rewrite filter_app, filter_cons_False, filter_nil, app_nil_r
    by (intros Hc; by apply Hc).
  apply filter_all. intros x Hx Heq. apply (He (fst x)).
  - by apply list_elem_of_fmap_2.
  - rewrite Heq. simpl. left.
Qed.

Lemma bucket_remove l e h :
  bucket h (filter (fun x : nat * Item => fst x <> fst e) l)
    = filter (fun x : nat * Item => fst x <> fst e) (bucket h l).
Proof. unfold bucket. apply filter_swap. Qed.

(** [popFirst] on a consistent state. *)
Lemma popFirst_consistent m key default_ :
  consistent m ->
  match bucket (py_hash key) (_items m) with
  | [] =>
      popFirst m key default_ =
        (match default_ with Some d => Return d | None => Raise (KeyError key) end, m)
  | e :: b =>
      fst (popFirst m key default_) = Return (snd (snd e)) /\
      consistent (snd (popFirst m key default_)) /\
      _items (snd (popFirst m key default_))
        = filter (fun x : nat * Item => fst x <> fst e) (_items m) /\
      bucket (py_hash key) (_items (snd (popFirst m key default_))) = b
  end.
Proof.
  intros Hc. unfold popFirst. rewrite getAllOrNull_consistent by done.
  destruct (bucket _ _) as [|e b] eqn:Hb; [by destruct default_|].
  assert (He : e ∈ bucket (py_hash key) (_items m)) by (rewrite Hb; left).
  apply elem_of_bucket in He as [Hh He].
  assert (Hb' : bucket (py_hash key)
                  (filter (fun x : nat * Item => fst x <> fst e) (_items m)) = b).
  { rewrite bucket_remove, Hb. apply filter_ne_cons. rewrite <- Hb.
    apply nodup_fst_filter, (slots_nodup _ Hc). }
  pose proof (consistent_remove m e key Hc He (eq_sym Hh)) as Hrem.
  simpl in Hrem. rewrite Hb' in Hrem.
  destruct e as [i [k0 v0]]. simpl in *.
  rewrite od_del_filter;
    [|apply (slots_nodup _ Hc)|by apply (list_elem_of_fmap_2 fst) in He].
  simpl. done.
Qed.

(** [popLast] on a consistent state. *)
Lemma popLast_consistent m key default_ :
  consistent m ->
  match last (bucket (py_hash key) (_items m)) with
  | None =>
      popLast m key default_ =
        (match default_ with Some d => Return d | None => Raise (KeyError key) end, m)
  | Some e =>
      fst (popLast m key default_) = Return (snd (snd e)) /\
      consistent (snd (popLast m key default_)) /\
      _items (snd (popLast m key default_))
        = filter (fun x : nat * Item => fst x <> fst e) (_items m) /\
      bucket (py_hash key) (_items (snd (popLast m key default_)))
        = removelast (bucket (py_hash key) (_items m))
  end.
Proof.
  intros Hc. unfold popLast. rewrite getAllOrNull_consistent by done.
  destruct (last (bucket _ _)) as [e|] eqn:Hlast.
  - apply last_Some in Hlast as [b Hb]. rewrite Hb.
    assert (He : e ∈ bucket (py_hash key) (_items m))
      by (rewrite Hb; apply elem_of_app; right; left).
    apply elem_of_bucket in He as [Hh He].
    assert (Hb' : bucket (py_hash key)
                    (filter (fun x : nat * Item => fst x <> fst e) (_items m)) = b).
    { rewrite bucket_remove, Hb. apply filter_ne_snoc. rewrite <- Hb.
      apply nodup_fst_filter, (slots_nodup _ Hc). }
    pose proof (consistent_remove m e key Hc He (eq_sym Hh)) as Hrem.
    simpl in Hrem. rewrite Hb' in Hrem.
    rewrite removelast_last.
    destruct (b ++ [e]) as [|e0 b0] eqn:Hbe; [by destruct b|].
    rewrite <- Hbe. rewrite fmap_last, last_snoc, fmap_app. simpl.
    rewrite removelast_last.
    destruct e as [i [k0 v0]]. simpl in *.
    rewrite od_del_filter;
      [|apply (slots_nodup _ Hc)|by apply (list_elem_of_fmap_2 fst) in He].
    simpl. done.
  - apply last_None in Hlast. rewrite Hlast. by destruct default_.
Qed.

(** [popFirstItem] and [popLastItem] on a consistent state. *)
Lemma popFirstItem_consistent m default_ :
  consistent m ->
  match _items m with
  | [] =>
      popFirstItem m default_ =
        (match default_ with Some d => Return (inr d) | None => Raise KeyError_empty end, m)
  | e :: l' =>
      fst (popFirstItem m default_) = Return (inl (snd e)) /\
      consistent (snd (popFirstItem m default_)) /\
      _items (snd (popFirstItem m default_)) = l'
  end.
Proof.
  intros Hc. unfold popFirstItem.
  destruct (_items m) as [|e l'] eqn:Hl; simpl; [by destruct default_|].
  destruct e as [i item]. simpl.
  change (getAllOrNull (mkOMD l' (_map m) (_index m)) (fst item))
    with (getAllOrNull m (fst item)).
  rewrite getAllOrNull_consistent by done. rewrite Hl, bucket_cons. simpl.
  rewrite decide_True by done. simpl.
  assert (He : (i, item) ∈ _items m) by (rewrite Hl; left).
  pose proof (consistent_remove m (i, item) (fst item) Hc He eq_refl) as Hrem.
  cbv zeta in Hrem. rewrite Hl in Hrem.
  rewrite (filter_ne_cons (i, item) l') in Hrem
    by (rewrite <- Hl; apply (slots_nodup _ Hc)).
  done.
Qed.

Lemma popLastItem_consistent m default_ :
  consistent m ->
  match last (_items m) with
  | None =>
      popLastItem m default_ =
        (match default_ with Some d => Return (inr d) | None => Raise KeyError_empty end, m)
  | Some e =>
      fst (popLastItem m default_) = Return (inl (snd e)) /\
      consistent (snd (popLastItem m default_)) /\
      _items (snd (popLastItem m default_)) = removelast (_items m)
  end.
Proof.
  intros Hc. unfold popLastItem, OrderedDict.popitem.
  destruct (last (_items m)) as [e|] eqn:Hlast; [|by destruct default_].
  apply last_Some in Hlast as [l' Hl].
  destruct e as [i item].
  assert (Hg : getAllOrNull m (fst item)
               = Return (Ptr ((slot_value <$> bucket (py_hash (fst item)) l')
                                ++ [(i, snd item)]))).
  { rewrite getAllOrNull_present; [|done|].
    - rewrite Hl, bucket_app, bucket_cons, decide_True by done.
      by rewrite fmap_app.
    - rewrite Hl, bucket_app, bucket_cons, decide_True by done.
      by destruct (bucket (py_hash (fst item)) l'). }
  assert (He : (i, item) ∈ _items m) by (rewrite Hl; apply elem_of_app; right; left).
  pose proof (consistent_remove m (i, item) (fst item) Hc He eq_refl) as Hrem.
  cbv zeta in Hrem. rewrite Hl in Hrem.
  rewrite (filter_ne_snoc (i, item) l') in Hrem
    by (rewrite <- Hl; apply (slots_nodup _ Hc)).
  assert (Hrl : removelast (_items m) = l') by (rewrite Hl; apply removelast_last).
  rewrite Hrl. simpl.
  change (getAllOrNull (mkOMD l' (_map m) (_index m)) (fst item))
    with (getAllOrNull m (fst item)).
  rewrite Hg. simpl. rewrite removelast_last. done.
Qed.

(** *** The invariant along a sequence of calls *)

Lemma sort_map {K : Type} m (key : Item -> K) (lt : K -> K -> bool) reverse_ :
  _map (sort m key lt reverse_) = _map m /\
  _index (sort m key lt reverse_) = _index m.
Proof. done. Qed.

Lemma delitem_popLast m key :
  snd (__delitem__ m key) = snd (popLast m key None) /\
  raised (fst (__delitem__ m key)) = raised (fst (popLast m key None)).
Proof. unfold __delitem__, pop. by destruct (popLast m key None) as [[?|?] ?]. Qed.

Lemma popLast_state_consistent m key default_ :
  consistent m -> consistent (snd (popLast m key default_)).
Proof.
  intros Hc. pose proof (popLast_consistent m key default_ Hc) as Hp.
  destruct (last _); [by destruct Hp as (_ & ? & _)|by rewrite Hp].
Qed.

Lemma perform_consistent m c :
  replaces_ledger c = false -> consistent m -> consistent (perform m c).
Proof.
  intros Hs Hc. destruct c; simpl in *; try discriminate.
  - by apply add_consistent.
  - by apply addAll_consistent.
  - by apply extend_consistent.
  - by apply setAll_consistent.
  - by apply setdefault_consistent.
  - by apply setdefaultAll_consistent.
  - pose proof (popFirst_consistent m key default_ Hc) as Hp.
    destruct (bucket _ _); [by rewrite Hp|]. by destruct Hp as (_ & ? & _).
  - pose proof (popLast_consistent m key default_ Hc) as Hp.
    destruct (last _); [by destruct Hp as (_ & ? & _)|by rewrite Hp].
  - by apply popAll_state_consistent.
  - pose proof (popFirstItem_consistent m default_ Hc) as Hp.
    destruct (_items m); [by rewrite Hp|]. by destruct Hp as (_ & ? & _).
  - pose proof (popLastItem_consistent m default_ Hc) as Hp.
    destruct (last _); [by destruct Hp as (_ & ? & _)|by rewrite Hp].
  - by apply deleteAll_consistent.
  - apply consistent_empty.
  - apply load_consistent.
  - by apply popLast_state_consistent.
  - by apply setAll_consistent.
  - rewrite (proj1 (delitem_popLast m key)). by apply popLast_state_consistent.
Qed.

Lemma foldl_perform_consistent cs m :
  Forall (fun c => replaces_ledger c = false) cs -> consistent m ->
  consistent (foldl perform m cs).
Proof.
  revert m. induction cs as [|c cs IH]; intros m Hcs Hc; simpl; [done|].
  apply Forall_cons in Hcs as [Hs Hcs]. apply IH; [done|].
  by apply perform_consistent.
Qed.

Lemma run_consistent cs :
  Forall (fun c => replaces_ledger c = false) cs -> consistent (run cs).
Proof. intros Hcs. by apply foldl_perform_consistent, consistent_empty. Qed.

(** The representation invariant gives the invariant of the
    specification. *)
Lemma consistent_dual_index m : consistent m -> dual_index m.
Proof.
  intros Hc. split.
  - intros h k0 values i v Hlk Hin.
    rewrite (index_exact _ Hc) in Hlk.
    destruct (bucket h (_items m)) as [|e b] eqn:Hb; [discriminate|].
    simpl in Hlk. injection Hlk as <- <-. rewrite <- fmap_cons, <- Hb in Hin.
    apply list_elem_of_fmap in Hin as (x & Hx & Hxb).
    assert (He : e ∈ bucket h (_items m)) by (rewrite Hb; left).
    apply elem_of_bucket in He as [Hhe He].
    apply elem_of_bucket in Hxb as [Hhx Hxl].
    assert (Hk : fst (snd x) = fst (snd e)).
    { apply (keys_canonical _ Hc); [done|done|]. etrans; [exact Hhx|by symmetry]. }
    apply od_get_of_elem; [apply (slots_nodup _ Hc)|].
    destruct x as [j [kx vx]]. unfold slot_value in Hx. simpl in *.
    injection Hx as -> ->. by rewrite <- Hk.
  - intros i k v Hin. rewrite find_consistent by done.
    assert (Hb : (i, (k, v)) ∈ bucket (py_hash k) (_items m))
      by (by apply elem_of_bucket).
    destruct (bucket (py_hash k) (_items m)) as [|e b] eqn:Heq;
      [by apply elem_of_nil in Hb|].
    assert (He : e ∈ bucket (py_hash k) (_items m)) by (rewrite Heq; left).
    apply elem_of_bucket in He as [Hhe He]. simpl.
    exists (slot_value <$> e :: b). split.
    + do 2 f_equal. by apply (keys_canonical _ Hc e (i, (k, v))).
    + by apply (list_elem_of_fmap_2 slot_value) in Hb.
Qed.

(** Every state reached from a new map without [sort] and
    [__setstate__] satisfies the dual-index invariant. *)
Lemma dual_index_without_sort cs :
  Forall (fun c => replaces_ledger c = false) cs -> dual_index (run cs).
Proof. intros Hcs. by apply consistent_dual_index, run_consistent. Qed.

(** *** Slot ids stay below the counter, whatever the calls *)

Lemma slots_below_index_shrink (l l' : list (nat * Item)) mp mp' idx idx' :
  slots_below_index (mkOMD l mp idx) -> l' `sublist_of` l -> idx <= idx' ->
  slots_below_index (mkOMD l' mp' idx').
Proof.
  intros [Hnd Hfr] Hsub Hle. simpl in *. split; simpl.
  - eapply sublist_NoDup; [exact Hnd|]. by apply fmap_sublist.
  - intros e He. eapply elem_of_sublist in He; [|exact Hsub].
    apply Hfr in He. lia.
Qed.

Lemma slots_below_index_set (l : list (nat * Item)) mp mp' idx x :
  slots_below_index (mkOMD l mp idx) ->
  slots_below_index (mkOMD (OrderedDict.set l idx x) mp' (S idx)).
Proof.
  intros [Hnd Hfr]. simpl in *.
  assert (Hfresh : idx ∉ fst <$> l).
  { intros Hi. apply list_elem_of_fmap in Hi as (e & -> & He).
    apply Hfr in He. lia. }
  rewrite od_set_fresh by done. split; simpl.
  - rewrite fmap_app. apply NoDup_app. split; [done|]. split.
    + intros i Hi Hi'. apply list_elem_of_singleton in Hi'. simpl in Hi'. by subst i.
    + apply NoDup_singleton.
  - intros e He. apply elem_of_app in He as [He|He].
    + apply Hfr in He. lia.
    + apply list_elem_of_singleton in He. subst e. simpl. lia.
Qed.

Lemma slots_below_index_map m mp :
  slots_below_index m -> slots_below_index (mkOMD (_items m) mp (_index m)).
Proof. by destruct m. Qed.

Lemma od_del_sublist (d d' : list (nat * Item)) i :
  OrderedDict.del d i = Some d' -> d' `sublist_of` d.
Proof.
  revert d'. induction d as [|[j y] d IH]; intros d'; simpl; [discriminate|].
  destruct (Nat.eqb j i).
  - intros [= <-]. by apply sublist_cons.
  - destruct (OrderedDict.del d i) as [d''|]; [|discriminate].
    intros [= <-]. by apply sublist_skip, IH.
Qed.

Lemma del_slots_sublist (l : list (nat * Item)) (vs : list (nat * ObjectPtr)) :
  snd (del_slots l vs) `sublist_of` l.
Proof.
  revert l. induction vs as [|[i v] vs IH]; intros l; simpl; [done|].
  destruct (OrderedDict.del l i) as [l'|] eqn:Hd; [|done].
  etrans; [apply IH|]. by eapply od_del_sublist.
Qed.

Lemma removelast_sublist {A : Type} (l : list A) : removelast l `sublist_of` l.
Proof.
  induction l as [|a [|b l] IH]; [done|by apply sublist_cons|].
  by apply sublist_skip.
Qed.

Lemma add_slots_below_index m key value :
  slots_below_index m -> slots_below_index (snd (add m key value)).
Proof.
  intros Hs. destruct m as [l mp idx]. unfold add. simpl.
  destruct (default (key, []) (find (mkOMD l mp idx) key)) as [k0 [|[ki vi] vs]];
    simpl.
  - eapply slots_below_index_set, Hs.
  - destruct (OrderedDict.get l ki) as [[k' v']|]; simpl.
    + eapply slots_below_index_set, Hs.
    + eapply slots_below_index_shrink; [exact Hs|done|lia].
Qed.

Lemma addAll_slots_below_index m key valuelist :
  slots_below_index m -> slots_below_index (snd (addAll m key valuelist)).
Proof.
  revert m. induction valuelist as [|v vs IH]; intros m Hs; simpl; [done|].
  pose proof (add_slots_below_index m key v Hs) as Hs'.
  destruct (add m key v) as [[[]|e] m']; simpl in *; [by apply IH|done].
Qed.

Lemma extend_slots_below_index m keyValuelist :
  slots_below_index m -> slots_below_index (snd (extend m keyValuelist)).
Proof.
  revert m. induction keyValuelist as [|[k v] kvs IH]; intros m Hs; simpl; [done|].
  pose proof (add_slots_below_index m k v Hs) as Hs'.
  destruct (add m k v) as [[[]|e] m']; simpl in *; [by apply IH|done].
Qed.

Lemma tryDeleteAll_slots_below_index m key :
  slots_below_index m -> slots_below_index (snd (_tryDeleteAll m key)).
Proof.
  intros Hs. unfold _tryDeleteAll.
  destruct (getAllOrNull m key) as [[|vs]|e]; simpl; try done.
  pose proof (del_slots_sublist (_items m) vs) as Hsub.
  destruct (del_slots (_items m) vs) as [[[]|e] l']; simpl in *;
    destruct m; by eapply slots_below_index_shrink.
Qed.

Lemma popitem_sublist (l l' : list (nat * Item)) last_ x :
  OrderedDict.popitem l last_ = Some (x, l') -> l' `sublist_of` l.
Proof.
  unfold OrderedDict.popitem. destruct last_.
  - destruct (last l); [|discriminate]. intros [= _ <-]. apply removelast_sublist.
  - destruct l; [discriminate|]. intros [= _ <-]. by apply sublist_cons.
Qed.

Lemma setAll_slots_below_index m key (valueList : list ObjectPtr) :
  slots_below_index m -> slots_below_index (snd (setAll m key valueList)).
Proof.
  intros Hs. unfold setAll.
  pose proof (tryDeleteAll_slots_below_index m key Hs) as Hs'.
  destruct (_tryDeleteAll m key) as [[b|e] m']; simpl in *; [|done].
  by apply addAll_slots_below_index.
Qed.

Lemma popLast_slots_below_index m key default_ :
  slots_below_index m -> slots_below_index (snd (popLast m key default_)).
Proof.
  intros Hs. unfold popLast.
  destruct (getAllOrNull m key) as [[|vs]|e]; simpl;
    try done; try (by destruct default_).
  destruct (last vs) as [[i v]|]; simpl; [|done].
  destruct (OrderedDict.del (_items m) i) as [l'|] eqn:Hd; simpl.
  + destruct m. eapply slots_below_index_shrink; [exact Hs| |done].
    by eapply od_del_sublist.
  + by apply slots_below_index_map.
Qed.

(** Every public mutation, [sort] and [__setstate__] included. *)
Lemma perform_slots_below_index m c :
  slots_below_index m -> slots_below_index (perform m c).
Proof.
  intros Hs. destruct c; simpl.
  - by apply add_slots_below_index.
  - by apply addAll_slots_below_index.
  - by apply extend_slots_below_index.
  - by apply setAll_slots_below_index.
  - unfold setdefault.
    destruct (getAllOrNull m key) as [[|[|[i v] vs]]|e]; simpl; try done.
    pose proof (add_slots_below_index m key default_ Hs) as Hs'.
    by destruct (add m key default_) as [[[]|e] m'].
  - unfold setdefaultAll.
    destruct (getAllOrNull m key) as [[|vs]|e]; simpl; try done.
    pose proof (addAll_slots_below_index m key defaultlist Hs) as Hs'.
    by destruct (addAll m key defaultlist) as [[[]|e] m'].
  - unfold popFirst.
    destruct (getAllOrNull m key) as [[|[|[i v] vs]]|e]; simpl;
      try done; try (by destruct default_).
    destruct (OrderedDict.del (_items m) i) as [l'|] eqn:Hd; simpl.
    + destruct m. eapply slots_below_index_shrink; [exact Hs| |done].
      by eapply od_del_sublist.
    + by apply slots_below_index_map.
  - by apply popLast_slots_below_index.
  - unfold popAll_call, popAll.
    destruct (getAllOrNull m key) as [[|vs]|e]; simpl; try done.
    + by destruct default_ as [|[|d]].
    + pose proof (del_slots_sublist (_items m) vs) as Hsub.
      destruct (del_slots (_items m) vs) as [[[]|e] l']; simpl in *;
        destruct m; by eapply slots_below_index_shrink.
  - unfold popFirstItem.
    destruct (OrderedDict.popitem (_items m) false) as [[[i item] l']|] eqn:Hp;
      [|by destruct default_].
    apply popitem_sublist in Hp.
    destruct (getAllOrNull _ _) as [[|vs]|e]; simpl;
      destruct m; by eapply slots_below_index_shrink.
  - unfold popLastItem.
    destruct (OrderedDict.popitem (_items m) true) as [[[i item] l']|] eqn:Hp;
      [|by destruct default_].
    apply popitem_sublist in Hp.
    destruct (getAllOrNull _ _) as [[|vs]|e]; simpl;
      destruct m; by eapply slots_below_index_shrink.
  - unfold deleteAll.
    pose proof (tryDeleteAll_slots_below_index m key Hs) as Hs'.
    by destruct (_tryDeleteAll m key) as [[[|]|e] m'].
  - split; simpl; [constructor|]. intros e He. by apply elem_of_nil in He.
  - apply extend_slots_below_index. split; simpl; [constructor|].
    intros e He. by apply elem_of_nil in He.
  - destruct Hs as [Hnd Hfr]. unfold sort, OrderedDict.of_enumerate.
    assert (Hlen : length (_items m) <= _index m).
    { rewrite <- (length_fmap fst), <- (length_seq (_index m) 0).
      apply submseteq_length, NoDup_submseteq; [done|].
      intros i Hi. apply list_elem_of_fmap in Hi as (e & -> & He).
      apply elem_of_seq. apply Hfr in He. lia. }
    assert (Hfst : fst <$> zip (seq 0 (length (sorted key lt reverse_
                                        (OrderedDict.values (_items m)))))
                     (sorted key lt reverse_ (OrderedDict.values (_items m)))
                   = seq 0 (length (_items m))).
    { rewrite fst_zip by (by rewrite length_seq).
      unfold OrderedDict.values. by rewrite sorted_length, length_fmap. }
    split; simpl.
    + rewrite Hfst. apply NoDup_seq.
    + intros e He. apply (list_elem_of_fmap_2 fst) in He. rewrite Hfst in He.
      apply elem_of_seq in He. lia.
  - by apply popLast_slots_below_index.
  - by apply setAll_slots_below_index.
  - rewrite (proj1 (delitem_popLast m key)). by apply popLast_slots_below_index.
  - unfold __setstate__. apply extend_slots_below_index. split; simpl; [constructor|].
    intros e He. by apply elem_of_nil in He.
Qed.

Lemma run_slots_below_index cs : slots_below_index (run cs).
Proof.
  unfold run.
  assert (Hgen : forall m, slots_below_index m -> slots_below_index (foldl perform m cs)).
  { induction cs as [|c cs IH]; intros m Hs; simpl; [done|].
    by apply IH, perform_slots_below_index. }
  apply Hgen. split; simpl; [constructor|].
  intros e He. by apply elem_of_nil in He.
Qed.

End MethodFacts.

(** * The claims of the specification *)

Section Claims.

Context `{PyObjectProtocol}.

Implicit Types (m : OrderedMultiDictBase) (key k v : ObjectPtr).

Lemma od_get_set_eq (d : list (nat * Item)) i x :
  OrderedDict.get (OrderedDict.set d i x) i = Some x.
Proof.
  induction d as [|[j y] d IH]; simpl.
  - by rewrite Nat.eqb_refl.
  - destruct (Nat.eqb_spec j i) as [->|Hne]; simpl.
    + by rewrite Nat.eqb_refl.
    + by rewrite (proj2 (Nat.eqb_neq j i) Hne).
Qed.

Lemma od_get_snoc (d : list (nat * Item)) i x :
  i ∉ fst <$> d -> OrderedDict.get (d ++ [(i, x)]) i = Some x.
Proof. intros Hi. rewrite <- od_set_fresh by done. apply od_get_set_eq. Qed.

(** C8.  For a key that is not in the map, [setdefaultAll(key, [])]
    returns the empty list and leaves the state as it was: the ledger,
    the key index and the slot counter are unchanged, the key is still
    absent, and a later [add] behaves as it would have without the
    call. *)
Theorem setdefaultAll_empty_list_absent m key :
  contains m key = false ->
  setdefaultAll m key [] = (Return [], m) /\
  _items (snd (setdefaultAll m key [])) = _items m /\
  _map (snd (setdefaultAll m key [])) = _map m /\
  _index (snd (setdefaultAll m key [])) = _index m /\
  contains (snd (setdefaultAll m key [])) key = false /\
  (forall k' v', add (snd (setdefaultAll m key [])) k' v' = add m k' v').
Proof.
  intros Habs.
  assert (Heq : setdefaultAll m key [] = (Return [], m)).
  { unfold contains in Habs. unfold setdefaultAll, getAllOrNull.
    destruct (find m key); [discriminate|done]. }
  rewrite Heq. simpl. done.
Qed.

(** *** The key index and the functors of the container *)

Lemma PyObjectPtrHashEqual_hash k1 k2 :
  PyObjectPtrHashEqual k1 k2 = true <-> py_hash k1 = py_hash k2.
Proof. unfold PyObjectPtrHashEqual, PyObjectPtrHash. apply Z.eqb_eq. Qed.

(** A list of nodes, each filed under the hash of its key, and the
    finite map from hashes it stands for: [unordered_map::find] with
    the two functors is the lookup of the hash. *)
Lemma um_find_list_to_map (bucket_of : Z -> Z)
    (l : list (Z * (ObjectPtr * list (nat * ObjectPtr)))) key :
  (forall h node, (h, node) ∈ l -> py_hash (fst node) = h) ->
  um_find bucket_of (snd <$> l) key
    = (list_to_map l : gmap Z (ObjectPtr * list (nat * ObjectPtr))) !! py_hash key.
Proof.
  induction l as [|[h node] l IH]; intros Hk; [done|].
  assert (Hh : py_hash (fst node) = h) by (apply Hk; left).
  assert (IH' : um_find bucket_of (snd <$> l) key
                = (list_to_map l : gmap Z _) !! py_hash key)
    by (apply IH; intros h' node' Hin; apply Hk; by right).
  unfold um_find in *. cbn [fmap list_fmap List.find snd list_to_map foldr].
  unfold PyObjectPtrHashEqual, PyObjectPtrHash. rewrite Hh.
  destruct (decide (h = py_hash key)) as [->|Hne].
  - rewrite !Z.eqb_refl. simpl. by rewrite lookup_insert_eq.
  - assert (Heq : Z.eqb (py_hash key) h = false) by (apply Z.eqb_neq; congruence).
    rewrite Heq, andb_false_r. rewrite lookup_insert_ne by done. exact IH'.
Qed.

Lemma find_um_find (bucket_of : Z -> Z) m key :
  consistent m -> find m key = um_find bucket_of (map_nodes m) key.
Proof.
  intros Hc. unfold find, map_nodes.
  rewrite um_find_list_to_map; [by rewrite list_to_map_to_list|].
  intros h node Hin. apply elem_of_map_to_list in Hin.
  rewrite (index_exact _ Hc) in Hin.
  destruct (bucket h (_items m)) as [|e b] eqn:Hb; [discriminate|].
  injection Hin as <-. simpl.
  assert (He : e ∈ bucket h (_items m)) by (rewrite Hb; left).
  by apply elem_of_bucket in He as [? _].
Qed.

Lemma contains_after_add m k1 k2 v :
  contains (snd (add m k1 v)) k2 = PyObjectPtrHashEqual k1 k2 || contains m k2.
Proof.
  unfold PyObjectPtrHashEqual, PyObjectPtrHash, add, contains, find.
  destruct (decide (py_hash k1 = py_hash k2)) as [Heq|Hne].
  - rewrite <- Heq, Z.eqb_refl. simpl.
    destruct (_map m !! py_hash k1) as [[k0 [|[ki vi] vs]]|] eqn:Hlk; simpl.
    + by rewrite lookup_insert_eq.
    + destruct (OrderedDict.get (_items m) ki) as [[k' v']|]; simpl.
      * by rewrite lookup_insert_eq.
      * by rewrite Hlk.
    + by rewrite lookup_insert_eq.
  - assert (Hb : Z.eqb (py_hash k1) (py_hash k2) = false) by (by apply Z.eqb_neq).
    rewrite Hb. simpl.
    destruct (_map m !! py_hash k1) as [[k0 [|[ki vi] vs]]|] eqn:Hlk; simpl.
    + by rewrite lookup_insert_ne.
    + destruct (OrderedDict.get (_items m) ki) as [[k' v']|]; simpl; [|done].
      by rewrite lookup_insert_ne.
    + by rewrite lookup_insert_ne.
Qed.

(** C9.  The key index identifies a key by its hash and by nothing
    else.  The equality functor of the container answers whether two
    hashes are equal, and on a map that satisfies the invariant the
    lookup of the model is [unordered_map::find] with the two functors
    over the nodes of the index, whatever the bucket rule of the
    container.  After [add(k1, v)] on a new map a key [k2] finds the
    node of [k1] exactly when it hashes like [k1]: then [k2 in map] is
    true and [get(k2)] returns [v], also when [k1 == k2] is false;
    otherwise [k2 in map] is false and [get(k2)] returns the default,
    also when [k1 == k2] is true.  On any state [k2 in map] after
    [add(k1, v)] is true exactly when [k2] hashes like [k1] or was in
    the map before. *)
Theorem hash_equal_keys_share_a_node :
  (forall k1 k2, PyObjectPtrHashEqual k1 k2 = true <-> py_hash k1 = py_hash k2) /\
  (forall (bucket_of : Z -> Z) m key,
      consistent m -> find m key = um_find bucket_of (map_nodes m) key) /\
  (forall (bucket_of : Z -> Z) k1 k2 v default_,
      fst (add empty k1 v) = Return tt /\
      um_find bucket_of (map_nodes (snd (add empty k1 v))) k2
        = (if PyObjectPtrHashEqual k1 k2 then Some (k1, [(0, v)]) else None) /\
      contains (snd (add empty k1 v)) k2 = PyObjectPtrHashEqual k1 k2 /\
      get (snd (add empty k1 v)) k2 default_
        = Return (if PyObjectPtrHashEqual k1 k2 then v else default_)) /\
  (forall k1 k2 v default_,
      py_hash k1 = py_hash k2 -> py_eq k1 k2 = false ->
      fst (add empty k1 v) = Return tt /\
      contains (snd (add empty k1 v)) k2 = true /\
      get (snd (add empty k1 v)) k2 default_ = Return v) /\
  (forall k1 k2 v default_,
      py_hash k1 <> py_hash k2 -> py_eq k1 k2 = true ->
      contains (snd (add empty k1 v)) k2 = false /\
      get (snd (add empty k1 v)) k2 default_ = Return default_) /\
  (forall m k1 k2 v,
      contains (snd (add m k1 v)) k2 = PyObjectPtrHashEqual k1 k2 || contains m k2).
Proof.
  assert (Hadd : forall k1 k2 v default_,
             fst (add empty k1 v) = Return tt /\
             find (snd (add empty k1 v)) k2
               = (if PyObjectPtrHashEqual k1 k2 then Some (k1, [(0, v)]) else None) /\
             contains (snd (add empty k1 v)) k2 = PyObjectPtrHashEqual k1 k2 /\
             get (snd (add empty k1 v)) k2 default_
               = Return (if PyObjectPtrHashEqual k1 k2 then v else default_)).
  { intros k1 k2 v default_.
    unfold PyObjectPtrHashEqual, PyObjectPtrHash, add, contains, get, getAllOrNull, find.
    simpl. rewrite lookup_empty. simpl.
    destruct (decide (py_hash k1 = py_hash k2)) as [Heq|Hne].
    - rewrite <- Heq, Z.eqb_refl, lookup_insert_eq. done.
    - assert (Hb : Z.eqb (py_hash k1) (py_hash k2) = false) by (by apply Z.eqb_neq).
      rewrite Hb, lookup_insert_ne, lookup_empty by done. done. }
  assert (Hc1 : forall k1 v, consistent (snd (add empty k1 v)))
    by (intros k1 v; apply add_consistent, consistent_empty).
  split; [apply PyObjectPtrHashEqual_hash|].
  split; [intros bucket_of m key; apply find_um_find|].
  split.
  { intros bucket_of k1 k2 v default_.
    destruct (Hadd k1 k2 v default_) as (Hr & Hf & Hin & Hget).
    rewrite <- (find_um_find bucket_of) by apply Hc1. done. }
  split.
  { intros k1 k2 v default_ Hh _.
    destruct (Hadd k1 k2 v default_) as (Hr & _ & Hin & Hget).
    apply PyObjectPtrHashEqual_hash in Hh. by rewrite Hh in Hin, Hget. }
  split.
  { intros k1 k2 v default_ Hh _.
    destruct (Hadd k1 k2 v default_) as (Hr & _ & Hin & Hget).
    assert (Hb : PyObjectPtrHashEqual k1 k2 = false).
    { destruct (PyObjectPtrHashEqual k1 k2) eqn:Hb; [|done].
      by apply PyObjectPtrHashEqual_hash in Hb. }
    by rewrite Hb in Hin, Hget. }
  apply contains_after_add.
Qed.

(** C4.  Key-identity stability.  [k1] and [k2] compare equal, are two
    objects and, as [__hash__] requires of equal objects, hash alike;
    [k1] is not in the map.  After [add(k1, v1); add(k2, v2)] both new
    entries carry the object [k1]: iteration over [items()] and
    [keys()] shows [k1] twice, and the second [add] has recorded only
    its value and its slot id in the node of [k1]. *)
Theorem add_keeps_first_key_object m k1 k2 v1 v2 :
  py_eq k1 k2 = true -> k1 <> k2 -> hash_respects_eq k1 k2 ->
  (forall e : nat * Item, e ∈ _items m -> fst e < _index m) ->
  contains m k1 = false ->
  let m1 := snd (add m k1 v1) in
  let m2 := snd (add m1 k2 v2) in
  fst (add m k1 v1) = Return tt /\
  fst (add m1 k2 v2) = Return tt /\
  items m2 = items m ++ [(k1, v1); (k1, v2)] /\
  keys m2 = keys m ++ [k1; k1] /\
  (k2 ∉ drop (length (keys m)) (keys m2)) /\
  find m1 k1 = Some (k1, [(_index m, v1)]) /\
  find m2 k2 = Some (k1, [(_index m, v1); (S (_index m), v2)]).
Proof.
  intros Heq Hne Hhash Hfresh Habs m1 m2.
  specialize (Hhash Heq).
  destruct m as [l mp idx]. simpl in *.
  assert (Hf1 : idx ∉ fst <$> l).
  { intros Hi. apply list_elem_of_fmap in Hi as (e & -> & He).
    apply Hfresh in He. lia. }
  assert (Hm1 : add (mkOMD l mp idx) k1 v1
                = (Return tt,
                   mkOMD (l ++ [(idx, (k1, v1))])
                         (<[py_hash k1 := (k1, [(idx, v1)])]> mp) (S idx))).
  { unfold contains, find in Habs. simpl in Habs.
    unfold add, find. simpl.
    destruct (mp !! py_hash k1); [discriminate|]. simpl.
    by rewrite od_set_fresh. }
  assert (Hf2 : S idx ∉ fst <$> (l ++ [(idx, (k1, v1))])).
  { rewrite fmap_app. intros Hi. apply elem_of_app in Hi as [Hi|Hi].
    - apply list_elem_of_fmap in Hi as (e & Hi & He).
      apply Hfresh in He. lia.
    - apply list_elem_of_singleton in Hi. simpl in Hi. lia. }
  assert (Hm2 : add (mkOMD (l ++ [(idx, (k1, v1))])
                       (<[py_hash k1 := (k1, [(idx, v1)])]> mp) (S idx)) k2 v2
                = (Return tt,
                   mkOMD ((l ++ [(idx, (k1, v1))]) ++ [(S idx, (k1, v2))])
                         (<[py_hash k1 := (k1, [(idx, v1); (S idx, v2)])]>
                            (<[py_hash k1 := (k1, [(idx, v1)])]> mp))
                         (S (S idx)))).
  { unfold add, find. simpl. rewrite <- Hhash, lookup_insert_eq. simpl.
    rewrite od_get_snoc by done. by rewrite od_set_fresh. }
  subst m1 m2. rewrite Hm1. simpl. rewrite Hm2. simpl.
  unfold keys, items, OrderedDict.values, find. simpl.
  rewrite !fmap_app, <- !app_assoc. simpl.
  rewrite <- Hhash, !lookup_insert_eq.
  repeat split; try done.
  rewrite length_fmap, length_fmap.
  rewrite drop_app_length'; [|by rewrite !length_fmap].
  intros Hin. apply elem_of_cons in Hin as [Hin|Hin]; [congruence|].
  apply list_elem_of_singleton in Hin. congruence.
Qed.

(** *** The generator of [uniqueKeys] *)

Lemma same_key_refl k : same_key k k = true.
Proof.
  unfold same_key, rich_eq. by rewrite Z.eqb_refl, Nat.eqb_refl.
Qed.

Lemma set_contains_cons (seen : list ObjectPtr) a k :
  set_contains (a :: seen) k = same_key a k || set_contains seen k.
Proof. done. Qed.

Lemma set_contains_true (seen : list ObjectPtr) k :
  set_contains seen k = true <-> exists e, e ∈ seen /\ same_key e k = true.
Proof.
  induction seen as [|a seen IH].
  - split; [discriminate|]. intros (e & He & _). by apply elem_of_nil in He.
  - rewrite set_contains_cons, orb_true_iff, IH. split.
    + intros [Ha|(e & He & Hs)]; [exists a|exists e]; split; try done;
        [left|by right].
    + intros (e & He & Hs). apply elem_of_cons in He as [->|He]; [by left|].
      right. by exists e.
Qed.

Lemma unique_gen_sublist (seen ks : list ObjectPtr) :
  unique_gen seen ks `sublist_of` ks.
Proof.
  revert seen. induction ks as [|a ks IH]; intros seen; simpl; [done|].
  destruct (set_contains seen a).
  - apply sublist_cons, IH.
  - apply sublist_skip, IH.
Qed.

Lemma unique_gen_not_seen (seen ks : list ObjectPtr) y :
  y ∈ unique_gen seen ks -> set_contains seen y = false.
Proof.
  revert seen. induction ks as [|a ks IH]; intros seen; simpl.
  - intros Hy. by apply elem_of_nil in Hy.
  - destruct (set_contains seen a) eqn:Ha; [apply IH|].
    intros Hy. apply elem_of_cons in Hy as [->|Hy]; [done|].
    apply IH in Hy. rewrite set_contains_cons in Hy.
    by apply orb_false_iff in Hy as [_ ?].
Qed.

Lemma unique_gen_covers (seen ks : list ObjectPtr) k :
  k ∈ ks ->
  set_contains seen k = true \/
  exists e, e ∈ unique_gen seen ks /\ same_key e k = true.
Proof.
  revert seen. induction ks as [|a ks IH]; intros seen Hk; simpl.
  - by apply elem_of_nil in Hk.
  - apply elem_of_cons in Hk as [->|Hk].
    + destruct (set_contains seen a) eqn:Ha; [by left|].
      right. exists a. split; [left|apply same_key_refl].
    + destruct (set_contains seen a) eqn:Ha; [by apply IH|].
      destruct (IH (a :: seen) Hk) as [Hs|(e & He & Hs)].
      * rewrite set_contains_cons in Hs. apply orb_true_iff in Hs as [Hs|Hs].
        -- right. exists a. split; [left|done].
        -- by left.
      * right. exists e. split; [by right|done].
Qed.

Lemma unique_gen_pairwise (seen ks : list ObjectPtr) i j x y :
  unique_gen seen ks !! i = Some x -> unique_gen seen ks !! j = Some y ->
  i < j -> same_key x y = false.
Proof.
  revert seen i j. induction ks as [|a ks IH]; intros seen i j; simpl.
  - intros Hx. by rewrite lookup_nil in Hx.
  - destruct (set_contains seen a) eqn:Ha; [apply IH|].
    intros Hx Hy Hij. destruct j as [|j]; [lia|]. simpl in Hy.
    destruct i as [|i]; simpl in Hx.
    + injection Hx as <-.
      assert (Hin : y ∈ unique_gen (a :: seen) ks)
        by (apply list_elem_of_lookup; by exists j).
      apply unique_gen_not_seen in Hin. rewrite set_contains_cons in Hin.
      by apply orb_false_iff in Hin as [? _].
    + apply (IH (a :: seen) i j); [done|done|lia].
Qed.

Lemma unique_gen_first (seen l1 l2 : list ObjectPtr) k :
  set_contains seen k = false ->
  (forall e, e ∈ l1 -> same_key e k = false) ->
  k ∈ unique_gen seen (l1 ++ k :: l2).
Proof.
  revert seen. induction l1 as [|a l1 IH]; intros seen Hs Hl1; simpl.
  - rewrite Hs. left.
  - assert (Hl1' : forall e, e ∈ l1 -> same_key e k = false)
      by (intros e He; apply Hl1; by right).
    destruct (set_contains seen a) eqn:Ha; [by apply IH|].
    right. apply IH; [|done].
    rewrite set_contains_cons, Hs, (Hl1 a) by left. done.
Qed.

Lemma unique_gen_each_key_once (ks : list ObjectPtr) :
  each_key_once ks (unique_gen [] ks).
Proof.
  split; [apply unique_gen_sublist|]. split; [|split].
  - intros k Hk. by destruct (unique_gen_covers [] ks k Hk) as [?|?].
  - apply unique_gen_pairwise.
  - intros l1 k l2 -> Hl1. by apply unique_gen_first.
Qed.

Lemma set_contains_false (seen : list ObjectPtr) k :
  set_contains seen k = false <-> forall e, e ∈ seen -> same_key e k = false.
Proof.
  split.
  - intros Hs e He. destruct (same_key e k) eqn:Hek; [|done].
    assert (Ht : set_contains seen k = true) by (apply set_contains_true; eauto).
    congruence.
  - intros Hall. destruct (set_contains seen k) eqn:Hs; [|done].
    apply set_contains_true in Hs as (e & He & Hek). by rewrite (Hall e He) in Hek.
Qed.

(** The generator reads the keys from left to right: a further key is
    yielded, last, exactly when no key yielded before is alike. *)
Lemma unique_gen_snoc (seen ks : list ObjectPtr) k :
  unique_gen seen (ks ++ [k])
    = unique_gen seen ks
      ++ (if set_contains seen k || set_contains (unique_gen seen ks) k
          then [] else [k]).
Proof.
  revert seen. induction ks as [|a ks IH]; intros seen; cbn [unique_gen app].
  - simpl. by rewrite orb_false_r.
  - destruct (set_contains seen a) eqn:Ha; [apply IH|].
    rewrite IH, <- app_comm_cons, !set_contains_cons. do 2 f_equal.
    by destruct (same_key a k), (set_contains seen k).
Qed.

Lemma first_occurrences_unique_gen (ks out : list ObjectPtr) :
  first_occurrences ks out <-> out = unique_gen [] ks.
Proof.
  split.
  - induction 1 as [|ks out k Hfo IH Hnew|ks out k e Hfo IH He Hek].
    + done.
    + rewrite unique_gen_snoc. simpl. subst out.
      by rewrite (proj2 (set_contains_false _ k) Hnew).
    + rewrite unique_gen_snoc. simpl. subst out.
      assert (Hs : set_contains (unique_gen [] ks) k = true)
        by (apply set_contains_true; eauto).
      by rewrite Hs, app_nil_r.
  - intros ->. induction ks as [|k ks IH] using rev_ind; [constructor|].
    rewrite unique_gen_snoc. simpl.
    destruct (set_contains (unique_gen [] ks) k) eqn:Hs.
    + rewrite app_nil_r. apply set_contains_true in Hs as (e & He & Hek).
      by eapply first_occurrences_seen.
    + apply first_occurrences_new; [done|]. by apply set_contains_false.
Qed.

(** C6.  [uniqueKeys()] yields each distinct key once, in the order of
    first occurrence in the ledger, and nothing else does:
    [first_occurrences (keys m) out] holds of the list it yields and
    of no other.  [reversed(uniqueKeys())] is the same for the ledger
    read from its end.  In both, the yielded keys keep the order of
    the ledger, no two are alike and every key of the ledger has its
    like among them.  After [add(1,'a'); add(2,'b'); add(1,'c')] both
    yield [[1, 2]]; after two further calls [add(3,'a'); add(2,'c')]
    the forward view yields [[1, 2, 3]] and the reversed one
    [[2, 3, 1]]. *)
Theorem uniqueKeys_first_occurrences :
  (forall m out, first_occurrences (keys m) out <-> out = uniqueKeys m) /\
  (forall m out,
      first_occurrences (reverse (keys m)) out <-> out = uniqueKeys_reversed m) /\
  (forall m,
      each_key_once (keys m) (uniqueKeys m) /\
      each_key_once (reverse (keys m)) (uniqueKeys_reversed m)) /\
  @uniqueKeys cpython
    (@run cpython [Add int_1 str_a; Add int_2 str_b; Add int_1 str_c])
    = [int_1; int_2] /\
  @uniqueKeys_reversed cpython
    (@run cpython [Add int_1 str_a; Add int_2 str_b; Add int_1 str_c])
    = [int_1; int_2] /\
  @uniqueKeys cpython
    (@run cpython [Add int_1 str_a; Add int_2 str_b; Add int_1 str_c;
                   Add int_3 str_a; Add int_2 str_c])
    = [int_1; int_2; int_3] /\
  @uniqueKeys_reversed cpython
    (@run cpython [Add int_1 str_a; Add int_2 str_b; Add int_1 str_c;
                   Add int_3 str_a; Add int_2 str_c])
    = [int_2; int_3; int_1].
Proof.
  assert (Hrev : forall m, uniqueKeys_reversed m = unique_gen [] (reverse (keys m))).
  { intros m. unfold uniqueKeys_reversed, keys, items. by rewrite fmap_reverse. }
  split; [|split; [|split; [|repeat split; reflexivity]]].
  - intros m out. apply first_occurrences_unique_gen.
  - intros m out. rewrite Hrev. apply first_occurrences_unique_gen.
  - intros m. split; [apply unique_gen_each_key_once|].
    rewrite Hrev. apply unique_gen_each_key_once.
Qed.

(** *** Reading a key on a consistent state *)

Lemma getall_consistent m key :
  consistent m ->
  getall m key None
    = Return ((fun e : nat * Item => snd (snd e)) <$> bucket (py_hash key) (_items m)).
Proof.
  intros Hc. unfold getall. rewrite getAllOrNull_consistent by done.
  destruct (bucket _ _) as [|e b]; [done|].
  by rewrite <- list_fmap_compose.
Qed.

Lemma contains_bucket_nil m key :
  consistent m ->
  contains m key = false <-> bucket (py_hash key) (_items m) = [].
Proof.
  intros Hc. rewrite contains_consistent by done.
  by destruct (bucket _ _).
Qed.

Lemma filter_absent m key :
  consistent m -> contains m key = false ->
  filter (fun x : nat * Item => py_hash (fst (snd x)) <> py_hash key) (_items m)
    = _items m.
Proof.
  intros Hc Habs. apply contains_bucket_nil in Habs; [|done].
  apply filter_all. intros x Hx Hh.
  assert (Hb : x ∈ bucket (py_hash key) (_items m)) by (by apply elem_of_bucket).
  rewrite Habs in Hb. by apply elem_of_nil in Hb.
Qed.

Lemma bucket_removed l key :
  bucket (py_hash key)
    (filter (fun x : nat * Item => py_hash (fst (snd x)) <> py_hash key) l) = [].
Proof.
  unfold bucket. apply filter_none.
  intros x Hx Hh. by apply list_elem_of_filter in Hx as [Hx _].
Qed.

(** C3, as the code has it.  When the key is absent, on any state, a
    call without a default or with [None] raises [KeyError] and a call
    with a list returns that list, the map being unchanged in both
    cases.  When the key is present, on a map that satisfies the
    invariant, [popAll] returns its values oldest first (what [getall]
    returns) and removes every entry of the key and no other. *)
Theorem popAll_present_absent :
  (forall m key,
      contains m key = false ->
      popAll_call m key Omitted = (Raise (KeyError key), m) /\
      popAll_call m key (Supplied PyNone) = (Raise (KeyError key), m) /\
      forall d, popAll_call m key (Supplied (PyList d)) = (Return d, m)) /\
  (forall m key,
      consistent m -> contains m key = true ->
      forall default_,
        fst (popAll_call m key default_) = getall m key None /\
        fst (popAll_call m key default_)
          = Return ((fun e : nat * Item => snd (snd e))
                      <$> bucket (py_hash key) (_items m)) /\
        _items (snd (popAll_call m key default_))
          = filter (fun x : nat * Item => py_hash (fst (snd x)) <> py_hash key)
              (_items m) /\
        contains (snd (popAll_call m key default_)) key = false /\
        consistent (snd (popAll_call m key default_))).
Proof.
  split.
  - intros m key Habs. unfold popAll_call, popAll, getAllOrNull.
    unfold contains in Habs. by destruct (find m key).
  - intros m key Hc Hin default_. unfold popAll_call.
    pose proof (popAll_state_consistent m key
                  (match default_ with Omitted => PyNone | Supplied d => d end) Hc)
      as Hc'.
    rewrite getall_consistent by done.
    rewrite popAll_consistent in * by done.
    rewrite contains_consistent in Hin by done.
    rewrite find_consistent by done.
    rewrite find_consistent in Hc' by done.
    destruct (bucket (py_hash key) (_items m)) as [|e b] eqn:Hb; [discriminate|].
    simpl in *. rewrite <- list_fmap_compose.
    do 3 (split; [done|]). split; [|done].
    rewrite contains_consistent by done. simpl. by rewrite bucket_removed.
Qed.

(** *** The bracket operators *)

Lemma setAll_single m key v :
  consistent m ->
  fst (setAll m key [v]) = Return tt /\
  consistent (snd (setAll m key [v])) /\
  _items (snd (setAll m key [v]))
    = filter (fun x : nat * Item => py_hash (fst (snd x)) <> py_hash key) (_items m)
      ++ [(_index m, (key, v))].
Proof.
  intros Hc. pose proof (tryDeleteAll_state_consistent m key Hc) as Hc'.
  unfold setAll. rewrite tryDeleteAll_consistent in * by done. simpl in *.
  set (m' := if contains m key then _ else m) in *.
  assert (Hit : _items m'
                = filter (fun x : nat * Item => py_hash (fst (snd x)) <> py_hash key)
                    (_items m)).
  { subst m'. destruct (contains m key) eqn:Hin; [done|].
    symmetry. by apply filter_absent. }
  assert (Hix : _index m' = _index m) by (subst m'; by destruct (contains m key)).
  assert (Hsk : stored_key m' key = key).
  { unfold stored_key. rewrite find_consistent by done.
    by rewrite Hit, bucket_removed. }
  destruct (add_consistent m' key v Hc') as (Hr & Hc'' & Hit' & _).
  destruct (add m' key v) as [r m'']. simpl in *. subst r. simpl.
  by rewrite Hit', Hit, Hix, Hsk.
Qed.

Lemma last_bucket_split m key e :
  consistent m -> last (bucket (py_hash key) (_items m)) = Some e ->
  exists l1 l2,
    _items m = l1 ++ e :: l2 /\
    filter (fun x : nat * Item => fst x <> fst e) (_items m) = l1 ++ l2 /\
    bucket (py_hash key) l2 = [].
Proof.
  intros Hc Hlast. apply last_Some in Hlast as [b Hb].
  assert (He : e ∈ bucket (py_hash key) (_items m))
    by (rewrite Hb; apply elem_of_app; right; left).
  apply elem_of_bucket in He as [Hh He].
  apply list_elem_of_split in He as (l1 & l2 & Hl).
  pose proof (slots_nodup _ Hc) as Hnd. rewrite Hl in Hnd, Hb.
  exists l1, l2. split; [done|].
  rewrite fmap_app, fmap_cons in Hnd.
  apply NoDup_app in Hnd as (Hnd1 & Hdisj & Hnd2).
  apply NoDup_cons in Hnd2 as [He2 Hnd2].
  split.
  - rewrite Hl, filter_app, filter_cons_False by (intros Hc0; by apply Hc0).
    f_equal; apply filter_all; intros x Hx Heq.
    + apply (Hdisj (fst x)); [by apply list_elem_of_fmap_2|]. rewrite Heq. left.
    + apply He2. rewrite <- Heq. by apply list_elem_of_fmap_2.
  - rewrite bucket_app, bucket_cons, decide_True in Hb by done.
    destruct (bucket (py_hash key) l2) as [|y b2] eqn:Hb2; [done|]. exfalso.
    assert (Hy : y ∈ bucket (py_hash key) l2) by (rewrite Hb2; left).
    apply elem_of_bucket in Hy as [_ Hy].
    assert (Hlast : last (bucket (py_hash key) l1 ++ e :: y :: b2) = Some e)
      by (rewrite Hb; apply last_snoc).
    rewrite last_app, last_cons in Hlast. simpl in Hlast.
    destruct (last (y :: b2)) as [z|] eqn:Hz;
      [|by apply last_None in Hz].
    injection Hlast as ->.
    apply last_Some_elem_of in Hz. rewrite <- Hb2 in Hz.
    apply elem_of_bucket in Hz as [_ Hz].
    apply He2. by apply list_elem_of_fmap_2.
Qed.

Lemma fmap_filter_snd (P : Item -> Prop) `{!forall x, Decision (P x)}
    (l : list (nat * Item)) :
  snd <$> filter (fun x : nat * Item => P (snd x)) l = filter P (snd <$> l).
Proof.
  induction l as [|a l IH]; [done|].
  rewrite fmap_cons, !filter_cons.
  destruct (decide (P (snd a))); [rewrite fmap_cons|]; by rewrite IH.
Qed.

(** On any state, deleting the newest of several values leaves the
    node of the key with the older ones. *)
Lemma popLast_keeps_older m key k0 older i newest :
  find m key = Some (k0, older ++ [(i, newest)]) -> older <> [] ->
  find (snd (popLast m key None)) key = Some (k0, older).
Proof.
  intros Hfind Hne. unfold popLast, getAllOrNull. rewrite Hfind.
  destruct (older ++ [(i, newest)]) as [|a l] eqn:Heq; [by destruct older|].
  rewrite <- Heq, last_snoc, removelast_last.
  assert (Hst : store (_map m) key older !! py_hash key = Some (k0, older)).
  { unfold store. rewrite lookup_alter_eq. unfold find in Hfind. by rewrite Hfind. }
  destruct (OrderedDict.del (_items m) i); unfold find; simpl; [|done].
  by destruct older.
Qed.

(** The bracket operators.  [map[key] = v] is [setAll(key, [v])]
    and [del map[key]] is [pop(key)], that is [popLast(key)], on every
    state; on every state a key that held several values is still
    present with its older values after [del map[key]].  On a map that
    satisfies the invariant [map[key] = v] removes every entry of the
    key and appends the single value [v], and [del map[key]] removes
    the newest entry of the key and no other; on an absent key it
    raises [KeyError]. *)
Theorem bracket_operators :
  (forall m key v, __setitem__ m key v = setAll m key [v]) /\
  (forall m key,
      snd (__delitem__ m key) = snd (popLast m key None) /\
      forall e, fst (__delitem__ m key) = Raise e <-> fst (popLast m key None) = Raise e) /\
  (forall m key k0 older i newest,
      find m key = Some (k0, older ++ [(i, newest)]) -> older <> [] ->
      contains (snd (__delitem__ m key)) key = true /\
      getall (snd (__delitem__ m key)) key None = Return (snd <$> older)) /\
  (forall m key v,
      consistent m ->
      fst (__setitem__ m key v) = Return tt /\
      getall (snd (__setitem__ m key v)) key None = Return [v] /\
      items (snd (__setitem__ m key v))
        = filter (fun kv : Item => py_hash (fst kv) <> py_hash key) (items m)
          ++ [(key, v)] /\
      (forall older newest,
          getall m key None = Return (older ++ [newest]) ->
          fst (popLast m key None) = Return newest /\
          fst (__delitem__ m key) = Return tt /\
          getall (snd (__delitem__ m key)) key None = Return older /\
          (older <> [] -> contains (snd (__delitem__ m key)) key = true) /\
          exists l1 k0 l2,
            items m = l1 ++ (k0, newest) :: l2 /\
            items (snd (__delitem__ m key)) = l1 ++ l2 /\
            forall kv : Item, kv ∈ l2 -> py_hash (fst kv) <> py_hash key) /\
      (contains m key = false -> __delitem__ m key = (Raise (KeyError key), m))).
Proof.
  assert (Hdel : forall m key, snd (__delitem__ m key) = snd (popLast m key None)).
  { intros m key. unfold __delitem__, pop.
    by destruct (popLast m key None) as [[?|?] ?]. }
  split; [done|]. split; [|split].
  - intros m key. split; [done|]. intros e. unfold __delitem__, pop.
    destruct (popLast m key None) as [[?|?] ?]; simpl; split; congruence.
  - intros m key k0 older i newest Hfind Hne. rewrite Hdel.
    pose proof (popLast_keeps_older m key k0 older i newest Hfind Hne) as Hf.
    unfold contains, getall, getAllOrNull. rewrite Hf.
    by destruct older.
  - intros m key v Hc.
    destruct (setAll_single m key v Hc) as (Hr & Hc' & Hit).
    unfold __setitem__. split; [done|]. split; [|split; [|split]].
    + rewrite getall_consistent by done. rewrite Hit, bucket_app, bucket_removed.
      rewrite bucket_cons, decide_True by done. done.
    + unfold items, OrderedDict.values. rewrite Hit, fmap_app. simpl. f_equal.
      exact (fmap_filter_snd (fun kv : Item => py_hash (fst kv) <> py_hash key)
               (_items m)).
    + intros older newest Hget.
      rewrite getall_consistent in Hget by done. injection Hget as Hget.
      pose proof (popLast_consistent m key None Hc) as Hp.
      destruct (last (bucket (py_hash key) (_items m))) as [e|] eqn:Hlast.
      * destruct Hp as (Hr1 & Hc1 & Hit1 & Hb1).
        destruct (last_bucket_split m key e Hc Hlast) as (l1 & l2 & Hl & Hfl & Hb2).
        apply last_Some in Hlast as [b Hb]. rewrite Hb in Hget, Hb1.
        rewrite removelast_last in Hb1.
        rewrite fmap_app in Hget. simpl in Hget.
        apply app_inj_tail in Hget as [Hold Hnew].
        assert (Hdr : fst (__delitem__ m key) = Return tt).
        { unfold __delitem__, pop. destruct (popLast m key None) as [[?|?] ?];
            [done|discriminate]. }
        rewrite Hdel. split; [by rewrite Hr1, Hnew|]. split; [done|].
        split; [|split].
        -- rewrite getall_consistent by done. by rewrite Hb1, Hold.
        -- intros Hne. rewrite contains_consistent by done. rewrite Hb1.
           destruct b; [|done]. by destruct Hne.
        -- exists (snd <$> l1), (fst (snd e)), (snd <$> l2).
           unfold items, OrderedDict.values. rewrite Hit1, Hfl, Hl, !fmap_app.
           simpl. rewrite <- Hnew. split; [by destruct e as [? [? ?]]|].
           split; [done|].
           intros kv Hkv Hh. apply list_elem_of_fmap in Hkv as (x & -> & Hx).
           assert (Hxb : x ∈ bucket (py_hash key) l2) by (by apply elem_of_bucket).
           rewrite Hb2 in Hxb. by apply elem_of_nil in Hxb.
      * apply last_None in Hlast. rewrite Hlast in Hget. by destruct older.
    + intros Habs. unfold __delitem__, pop, popLast, getAllOrNull.
      unfold contains in Habs. by destruct (find m key).
Qed.

(** *** Purge on empty, on consistent states *)

Lemma present_key_has_values m h k0 values :
  consistent m -> _map m !! h = Some (k0, values) -> values <> [].
Proof.
  intros Hc Hlk. rewrite (index_exact _ Hc) in Hlk.
  destruct (bucket h (_items m)); [discriminate|].
  simpl in Hlk. by injection Hlk as _ <-.
Qed.

Lemma contains_iff_values m key :
  consistent m ->
  contains m key = true <-> exists v vs, getall m key None = Return (v :: vs).
Proof.
  intros Hc. rewrite contains_consistent, getall_consistent by done.
  destruct (bucket _ _) as [|e b]; simpl.
  - split; [discriminate|]. by intros (v & vs & ?).
  - split; [|done]. intros _. by eexists _, _.
Qed.

(** Without [sort] and [__setstate__], a key that is in the map has at
    least one value. *)
Lemma purge_on_empty_without_sort cs key :
  Forall (fun c => replaces_ledger c = false) cs ->
  contains (run cs) key = true ->
  exists v vs, getall (run cs) key None = Return (v :: vs).
Proof. intros Hcs. by apply contains_iff_values, run_consistent. Qed.

(** The two values of a two-value key popped from both ends. *)
Lemma popFirst_popLast_purges m key d1 d2 v1 v2 :
  consistent m -> getall m key None = Return [v1; v2] ->
  fst (popFirst m key d1) = Return v1 /\
  fst (popLast (snd (popFirst m key d1)) key d2) = Return v2 /\
  contains (snd (popLast (snd (popFirst m key d1)) key d2)) key = false.
Proof.
  intros Hc Hget. rewrite getall_consistent in Hget by done.
  injection Hget as Hget.
  pose proof (popFirst_consistent m key d1 Hc) as Hp1.
  destruct (bucket (py_hash key) (_items m)) as [|e1 [|e2 [|e3 b]]];
    try discriminate.
  injection Hget as <- <-.
  destruct Hp1 as (Hr1 & Hc1 & _ & Hb1). split; [done|].
  pose proof (popLast_consistent (snd (popFirst m key d1)) key d2 Hc1) as Hp2.
  rewrite Hb1 in Hp2. simpl in Hp2.
  destruct Hp2 as (Hr2 & Hc2 & _ & Hb2). split; [done|].
  rewrite contains_consistent by done. by rewrite Hb2.
Qed.

(** *** Round trip, on consistent states *)

Lemma rich_eq_refl a : rich_eq a a = true.
Proof. unfold rich_eq. by rewrite Nat.eqb_refl. Qed.

Lemma zip_longest_eq_refl (l : list Item) : zip_longest_eq l l = true.
Proof.
  induction l as [|a l IH]; simpl; [done|].
  unfold item_ne. by rewrite !rich_eq_refl.
Qed.

Lemma round_trip_consistent m0 m :
  consistent m ->
  fst (load m0 (items m)) = Return tt /\
  items (snd (load m0 (items m))) = items m /\
  __eq__ (snd (load m0 (items m))) m = true.
Proof.
  intros Hc. split; [apply load_consistent|].
  assert (Hit : items (snd (load m0 (items m))) = items m).
  { unfold load. rewrite extend_canonical; [done|apply consistent_empty|].
    simpl. intros x y Hx Hy Hh.
    apply list_elem_of_fmap in Hx as (ex & -> & Hx).
    apply list_elem_of_fmap in Hy as (ey & -> & Hy).
    by apply (keys_canonical _ Hc). }
  split; [done|]. unfold __eq__. rewrite Hit. apply zip_longest_eq_refl.
Qed.

(** Without [sort] and [__setstate__], [load(M.items()) == M]. *)
Lemma round_trip_without_sort cs m0 :
  Forall (fun c => replaces_ledger c = false) cs ->
  __eq__ (snd (load m0 (items (run cs)))) (run cs) = true.
Proof. intros Hcs. by apply round_trip_consistent, run_consistent. Qed.

(** *** What [sort] does to the ledger *)

Lemma sort_ledger {K : Type} m (key : Item -> K) (lt : K -> K -> bool) reverse_ :
  items (sort m key lt reverse_) = sorted key lt reverse_ (items m) /\
  fst <$> _items (sort m key lt reverse_) = seq 0 (length (_items m)) /\
  _map (sort m key lt reverse_) = _map m.
Proof.
  unfold items, sort, OrderedDict.of_enumerate, OrderedDict.values. simpl.
  split; [|split; [|done]].
  - apply snd_zip. by rewrite length_seq.
  - rewrite fst_zip by (by rewrite length_seq).
    by rewrite sorted_length, length_fmap.
Qed.

End Claims.

(** * Further properties of the methods *)

Section Further.

Context `{PyObjectProtocol}.

Implicit Types (m : OrderedMultiDictBase) (l b : list (nat * Item))
  (e : nat * Item) (h : Z) (key k v : ObjectPtr).

(** ** Helpers *)

Lemma fmap_filter_comm {A B : Type} (f : A -> B) (P : B -> Prop)
    `{!forall x, Decision (P x)} (l : list A) :
  f <$> filter (fun x => P (f x)) l = filter P (f <$> l).
Proof.
  induction l as [|a l IH]; [done|].
  rewrite fmap_cons, !filter_cons.
  destruct (decide (P (f a))); [rewrite fmap_cons|]; by rewrite IH.
Qed.

Lemma keys_bucket m key :
  filter (fun s => py_hash s = py_hash key) (keys m)
    = (fun e : nat * Item => fst (snd e)) <$> bucket (py_hash key) (_items m).
Proof.
  unfold keys, items, OrderedDict.values, bucket.
  rewrite <- list_fmap_compose.
  symmetry.
  exact (fmap_filter_comm (fun e : nat * Item => fst (snd e))
           (fun s => py_hash s = py_hash key) (_items m)).
Qed.

Lemma stored_key_head m key :
  consistent m ->
  stored_key m key
    = default key (head (filter (fun s => py_hash s = py_hash key) (keys m))).
Proof.
  intros Hc. unfold stored_key. rewrite find_consistent, keys_bucket by done.
  by destruct (bucket _ _).
Qed.

Lemma consistent_index_le m idx :
  consistent m -> _index m <= idx ->
  consistent (mkOMD (_items m) (_map m) idx).
Proof.
  intros [Hnd Hfr Hcan Hix] Hle. split; simpl; try done.
  intros e He. apply Hfr in He. lia.
Qed.

Lemma consistent_same_items m1 m2 :
  consistent m1 -> consistent m2 -> _items m1 = _items m2 -> _map m1 = _map m2.
Proof.
  intros Hc1 Hc2 Heq. apply map_eq. intros h.
  by rewrite (index_exact _ Hc1), (index_exact _ Hc2), Heq.
Qed.

Lemma entry_split m e :
  consistent m -> e ∈ _items m ->
  exists l1 l2,
    _items m = l1 ++ e :: l2 /\
    filter (fun x : nat * Item => fst x <> fst e) (_items m) = l1 ++ l2.
Proof.
  intros Hc He. apply list_elem_of_split in He as (l1 & l2 & Hl).
  pose proof (slots_nodup _ Hc) as Hnd. rewrite Hl in Hnd.
  exists l1, l2. split; [done|].
  rewrite fmap_app, fmap_cons in Hnd.
  apply NoDup_app in Hnd as (Hnd1 & Hdisj & Hnd2).
  apply NoDup_cons in Hnd2 as [He2 Hnd2].
  rewrite Hl, filter_app, filter_cons_False by (intros Hc0; by apply Hc0).
  f_equal; apply filter_all; intros x Hx Heq.
  - apply (Hdisj (fst x)); [by apply list_elem_of_fmap_2|]. rewrite Heq. left.
  - apply He2. rewrite <- Heq. by apply list_elem_of_fmap_2.
Qed.

Lemma bucket_remove_other l e h :
  NoDup (fst <$> l) -> e ∈ l -> py_hash (fst (snd e)) <> h ->
  bucket h (filter (fun x : nat * Item => fst x <> fst e) l) = bucket h l.
Proof.
  intros Hnd He Hh. rewrite bucket_remove. apply filter_all.
  intros x Hx Heq. apply elem_of_bucket in Hx as [Hhx Hx].
  assert (x = e) by (by apply (nodup_fst_inj l)). subst x. done.
Qed.

Lemma get_consistent m key default_ :
  consistent m ->
  get m key default_
    = Return (default default_
                (head ((fun e : nat * Item => snd (snd e))
                         <$> bucket (py_hash key) (_items m)))).
Proof.
  intros Hc. unfold get. rewrite getAllOrNull_consistent by done.
  by destruct (bucket _ _) as [|[i [k0 v0]] b].
Qed.

Lemma getLast_consistent m key default_ :
  consistent m ->
  getLast m key default_
    = Return (default default_
                (last ((fun e : nat * Item => snd (snd e))
                         <$> bucket (py_hash key) (_items m)))).
Proof.
  intros Hc. unfold getLast.
  destruct (bucket (py_hash key) (_items m)) as [|e b] eqn:Hb.
  - rewrite getAllOrNull_consistent, Hb by done. done.
  - rewrite getAllOrNull_present by (done || by rewrite Hb).
    rewrite Hb, !fmap_last.
    destruct (last (e :: b)) as [[i [k0 v0]]|] eqn:Hl; [done|].
    by apply last_None in Hl.
Qed.

Lemma getitem_consistent m key :
  consistent m ->
  __getitem__ m key
    = match (fun e : nat * Item => snd (snd e)) <$> bucket (py_hash key) (_items m) with
      | [] => Raise (KeyError key)
      | v :: _ => Return v
      end.
Proof.
  intros Hc. unfold __getitem__. rewrite getAllOrNull_consistent by done.
  by destruct (bucket _ _) as [|[i [k0 v0]] b].
Qed.

(** ** Adding *)

Lemma canonical_values (seen : list ObjectPtr) (kvs : list Item) :
  snd <$> canonical seen kvs = snd <$> kvs /\
  (fun kv : Item => py_hash (fst kv)) <$> canonical seen kvs
    = (fun kv : Item => py_hash (fst kv)) <$> kvs.
Proof.
  revert seen. induction kvs as [|[k v] kvs IH]; intros seen; [done|].
  cbn [canonical]. cbv zeta. rewrite !fmap_cons.
  destruct (IH (seen ++ [default k (head (filter (fun s => py_hash s = py_hash k) seen))]))
    as [IH1 IH2].
  rewrite IH1, IH2. split; [done|]. f_equal. simpl.
  destruct (filter (fun s => py_hash s = py_hash k) seen) as [|s l] eqn:Hf; [done|].
  simpl. assert (Hs : s ∈ filter (fun s => py_hash s = py_hash k) seen)
    by (rewrite Hf; left).
  by apply list_elem_of_filter in Hs as [? _].
Qed.

Lemma extend_items_canonical m keyValuelist :
  consistent m ->
  items (snd (extend m keyValuelist)) = items m ++ canonical (keys m) keyValuelist /\
  fst <$> _items (snd (extend m keyValuelist))
    = (fst <$> _items m) ++ seq (_index m) (length keyValuelist).
Proof.
  revert m. induction keyValuelist as [|[k v] kvs IH]; intros m Hc.
  - simpl. by rewrite !app_nil_r.
  - cbn [canonical extend length seq]. cbv zeta.
    rewrite <- (stored_key_head m k Hc).
    destruct (add_consistent m k v Hc) as (Hr & Hc' & Hit & Hidx).
    destruct (add m k v) as [r m']. simpl in Hr, Hc', Hit, Hidx. subst r.
    assert (Hitems : items m' = items m ++ [(stored_key m k, v)]).
    { unfold items, OrderedDict.values. by rewrite Hit, fmap_app. }
    assert (Hkeys : keys m' = keys m ++ [stored_key m k]).
    { unfold keys. by rewrite Hitems, fmap_app. }
    destruct (IH m' Hc') as [IH1 IH2].
    rewrite IH1, IH2, Hidx, Hitems, Hkeys, Hit, fmap_app, <- !app_assoc. done.
Qed.

(** X1.  [load] never raises, whatever the map held before, and stores
    the pairs in the order given, numbered [0, 1, ...]: the values are
    those of the input, each key is the first key of the input that
    hashes like it, and the state satisfies the invariant. *)
Theorem load_stores_in_order m (iterable : list Item) :
  fst (load m iterable) = Return tt /\
  consistent (snd (load m iterable)) /\
  items (snd (load m iterable)) = canonical [] iterable /\
  values (snd (load m iterable)) = snd <$> iterable /\
  (py_hash <$> keys (snd (load m iterable))) = (py_hash <$> (fst <$> iterable)) /\
  fst <$> _items (snd (load m iterable)) = seq 0 (length iterable) /\
  __len__ (snd (load m iterable)) = length iterable.
Proof.
  destruct (load_consistent m iterable) as [Hr Hc].
  destruct (extend_items_canonical empty iterable consistent_empty) as [Hit Hids].
  destruct (canonical_values [] iterable) as [Hv Hh].
  assert (Hload : load m iterable = extend empty iterable) by done.
  rewrite Hload in *. simpl in Hit, Hids.
  split; [done|]. split; [done|]. split; [done|].
  split; [unfold values; by rewrite Hit|].
  split; [unfold keys; by rewrite Hit, <- !list_fmap_compose|].
  split; [done|].
  unfold __len__. by rewrite <- (length_fmap fst), Hids, length_seq.
Qed.

Lemma extend_app m (l1 l2 : list Item) :
  extend m (l1 ++ l2)
    = match extend m l1 with
      | (Return _, m') => extend m' l2
      | (Raise e, m') => (Raise e, m')
      end.
Proof.
  revert m. induction l1 as [|[k v] l1 IH]; intros m; simpl; [done|].
  destruct (add m k v) as [[[]|e] m']; [apply IH|done].
Qed.

(** X2.  [addAll] and [extend] are the same loop over [add]:
    [addAll(key, values)] is [extend] over the pairs [(key, v)], and
    extending by a concatenation is extending by its parts in turn, an
    exception in the first part ending the call with the adds made so
    far.  This holds on every state. *)
Theorem addAll_extend_compose m key (valuelist : list ObjectPtr) (l1 l2 : list Item) :
  addAll m key valuelist = extend m ((fun v => (key, v)) <$> valuelist) /\
  extend m (l1 ++ l2)
    = match extend m l1 with
      | (Return _, m') => extend m' l2
      | (Raise e, m') => (Raise e, m')
      end /\
  extend m [] = (Return tt, m).
Proof.
  split; [|split; [apply extend_app|done]].
  revert m. induction valuelist as [|v vs IH]; intros m; simpl; [done|].
  destruct (add m key v) as [[[]|e] m']; [apply IH|done].
Qed.

(** X3.  On a map that satisfies the invariant [add(key, value)] never
    raises and makes [value] the newest value of the key: [getall]
    gains it at the end, [getLast] returns it, [get] still returns the
    oldest value, the length grows by one, and the values of the keys
    that hash otherwise are untouched. *)
Theorem add_appends_value m key value (vs : list ObjectPtr) :
  consistent m -> getall m key None = Return vs ->
  fst (add m key value) = Return tt /\
  getall (snd (add m key value)) key None = Return (vs ++ [value]) /\
  (forall d, getLast (snd (add m key value)) key d = Return value) /\
  (forall d, get (snd (add m key value)) key d = Return (default value (head vs))) /\
  contains (snd (add m key value)) key = true /\
  __len__ (snd (add m key value)) = S (__len__ m) /\
  (forall k', py_hash k' <> py_hash key ->
     getall (snd (add m key value)) k' None = getall m k' None).
Proof.
  intros Hc Hget. rewrite getall_consistent in Hget by done. injection Hget as Hget.
  destruct (add_consistent m key value Hc) as (Hr & Hc' & Hit & Hidx).
  pose proof (stored_key_hash m key Hc) as Hsk.
  assert (Hb : bucket (py_hash key) (_items (snd (add m key value)))
               = bucket (py_hash key) (_items m)
                 ++ [(_index m, (stored_key m key, value))]).
  { rewrite Hit, bucket_app, bucket_cons, decide_True by done. done. }
  split; [done|]. split; [|split; [|split; [|split; [|split]]]].
  - rewrite getall_consistent by done. by rewrite Hb, fmap_app, Hget.
  - intros d. rewrite getLast_consistent by done.
    by rewrite Hb, fmap_snoc, last_snoc.
  - intros d. rewrite get_consistent by done. rewrite Hb, fmap_app, Hget.
    by destruct vs.
  - rewrite contains_consistent by done. rewrite Hb. by destruct (bucket _ _).
  - unfold __len__. rewrite Hit, length_app. simpl. lia.
  - intros k' Hne. rewrite !getall_consistent by done.
    rewrite Hit, bucket_app, bucket_cons, decide_False, app_nil_r; [done|].
    simpl. rewrite Hsk. congruence.
Qed.

(** X4.  On a map that satisfies the invariant the readers agree with
    [getall]: [get] and [getFirst] return its first value, [getLast]
    its last, each returning the default when the list is empty;
    [map[key]] raises [KeyError] exactly when it is empty; [key in map]
    says whether it is non-empty; and it has one value for each
    occurrence of the key in [keys()]. *)
Theorem readers_agree_with_getall m key :
  consistent m ->
  exists vs,
    getall m key None = Return vs /\
    (forall d, get m key d = Return (default d (head vs))) /\
    (forall d, getFirst m key d = Return (default d (head vs))) /\
    (forall d, getLast m key d = Return (default d (last vs))) /\
    __getitem__ m key
      = match vs with [] => Raise (KeyError key) | v :: _ => Return v end /\
    contains m key = match vs with [] => false | _ :: _ => true end /\
    (forall d, getall m key (Some d)
               = Return (match vs with [] => d | _ :: _ => vs end)) /\
    length vs = length (filter (fun s => py_hash s = py_hash key) (keys m)).
Proof.
  intros Hc. eexists. split; [by apply getall_consistent|].
  split; [intros d; by apply get_consistent|].
  split; [intros d; by apply (get_consistent m key d)|].
  split; [intros d; by apply getLast_consistent|].
  split; [by apply getitem_consistent|].
  split; [|split].
  - rewrite contains_consistent by done. by destruct (bucket _ _).
  - intros d. unfold getall. rewrite getAllOrNull_consistent by done.
    destruct (bucket _ _) as [|e b]; [done|]. by rewrite <- list_fmap_compose.
  - by rewrite keys_bucket, !length_fmap.
Qed.

(** ** Removing *)

Lemma remove_entry_reads m m' e :
  consistent m -> consistent m' -> e ∈ _items m ->
  _items m' = filter (fun x : nat * Item => fst x <> fst e) (_items m) ->
  __len__ m = S (__len__ m') /\
  (forall k', py_hash k' <> py_hash (fst (snd e)) ->
     getall m' k' None = getall m k' None) /\
  exists l1 l2, _items m = l1 ++ e :: l2 /\ _items m' = l1 ++ l2.
Proof.
  intros Hc Hc' He Hit.
  destruct (entry_split m e Hc He) as (l1 & l2 & Hl & Hfl).
  split; [|split].
  - unfold __len__. rewrite Hit, Hfl, Hl, !length_app. simpl. lia.
  - intros k' Hne. rewrite !getall_consistent by done.
    rewrite Hit, bucket_remove_other; [done|apply (slots_nodup _ Hc)|done|congruence].
  - exists l1, l2. split; [done|]. by rewrite Hit.
Qed.

Lemma first_bucket_split l l1 l2 e b h :
  NoDup (fst <$> l) -> l = l1 ++ e :: l2 -> bucket h l = e :: b ->
  bucket h l1 = [].
Proof.
  intros Hnd -> Hb. rewrite fmap_app, fmap_cons in Hnd.
  apply NoDup_app in Hnd as (_ & Hdisj & _).
  rewrite bucket_app in Hb.
  destruct (bucket h l1) as [|y b1] eqn:Hb1; [done|]. exfalso.
  simpl in Hb. injection Hb as -> _.
  assert (He : e ∈ bucket h l1) by (rewrite Hb1; left).
  apply elem_of_bucket in He as [_ He].
  apply (Hdisj (fst e)); [by apply list_elem_of_fmap_2|left].
Qed.

Lemma bucket_nil_hashes l h (kv : Item) :
  bucket h l = [] -> kv ∈ snd <$> l -> py_hash (fst kv) <> h.
Proof.
  intros Hb Hkv Hh. apply list_elem_of_fmap in Hkv as (x & -> & Hx).
  assert (Hxb : x ∈ bucket h l) by (by apply elem_of_bucket).
  rewrite Hb in Hxb. by apply elem_of_nil in Hxb.
Qed.

(** X5.  [popFirst] on a map that satisfies the invariant.  When the
    key has no value it returns the default, or raises [KeyError]
    without one, and changes nothing.  Otherwise it returns the oldest
    value of the key and removes that one entry: the other values of
    the key keep their order, the key leaves the map when none is
    left, the length drops by one, the other keys keep their values
    and the remaining items keep their order. *)
Theorem popFirst_oldest_value m key default_ :
  consistent m ->
  exists vs,
    getall m key None = Return vs /\
    match vs with
    | [] =>
        popFirst m key default_ =
          (match default_ with Some d => Return d | None => Raise (KeyError key) end, m)
    | v :: vs' =>
        fst (popFirst m key default_) = Return v /\
        consistent (snd (popFirst m key default_)) /\
        getall (snd (popFirst m key default_)) key None = Return vs' /\
        contains (snd (popFirst m key default_)) key
          = match vs' with [] => false | _ :: _ => true end /\
        __len__ m = S (__len__ (snd (popFirst m key default_))) /\
        (forall k', py_hash k' <> py_hash key ->
           getall (snd (popFirst m key default_)) k' None = getall m k' None) /\
        exists (l1 : list Item) k0 (l2 : list Item),
          items m = l1 ++ (k0, v) :: l2 /\
          items (snd (popFirst m key default_)) = l1 ++ l2 /\
          forall kv : Item, kv ∈ l1 -> py_hash (fst kv) <> py_hash key
    end.
Proof.
  intros Hc. eexists. split; [by apply getall_consistent|].
  pose proof (popFirst_consistent m key default_ Hc) as Hp.
  destruct (bucket (py_hash key) (_items m)) as [|e b] eqn:Hb; [done|].
  destruct Hp as (Hr & Hc' & Hit & Hb').
  assert (He : e ∈ bucket (py_hash key) (_items m)) by (rewrite Hb; left).
  apply elem_of_bucket in He as [Hh He].
  destruct (remove_entry_reads m _ e Hc Hc' He Hit) as (Hlen & Hother & l1 & l2 & Hl & Hl').
  rewrite fmap_cons. split; [done|]. split; [done|].
  split; [rewrite getall_consistent by done; by rewrite Hb'|].
  split; [rewrite contains_consistent by done; rewrite Hb'; by destruct b|].
  split; [done|]. split; [intros k' Hne; apply Hother; congruence|].
  exists (snd <$> l1), (fst (snd e)), (snd <$> l2).
  unfold items, OrderedDict.values. rewrite Hl', Hl, !fmap_app, fmap_cons.
  split; [by destruct e as [? [? ?]]|]. split; [done|].
  intros kv Hkv. eapply bucket_nil_hashes; [|exact Hkv].
  eapply first_bucket_split; [apply (slots_nodup _ Hc)|exact Hl|exact Hb].
Qed.

(** X6.  [popLast], and [pop], which is the same call, on a map that
    satisfies the invariant.  When the key has no value it returns the
    default, or raises [KeyError] without one, and changes nothing.
    Otherwise it returns the newest value of the key and removes that
    one entry: the older values of the key stay, the key leaves the
    map when none is left, the length drops by one and the other keys
    keep their values. *)
Theorem popLast_newest_value m key default_ :
  consistent m ->
  pop m key default_ = popLast m key default_ /\
  exists vs,
    getall m key None = Return vs /\
    match last vs with
    | None =>
        popLast m key default_ =
          (match default_ with Some d => Return d | None => Raise (KeyError key) end, m)
    | Some v =>
        fst (popLast m key default_) = Return v /\
        consistent (snd (popLast m key default_)) /\
        getall (snd (popLast m key default_)) key None = Return (removelast vs) /\
        contains (snd (popLast m key default_)) key
          = match removelast vs with [] => false | _ :: _ => true end /\
        __len__ m = S (__len__ (snd (popLast m key default_))) /\
        (forall k', py_hash k' <> py_hash key ->
           getall (snd (popLast m key default_)) k' None = getall m k' None)
    end.
Proof.
  intros Hc. split; [done|]. eexists. split; [by apply getall_consistent|].
  pose proof (popLast_consistent m key default_ Hc) as Hp.
  rewrite fmap_last.
  destruct (last (bucket (py_hash key) (_items m))) as [e|] eqn:Hlast; [|done].
  destruct Hp as (Hr & Hc' & Hit & Hb').
  pose proof Hlast as Hsplit. apply last_Some in Hsplit as [b Hb].
  assert (He : e ∈ bucket (py_hash key) (_items m))
    by (rewrite Hb; apply elem_of_app; right; left).
  apply elem_of_bucket in He as [Hh He].
  destruct (remove_entry_reads m _ e Hc Hc' He Hit) as (Hlen & Hother & _).
  assert (Hrl : removelast ((fun e : nat * Item => snd (snd e))
                              <$> bucket (py_hash key) (_items m))
                = (fun e : nat * Item => snd (snd e))
                    <$> removelast (bucket (py_hash key) (_items m))).
  { rewrite Hb, fmap_snoc, !removelast_last. done. }
  simpl. split; [done|]. split; [done|].
  split; [rewrite getall_consistent by done; by rewrite Hb', Hrl|].
  split.
  - rewrite contains_consistent by done. rewrite Hb', Hrl.
    by destruct (removelast (bucket (py_hash key) (_items m))).
  - split; [done|]. intros k' Hne. apply Hother. congruence.
Qed.

Lemma popLast_index m key default_ :
  _index (snd (popLast m key default_)) = _index m.
Proof.
  unfold popLast. destruct (getAllOrNull m key) as [[|vs]|e]; simpl;
    try done; try (by destruct default_).
  destruct (last vs) as [[i v]|]; simpl; [|done].
  by destruct (OrderedDict.del (_items m) i).
Qed.

(** X7.  On a map that satisfies the invariant [add] followed by [pop]
    of the same key returns the value just added and restores the
    ledger and the key index; only the slot counter has moved on. *)
Theorem add_then_pop_restores m key value default_ :
  consistent m ->
  pop (snd (add m key value)) key default_
    = (Return value, mkOMD (_items m) (_map m) (S (_index m))).
Proof.
  intros Hc. unfold pop.
  destruct (add_consistent m key value Hc) as (Hr & Hc' & Hit & Hidx).
  pose proof (stored_key_hash m key Hc) as Hsk.
  pose proof (popLast_consistent (snd (add m key value)) key default_ Hc') as Hp.
  pose proof (popLast_index (snd (add m key value)) key default_) as Hpi.
  rewrite Hit, bucket_app, bucket_cons, decide_True in Hp by done.
  change (bucket (py_hash key) []) with (@nil (nat * Item)) in Hp.
  rewrite last_snoc in Hp. destruct Hp as (Hr' & Hc'' & Hit' & _).
  pose proof (slots_nodup _ Hc') as Hnd. rewrite Hit in Hnd.
  rewrite filter_ne_snoc in Hit' by exact Hnd.
  assert (Hmap : _map (snd (popLast (snd (add m key value)) key default_)) = _map m)
    by (by apply consistent_same_items).
  destruct (popLast (snd (add m key value)) key default_) as [r [it mp ix]].
  simpl in Hr', Hit', Hmap, Hpi. by rewrite Hr', Hit', Hmap, Hpi, Hidx.
Qed.

Lemma getall_items m key :
  consistent m ->
  getall m key None
    = Return (snd <$> filter (fun kv : Item => py_hash (fst kv) = py_hash key) (items m)).
Proof.
  intros Hc. rewrite getall_consistent by done. f_equal.
  unfold items, OrderedDict.values, bucket.
  rewrite <- (fmap_filter_comm snd (fun kv : Item => py_hash (fst kv) = py_hash key)).
  by rewrite <- list_fmap_compose.
Qed.

Lemma contains_items m key :
  consistent m ->
  contains m key
    = match filter (fun kv : Item => py_hash (fst kv) = py_hash key) (items m) with
      | [] => false
      | _ :: _ => true
      end.
Proof.
  intros Hc. rewrite contains_consistent by done.
  unfold items, OrderedDict.values, bucket.
  rewrite <- (fmap_filter_comm snd (fun kv : Item => py_hash (fst kv) = py_hash key)).
  by destruct (filter _ (_items m)).
Qed.

Lemma items_removed_bucket m key :
  snd <$> filter (fun x : nat * Item => py_hash (fst (snd x)) <> py_hash key) (_items m)
    = filter (fun kv : Item => py_hash (fst kv) <> py_hash key) (items m).
Proof.
  exact (fmap_filter_comm snd (fun kv : Item => py_hash (fst kv) <> py_hash key)
           (_items m)).
Qed.

Lemma filter_hash_removed (l : list Item) key k' :
  filter (fun kv : Item => py_hash (fst kv) = py_hash k')
    (filter (fun kv : Item => py_hash (fst kv) <> py_hash key) l)
    = if decide (py_hash k' = py_hash key) then []
      else filter (fun kv : Item => py_hash (fst kv) = py_hash k') l.
Proof.
  destruct (decide (py_hash k' = py_hash key)) as [Heq|Hne].
  - apply filter_none. intros x Hx Hh. apply list_elem_of_filter in Hx as [Hx _].
    congruence.
  - rewrite filter_swap. apply filter_all.
    intros x Hx. apply list_elem_of_filter in Hx as [Hh _]. congruence.
Qed.

Lemma filter_hash_pairs key k' (vs : list ObjectPtr) :
  filter (fun kv : Item => py_hash (fst kv) = py_hash k') ((fun v => (key, v)) <$> vs)
    = if decide (py_hash key = py_hash k') then (fun v => (key, v)) <$> vs else [].
Proof.
  destruct (decide (py_hash key = py_hash k')) as [Heq|Hne].
  - apply filter_all. intros x Hx. by apply list_elem_of_fmap in Hx as (v & -> & _).
  - apply filter_none. intros x Hx. by apply list_elem_of_fmap in Hx as (v & -> & _).
Qed.

(** X8.  [deleteAll].  On any state an absent key raises
    [KeyError(key)] and changes nothing.  On a map that satisfies the
    invariant a present key is removed with every one of its entries
    and no other: the remaining items keep their order, the other keys
    keep their values, and the state is the one [popAll] leaves. *)
Theorem deleteAll_removes_key m key :
  (contains m key = false -> deleteAll m key = (Raise (KeyError key), m)) /\
  (consistent m -> contains m key = true ->
   fst (deleteAll m key) = Return tt /\
   consistent (snd (deleteAll m key)) /\
   items (snd (deleteAll m key))
     = filter (fun kv : Item => py_hash (fst kv) <> py_hash key) (items m) /\
   contains (snd (deleteAll m key)) key = false /\
   getall (snd (deleteAll m key)) key None = Return [] /\
   (forall k', py_hash k' <> py_hash key ->
      getall (snd (deleteAll m key)) k' None = getall m k' None) /\
   forall d, snd (popAll m key d) = snd (deleteAll m key)).
Proof.
  split.
  - intros Habs. unfold deleteAll, _tryDeleteAll, getAllOrNull.
    unfold contains in Habs. by destruct (find m key).
  - intros Hc Hin. pose proof (deleteAll_consistent m key Hc) as Hc'.
    assert (Hst : deleteAll m key
                  = (Return tt,
                     mkOMD (filter (fun x : nat * Item =>
                                      py_hash (fst (snd x)) <> py_hash key) (_items m))
                           (erase (_map m) key) (_index m))).
    { unfold deleteAll. rewrite tryDeleteAll_consistent by done. by rewrite Hin. }
    rewrite Hst in *. simpl in *.
    assert (Hit : items (mkOMD (filter (fun x : nat * Item =>
                                          py_hash (fst (snd x)) <> py_hash key) (_items m))
                               (erase (_map m) key) (_index m))
                  = filter (fun kv : Item => py_hash (fst kv) <> py_hash key) (items m))
      by apply items_removed_bucket.
    split; [done|]. split; [done|]. split; [done|].
    split; [|split; [|split]].
    + rewrite contains_items by done. rewrite Hit, filter_hash_removed.
      by rewrite decide_True.
    + rewrite getall_items by done. rewrite Hit, filter_hash_removed.
      by rewrite decide_True.
    + intros k' Hne. rewrite !getall_items by done.
      rewrite Hit, filter_hash_removed. by rewrite decide_False.
    + intros d. rewrite popAll_consistent by done.
      unfold contains in Hin. by destruct (find m key) as [[k0 vs]|].
Qed.

(** X9.  On a map that satisfies the invariant [setAll(key, values)]
    never raises, whether the key was present or not; afterwards the
    values of the key are exactly [values], in that order and at the
    end of the map, the key is absent when [values] is empty, and the
    other keys keep their values. *)
Theorem setAll_replaces_values m key (valueList : list ObjectPtr) :
  consistent m ->
  fst (setAll m key valueList) = Return tt /\
  consistent (snd (setAll m key valueList)) /\
  items (snd (setAll m key valueList))
    = filter (fun kv : Item => py_hash (fst kv) <> py_hash key) (items m)
      ++ ((fun v => (key, v)) <$> valueList) /\
  getall (snd (setAll m key valueList)) key None = Return valueList /\
  contains (snd (setAll m key valueList)) key
    = match valueList with [] => false | _ :: _ => true end /\
  (forall k', py_hash k' <> py_hash key ->
     getall (snd (setAll m key valueList)) k' None = getall m k' None).
Proof.
  intros Hc. destruct (setAll_consistent m key valueList Hc) as [Hr Hc'].
  pose proof (tryDeleteAll_state_consistent m key Hc) as Hc0.
  assert (Hit : items (snd (setAll m key valueList))
                = filter (fun kv : Item => py_hash (fst kv) <> py_hash key) (items m)
                  ++ ((fun v => (key, v)) <$> valueList)).
  { unfold setAll in *. rewrite tryDeleteAll_consistent in * by done. simpl in *.
    set (m0 := if contains m key then _ else m) in *.
    assert (Hit0 : items m0
                   = filter (fun kv : Item => py_hash (fst kv) <> py_hash key) (items m)).
    { subst m0. destruct (contains m key) eqn:Hin; [apply items_removed_bucket|].
      rewrite <- (items_removed_bucket m key), filter_absent by done. done. }
    assert (Hsk : stored_key m0 key = key).
    { unfold stored_key.
      pose proof (contains_items m0 key Hc0) as Hcont. rewrite Hit0 in Hcont.
      rewrite filter_hash_removed, decide_True in Hcont by done.
      unfold contains in Hcont. by destruct (find m0 key). }
    destruct (addAll_consistent m0 key valueList Hc0) as (_ & _ & Hadd).
    by rewrite Hadd, Hit0, Hsk. }
  split; [done|]. split; [done|]. split; [done|].
  split; [|split].
  - rewrite getall_items by done.
    rewrite Hit, filter_app, filter_hash_removed, filter_hash_pairs.
    rewrite !decide_True by done. simpl. rewrite <- list_fmap_compose.
    by rewrite list_fmap_id.
  - rewrite contains_items by done.
    rewrite Hit, filter_app, filter_hash_removed, filter_hash_pairs.
    rewrite !decide_True by done. by destruct valueList.
  - intros k' Hne. rewrite !getall_items by done.
    rewrite Hit, filter_app, filter_hash_removed, filter_hash_pairs.
    rewrite !decide_False by congruence. by rewrite app_nil_r.
Qed.

Lemma bucket_after_add m key value :
  consistent m ->
  bucket (py_hash key) (_items (snd (add m key value)))
    = bucket (py_hash key) (_items m) ++ [(_index m, (stored_key m key, value))].
Proof.
  intros Hc. destruct (add_consistent m key value Hc) as (_ & _ & Hit & _).
  pose proof (stored_key_hash m key Hc) as Hsk.
  rewrite Hit, bucket_app, bucket_cons, decide_True by done. done.
Qed.

Lemma setdefault_present m key default_ i k0 v0 b :
  consistent m -> bucket (py_hash key) (_items m) = (i, (k0, v0)) :: b ->
  setdefault m key default_ = (Return v0, m).
Proof.
  intros Hc Hb. unfold setdefault. rewrite getAllOrNull_consistent by done.
  by rewrite Hb.
Qed.

(** X10.  [setdefault] on a map that satisfies the invariant.  When the
    key has a value it returns the oldest one and changes nothing.
    Otherwise it adds [(key, default)] at the end and returns the
    default.  Either way a second [setdefault] of the key, with any
    default, returns the same value and changes nothing more. *)
Theorem setdefault_returns_first_or_adds m key default_ :
  consistent m ->
  exists vs,
    getall m key None = Return vs /\
    match vs with
    | v :: _ => setdefault m key default_ = (Return v, m)
    | [] =>
        fst (setdefault m key default_) = Return default_ /\
        consistent (snd (setdefault m key default_)) /\
        items (snd (setdefault m key default_)) = items m ++ [(key, default_)] /\
        getall (snd (setdefault m key default_)) key None = Return [default_]
    end /\
    forall d2,
      setdefault (snd (setdefault m key default_)) key d2
        = setdefault m key default_.
Proof.
  intros Hc. eexists. split; [by apply getall_consistent|].
  destruct (bucket (py_hash key) (_items m)) as [|[i [k0 v0]] b] eqn:Hb.
  - destruct (add_consistent m key default_ Hc) as (Hr & Hc' & Hit & _).
    pose proof (bucket_after_add m key default_ Hc) as Hb'. rewrite Hb in Hb'.
    assert (Hsk : stored_key m key = key).
    { unfold stored_key. rewrite find_consistent by done. by rewrite Hb. }
    assert (Hsd : setdefault m key default_ = (Return default_, snd (add m key default_))).
    { unfold setdefault. rewrite getAllOrNull_consistent by done. rewrite Hb.
      destruct (add m key default_) as [r m']. simpl in Hr. by subst r. }
    rewrite Hsd. simpl. split.
    + split; [done|]. split; [done|]. split.
      * unfold items, OrderedDict.values. by rewrite Hit, fmap_app, Hsk.
      * rewrite getall_consistent by done. by rewrite Hb'.
    + intros d2. by apply (setdefault_present _ _ _ _ _ _ _ Hc' Hb').
  - rewrite (setdefault_present _ _ _ _ _ _ _ Hc Hb). simpl. split; [done|].
    intros d2. by apply (setdefault_present _ _ _ _ _ _ _ Hc Hb).
Qed.

(** X11.  [setdefaultAll] on a map that satisfies the invariant.  When
    the key has values it returns them all, oldest first, and changes
    nothing.  Otherwise it adds every value of the list under the key,
    in order and at the end, and returns the list; the values of the
    key are then that list. *)
Theorem setdefaultAll_returns_all_or_adds m key (defaultlist : list ObjectPtr) :
  consistent m ->
  exists vs,
    getall m key None = Return vs /\
    match vs with
    | _ :: _ => setdefaultAll m key defaultlist = (Return vs, m)
    | [] =>
        fst (setdefaultAll m key defaultlist) = Return defaultlist /\
        consistent (snd (setdefaultAll m key defaultlist)) /\
        items (snd (setdefaultAll m key defaultlist))
          = items m ++ ((fun v => (key, v)) <$> defaultlist) /\
        getall (snd (setdefaultAll m key defaultlist)) key None = Return defaultlist
    end.
Proof.
  intros Hc. eexists. split; [by apply getall_consistent|].
  destruct (bucket (py_hash key) (_items m)) as [|e b] eqn:Hb.
  - destruct (addAll_consistent m key defaultlist Hc) as (Hr & Hc' & Hit).
    assert (Hsk : stored_key m key = key).
    { unfold stored_key. rewrite find_consistent by done. by rewrite Hb. }
    assert (Hsd : setdefaultAll m key defaultlist
                  = (Return defaultlist, snd (addAll m key defaultlist))).
    { unfold setdefaultAll. rewrite getAllOrNull_consistent by done. rewrite Hb.
      destruct (addAll m key defaultlist) as [r m']. simpl in Hr. by subst r. }
    rewrite Hsd. simpl. rewrite Hsk in Hit.
    split; [done|]. split; [done|]. split; [done|].
    rewrite getall_items by done. rewrite Hit, filter_app, filter_hash_pairs.
    rewrite decide_True by done.
    assert (Hnone : filter (fun kv : Item => py_hash (fst kv) = py_hash key) (items m) = []).
    { pose proof (contains_items m key Hc) as Hci.
      rewrite contains_consistent, Hb in Hci by done.
      by destruct (filter _ (items m)). }
    rewrite Hnone. simpl. rewrite <- list_fmap_compose. by rewrite list_fmap_id.
  - rewrite fmap_cons. unfold setdefaultAll.
    rewrite getAllOrNull_consistent, getall_consistent by done. by rewrite Hb.
Qed.

(** X12.  [popFirstItem] on a map that satisfies the invariant.  On an
    empty map it returns the default, or raises the [KeyError] of
    [popitem] without one.  Otherwise it returns the first pair of
    [items()], which holds the oldest value of its key, and removes
    it: the rest of the items, the other values of that key and the
    other keys are untouched. *)
Theorem popFirstItem_oldest_entry m default_ :
  consistent m ->
  match items m with
  | [] =>
      popFirstItem m default_ =
        (match default_ with Some d => Return (inr d) | None => Raise KeyError_empty end, m)
  | it :: rest =>
      fst (popFirstItem m default_) = Return (inl it) /\
      consistent (snd (popFirstItem m default_)) /\
      items (snd (popFirstItem m default_)) = rest /\
      (exists vs,
          getall m (fst it) None = Return (snd it :: vs) /\
          getall (snd (popFirstItem m default_)) (fst it) None = Return vs) /\
      (forall k', py_hash k' <> py_hash (fst it) ->
         getall (snd (popFirstItem m default_)) k' None = getall m k' None)
  end.
Proof.
  intros Hc. pose proof (popFirstItem_consistent m default_ Hc) as Hp.
  unfold items, OrderedDict.values.
  destruct (_items m) as [|e l'] eqn:Hl; [done|].
  destruct Hp as (Hr & Hc' & Hit). rewrite fmap_cons.
  split; [done|]. split; [done|]. split; [by rewrite Hit|].
  assert (He : e ∈ _items m) by (rewrite Hl; left).
  assert (Hf : _items (snd (popFirstItem m default_))
               = filter (fun x : nat * Item => fst x <> fst e) (_items m)).
  { rewrite Hit, Hl. symmetry. apply filter_ne_cons. rewrite <- Hl.
    apply (slots_nodup _ Hc). }
  destruct (remove_entry_reads m _ e Hc Hc' He Hf) as (_ & Hother & _).
  split; [|done].
  eexists. rewrite !getall_consistent by done.
  rewrite Hit, Hl, bucket_cons, decide_True by done. rewrite fmap_cons. done.
Qed.

(** X13.  [popLastItem] on a map that satisfies the invariant.  On an
    empty map it returns the default, or raises the [KeyError] of
    [popitem] without one.  Otherwise it returns the last pair of
    [items()], which holds the newest value of its key, and removes
    it: the rest of the items, the older values of that key and the
    other keys are untouched. *)
Theorem popLastItem_newest_entry m default_ :
  consistent m ->
  match last (items m) with
  | None =>
      popLastItem m default_ =
        (match default_ with Some d => Return (inr d) | None => Raise KeyError_empty end, m)
  | Some it =>
      fst (popLastItem m default_) = Return (inl it) /\
      consistent (snd (popLastItem m default_)) /\
      items (snd (popLastItem m default_)) = removelast (items m) /\
      (exists vs,
          getall m (fst it) None = Return (vs ++ [snd it]) /\
          getall (snd (popLastItem m default_)) (fst it) None = Return vs) /\
      (forall k', py_hash k' <> py_hash (fst it) ->
         getall (snd (popLastItem m default_)) k' None = getall m k' None)
  end.
Proof.
  intros Hc. pose proof (popLastItem_consistent m default_ Hc) as Hp.
  unfold items, OrderedDict.values. rewrite fmap_last.
  destruct (last (_items m)) as [e|] eqn:Hlast; [|done].
  destruct Hp as (Hr & Hc' & Hit). simpl.
  apply last_Some in Hlast as [l' Hl].
  assert (Hrl : removelast (_items m) = l') by (rewrite Hl; apply removelast_last).
  split; [done|]. split; [done|].
  split; [by rewrite Hit, Hl, fmap_snoc, !removelast_last|].
  assert (He : e ∈ _items m) by (rewrite Hl; apply elem_of_app; right; left).
  assert (Hf : _items (snd (popLastItem m default_))
               = filter (fun x : nat * Item => fst x <> fst e) (_items m)).
  { rewrite Hit, Hrl, Hl. symmetry. apply filter_ne_snoc. rewrite <- Hl.
    apply (slots_nodup _ Hc). }
  destruct (remove_entry_reads m _ e Hc Hc' He Hf) as (_ & Hother & _).
  split; [|done].
  eexists. rewrite !getall_consistent by done.
  rewrite Hit, Hrl, Hl, bucket_app, bucket_cons, decide_True by done.
  rewrite fmap_app. done.
Qed.

(** ** Unique keys, length and truth value *)

Lemma keys_same_hash m (a b : ObjectPtr) :
  consistent m -> a ∈ keys m -> b ∈ keys m -> py_hash a = py_hash b -> a = b.
Proof.
  intros Hc Ha Hb Hh. unfold keys, items, OrderedDict.values in *.
  rewrite <- list_fmap_compose in Ha, Hb.
  apply list_elem_of_fmap in Ha as (ea & -> & Ha).
  apply list_elem_of_fmap in Hb as (eb & -> & Hb).
  by apply (keys_canonical _ Hc).
Qed.

Lemma hash_in_keys m h :
  consistent m -> h ∈ py_hash <$> keys m <-> is_Some (_map m !! h).
Proof.
  intros Hc. rewrite (index_exact _ Hc). split.
  - intros Hh. apply list_elem_of_fmap in Hh as (k & -> & Hk).
    unfold keys, items, OrderedDict.values in Hk. rewrite <- list_fmap_compose in Hk.
    apply list_elem_of_fmap in Hk as (e & -> & He).
    assert (Hb : e ∈ bucket (py_hash (fst (snd e))) (_items m))
      by (by apply elem_of_bucket).
    destruct (bucket _ _); [by apply elem_of_nil in Hb|]. by eexists.
  - intros [node Hn]. destruct (bucket h (_items m)) as [|e b] eqn:Hb; [discriminate|].
    assert (He : e ∈ bucket h (_items m)) by (rewrite Hb; left).
    apply elem_of_bucket in He as [<- He].
    apply list_elem_of_fmap_2. unfold keys, items, OrderedDict.values.
    rewrite <- list_fmap_compose. by apply (list_elem_of_fmap_2 (fun e => fst (snd e))).
Qed.

Lemma uniqueKeys_hashes m :
  consistent m ->
  NoDup (py_hash <$> uniqueKeys m) /\
  forall h, h ∈ py_hash <$> uniqueKeys m <-> h ∈ py_hash <$> keys m.
Proof.
  intros Hc.
  destruct (unique_gen_each_key_once (keys m)) as (Hsub & Hcov & Hpair & _).
  change (unique_gen [] (keys m)) with (uniqueKeys m) in *.
  assert (Hin : forall x, x ∈ uniqueKeys m -> x ∈ keys m)
    by (intros x Hx; by eapply elem_of_sublist).
  split.
  - apply NoDup_alt. intros i j h Hi Hj.
    apply list_lookup_fmap_Some in Hi as (x & -> & Hx).
    apply list_lookup_fmap_Some in Hj as (y & Hh & Hy).
    assert (Hxy : x = y).
    { apply (keys_same_hash m); [done| | |done];
        apply Hin, list_elem_of_lookup; eauto. }
    subst y.
    destruct (Nat.lt_trichotomy i j) as [Hlt|[Heq|Hgt]]; [|done|].
    + pose proof (Hpair i j x x Hx Hy Hlt) as Hs. by rewrite same_key_refl in Hs.
    + pose proof (Hpair j i x x Hy Hx Hgt) as Hs. by rewrite same_key_refl in Hs.
  - intros h. split.
    + intros Hh. apply list_elem_of_fmap in Hh as (x & -> & Hx).
      by apply list_elem_of_fmap_2, Hin.
    + intros Hh. apply list_elem_of_fmap in Hh as (k & -> & Hk).
      destruct (Hcov k Hk) as (e & He & Hs).
      unfold same_key in Hs. apply andb_true_iff in Hs as [Hs _].
      apply Z.eqb_eq in Hs. rewrite <- Hs. by apply list_elem_of_fmap_2.
Qed.

(** X14.  On a map that satisfies the invariant the unique-keys view
    is coherent: iterating it yields as many keys as its [__len__]
    (the size of the key index) reports, no two of them hash alike,
    and its [__contains__] (the [__contains__] of the map) is true of
    a key exactly when one of the yielded keys hashes like it. *)
Theorem uniqueKeys_view_coherent m :
  consistent m ->
  length (uniqueKeys m) = uniqueKeys_len m /\
  NoDup (py_hash <$> uniqueKeys m) /\
  forall key, contains m key = true <->
              exists k', k' ∈ uniqueKeys m /\ py_hash k' = py_hash key.
Proof.
  intros Hc. destruct (uniqueKeys_hashes m Hc) as [Hnd Hhs].
  split; [|split; [done|]].
  - unfold uniqueKeys_len. rewrite <- (length_fmap py_hash).
    rewrite <- (size_list_to_set (C:=gset Z)) by done.
    rewrite <- (size_dom (D:=gset Z) (_map m)). f_equal.
    apply set_eq. intros h.
    rewrite elem_of_list_to_set, elem_of_dom, Hhs. by apply hash_in_keys.
  - intros key. unfold contains, find. split.
    + intros Hin.
      assert (Hs : is_Some (_map m !! py_hash key))
        by (destruct (_map m !! py_hash key); [by eexists|done]).
      apply (hash_in_keys m _ Hc), Hhs in Hs.
      apply list_elem_of_fmap in Hs as (k' & Hh & Hk'). by exists k'.
    + intros (k' & Hk' & Hh).
      assert (Hs : py_hash key ∈ py_hash <$> uniqueKeys m)
        by (rewrite <- Hh; by apply list_elem_of_fmap_2).
      apply Hhs, (hash_in_keys m _ Hc) in Hs as [node Hn]. by rewrite Hn.
Qed.

(** X15.  On a map that satisfies the invariant the truth value of the
    map, which looks at the key index, agrees with its length, which
    looks at the ledger: [bool(map)] is true exactly when
    [len(map) > 0], and an empty map contains no key. *)
Theorem nonzero_agrees_with_len m :
  consistent m ->
  __nonzero__ m = negb (Nat.eqb (__len__ m) 0) /\
  (__len__ m = 0 -> forall key, contains m key = false).
Proof.
  intros Hc. unfold __nonzero__, __len__. split.
  - f_equal. destruct (_items m) as [|e l'] eqn:Hl; simpl.
    + assert (Hm : _map m = ∅).
      { apply map_eq. intros h. rewrite (index_exact _ Hc), Hl. by rewrite lookup_empty. }
      by rewrite Hm, map_size_empty.
    + apply Nat.eqb_neq. apply map_size_non_empty_iff. intros Hm.
      pose proof (index_exact _ Hc (py_hash (fst (snd e)))) as Hix.
      rewrite Hm, lookup_empty, Hl, bucket_cons, decide_True in Hix by done.
      discriminate.
  - intros Hlen key. rewrite contains_consistent by done.
    destruct (_items m); [done|discriminate].
Qed.

(** ** Equality *)

(** X16.  [==] on two maps compares their item sequences position by
    position, each key and each value by identity or [==]: it is true
    exactly when the sequences have the same length and agree
    pairwise, so maps of different lengths are never equal, every map
    equals itself, and [!=] is the negation. *)
Theorem eq_is_pairwise_on_items m other :
  (__eq__ m other = true <->
   Forall2 (fun i1 i2 : Item =>
              rich_eq (fst i1) (fst i2) = true /\ rich_eq (snd i1) (snd i2) = true)
           (items m) (items other)) /\
  (__eq__ m other = true -> __len__ m = __len__ other) /\
  __eq__ m m = true /\
  __ne__ m other = negb (__eq__ m other).
Proof.
  assert (Hchar : forall l1 l2 : list Item,
             zip_longest_eq l1 l2 = true <->
             Forall2 (fun i1 i2 : Item =>
                        rich_eq (fst i1) (fst i2) = true /\
                        rich_eq (snd i1) (snd i2) = true) l1 l2).
  { induction l1 as [|a l1 IH]; intros [|c l2]; simpl.
    - split; [constructor|done].
    - split; [discriminate|]. intros Hf. inversion Hf.
    - split; [discriminate|]. intros Hf. inversion Hf.
    - unfold item_ne.
      destruct (rich_eq (fst a) (fst c) && rich_eq (snd a) (snd c)) eqn:Hac; simpl.
      + apply andb_true_iff in Hac. rewrite IH. split.
        * intros Hf. by constructor.
        * intros Hf. by inversion Hf.
      + split; [discriminate|]. intros Hf. inversion Hf as [|? ? ? ? [H1 H2]]; subst.
        by rewrite H1, H2 in Hac. }
  split; [apply Hchar|]. split; [|split; [apply zip_longest_eq_refl|done]].
  intros Heq. apply Hchar, Forall2_length in Heq.
  unfold __len__, items, OrderedDict.values in *. by rewrite !length_fmap in Heq.
Qed.

(** ** The ledger along any sequence of calls *)

Section LedgerInvariant.

(** A property of the slot ids and the counter that survives removing
    entries, appending the counter as a new slot, and renumbering. *)
Variable P : list nat -> nat -> Prop.
Hypothesis P_shrink :
  forall ids ids' idx idx', P ids idx -> ids' `sublist_of` ids -> idx <= idx' -> P ids' idx'.
Hypothesis P_fresh : forall ids idx, P ids idx -> idx ∉ ids.
Hypothesis P_snoc : forall ids idx, P ids idx -> P (ids ++ [idx]) (S idx).
Hypothesis P_seq : forall ids idx, P ids idx -> P (seq 0 (length ids)) idx.
Hypothesis P_init : P [] 0.

Lemma ledger_shrink (l l' : list (nat * Item)) idx idx' :
  P (fst <$> l) idx -> l' `sublist_of` l -> idx <= idx' -> P (fst <$> l') idx'.
Proof. intros HP Hsub Hle. eapply P_shrink; [exact HP| |done]. by apply fmap_sublist. Qed.

Lemma ledger_set (l : list (nat * Item)) idx x :
  P (fst <$> l) idx -> P (fst <$> OrderedDict.set l idx x) (S idx).
Proof.
  intros HP. rewrite od_set_fresh by (by apply P_fresh).
  rewrite fmap_app. by apply P_snoc.
Qed.

Lemma add_ledger m key value :
  P (fst <$> _items m) (_index m) ->
  P (fst <$> _items (snd (add m key value))) (_index (snd (add m key value))).
Proof.
  intros HP. destruct m as [l mp idx]. unfold add. simpl in *.
  destruct (default (key, []) (find (mkOMD l mp idx) key)) as [k0 [|[ki vi] vs]];
    simpl.
  - by apply ledger_set.
  - destruct (OrderedDict.get l ki) as [[k' v']|]; simpl.
    + by apply ledger_set.
    + eapply P_shrink; [exact HP|done|lia].
Qed.

Lemma addAll_ledger m key valuelist :
  P (fst <$> _items m) (_index m) ->
  P (fst <$> _items (snd (addAll m key valuelist)))
    (_index (snd (addAll m key valuelist))).
Proof.
  revert m. induction valuelist as [|v vs IH]; intros m HP; simpl; [done|].
  pose proof (add_ledger m key v HP) as HP'.
  destruct (add m key v) as [[[]|e] m']; simpl in *; [by apply IH|done].
Qed.

Lemma extend_ledger m keyValuelist :
  P (fst <$> _items m) (_index m) ->
  P (fst <$> _items (snd (extend m keyValuelist)))
    (_index (snd (extend m keyValuelist))).
Proof.
  revert m. induction keyValuelist as [|[k v] kvs IH]; intros m HP; simpl; [done|].
  pose proof (add_ledger m k v HP) as HP'.
  destruct (add m k v) as [[[]|e] m']; simpl in *; [by apply IH|done].
Qed.

Lemma tryDeleteAll_ledger m key :
  P (fst <$> _items m) (_index m) ->
  P (fst <$> _items (snd (_tryDeleteAll m key))) (_index (snd (_tryDeleteAll m key))).
Proof.
  intros HP. unfold _tryDeleteAll.
  destruct (getAllOrNull m key) as [[|vs]|e]; simpl; try done.
  pose proof (del_slots_sublist (_items m) vs) as Hsub.
  destruct (del_slots (_items m) vs) as [[[]|e] l']; simpl in *;
    by eapply ledger_shrink.
Qed.

Lemma setAll_ledger m key (valueList : list ObjectPtr) :
  P (fst <$> _items m) (_index m) ->
  P (fst <$> _items (snd (setAll m key valueList)))
    (_index (snd (setAll m key valueList))).
Proof.
  intros HP. unfold setAll.
  pose proof (tryDeleteAll_ledger m key HP) as HP'.
  destruct (_tryDeleteAll m key) as [[b|e] m']; simpl in *; [|done].
  by apply addAll_ledger.
Qed.

Lemma popLast_ledger m key default_ :
  P (fst <$> _items m) (_index m) ->
  P (fst <$> _items (snd (popLast m key default_)))
    (_index (snd (popLast m key default_))).
Proof.
  intros HP. unfold popLast.
  destruct (getAllOrNull m key) as [[|vs]|e]; simpl;
    try done; try (by destruct default_).
  destruct (last vs) as [[i v]|]; simpl; [|done].
  destruct (OrderedDict.del (_items m) i) as [l'|] eqn:Hd; simpl; [|done].
  eapply ledger_shrink; [exact HP| |done]. by eapply od_del_sublist.
Qed.

Lemma perform_ledger m c :
  P (fst <$> _items m) (_index m) ->
  P (fst <$> _items (perform m c)) (_index (perform m c)).
Proof.
  intros HP. destruct c; simpl.
  - by apply add_ledger.
  - by apply addAll_ledger.
  - by apply extend_ledger.
  - by apply setAll_ledger.
  - unfold setdefault.
    destruct (getAllOrNull m key) as [[|[|[i v] vs]]|e]; simpl; try done.
    pose proof (add_ledger m key default_ HP) as HP'.
    by destruct (add m key default_) as [[[]|e] m'].
  - unfold setdefaultAll.
    destruct (getAllOrNull m key) as [[|vs]|e]; simpl; try done.
    pose proof (addAll_ledger m key defaultlist HP) as HP'.
    by destruct (addAll m key defaultlist) as [[[]|e] m'].
  - unfold popFirst.
    destruct (getAllOrNull m key) as [[|[|[i v] vs]]|e]; simpl;
      try done; try (by destruct default_).
    destruct (OrderedDict.del (_items m) i) as [l'|] eqn:Hd; simpl; [|done].
    eapply ledger_shrink; [exact HP| |done]. by eapply od_del_sublist.
  - by apply popLast_ledger.
  - unfold popAll_call, popAll.
    destruct (getAllOrNull m key) as [[|vs]|e]; simpl; try done.
    + by destruct default_ as [|[|d]].
    + pose proof (del_slots_sublist (_items m) vs) as Hsub.
      destruct (del_slots (_items m) vs) as [[[]|e] l']; simpl in *;
        by eapply ledger_shrink.
  - unfold popFirstItem.
    destruct (OrderedDict.popitem (_items m) false) as [[[i item] l']|] eqn:Hp;
      [|by destruct default_].
    apply popitem_sublist in Hp.
    destruct (getAllOrNull _ _) as [[|vs]|e]; simpl; by eapply ledger_shrink.
  - unfold popLastItem.
    destruct (OrderedDict.popitem (_items m) true) as [[[i item] l']|] eqn:Hp;
      [|by destruct default_].
    apply popitem_sublist in Hp.
    destruct (getAllOrNull _ _) as [[|vs]|e]; simpl; by eapply ledger_shrink.
  - unfold deleteAll.
    pose proof (tryDeleteAll_ledger m key HP) as HP'.
    by destruct (_tryDeleteAll m key) as [[[|]|e] m'].
  - exact P_init.
  - apply extend_ledger. exact P_init.
  - unfold sort, OrderedDict.of_enumerate. simpl.
    rewrite fst_zip by (by rewrite length_seq).
    unfold OrderedDict.values. rewrite sorted_length, length_fmap.
    rewrite <- (length_fmap fst). by apply P_seq.
  - by apply popLast_ledger.
  - by apply setAll_ledger.
  - rewrite (proj1 (delitem_popLast m key)). by apply popLast_ledger.
  - unfold __setstate__. apply extend_ledger. simpl.
    eapply P_shrink; [exact HP|apply sublist_nil_l|done].
Qed.

End LedgerInvariant.

Lemma StronglySorted_sublist {A : Type} (R : A -> A -> Prop) (l l' : list A) :
  StronglySorted R l -> l' `sublist_of` l -> StronglySorted R l'.
Proof.
  intros Hs. revert l'. induction Hs as [|a l Hs IH Ha]; intros l' Hsub.
  - apply sublist_nil_r in Hsub. subst. constructor.
  - apply sublist_cons_r in Hsub as [Hsub|(l'' & -> & Hsub)]; [by apply IH|].
    constructor; [by apply IH|].
    apply Forall_forall. intros x Hx. eapply Forall_forall; [exact Ha|].
    by eapply elem_of_sublist.
Qed.

Lemma StronglySorted_seq j n : StronglySorted Nat.lt (seq j n).
Proof.
  revert j. induction n as [|n IH]; intros j; simpl; constructor; [apply IH|].
  apply Forall_forall. intros x Hx. apply elem_of_seq in Hx. unfold Nat.lt. lia.
Qed.

Lemma StronglySorted_lt_NoDup (ids : list nat) :
  StronglySorted Nat.lt ids -> NoDup ids.
Proof.
  induction 1 as [|a l Hs IH Ha]; constructor; [|done].
  intros Hin. eapply Forall_forall in Ha; [|exact Hin]. unfold Nat.lt in Ha. lia.
Qed.

(** X17.  As long as the counter has not gone beyond [SIZE_MAX]: after
    any sequence of public calls, [sort] and [__setstate__] included,
    the slot ids of the ledger ascend strictly, are below the counter
    and fit in a [size_t]; so an [add] that returns has appended one
    pair at the end of [items()] and has overwritten no entry.  The
    pair holds the value given and the key object the ledger has in
    the first slot of the key's node, which is the key given when the
    key is not in the map; an [add] that raises leaves [items()] as it
    was. *)
Theorem ledger_slots_ascend bits cs :
  counter_within bits cs ->
  slots_ascending (run cs) /\
  (forall e : nat * Item, e ∈ _items (run cs) -> (Z.of_nat (fst e) < SIZE_MAX bits)%Z) /\
  forall key value,
    (fst (add (run cs) key value) = Return tt ->
     items (snd (add (run cs) key value))
       = items (run cs) ++ [(ledger_key (run cs) key, value)]) /\
    (contains (run cs) key = false ->
     fst (add (run cs) key value) = Return tt /\ ledger_key (run cs) key = key) /\
    (forall exc, fst (add (run cs) key value) = Raise exc ->
                 items (snd (add (run cs) key value)) = items (run cs)).
Proof.
  intros Hcw.
  assert (Hgen : StronglySorted Nat.lt (fst <$> _items (run cs)) /\
                 forall i, i ∈ fst <$> _items (run cs) -> i < _index (run cs)).
  { clear Hcw. unfold run.
    assert (Hfold : forall m,
               (StronglySorted Nat.lt (fst <$> _items m) /\
                forall i, i ∈ fst <$> _items m -> i < _index m) ->
               StronglySorted Nat.lt (fst <$> _items (foldl perform m cs)) /\
               forall i, i ∈ fst <$> _items (foldl perform m cs) ->
                         i < _index (foldl perform m cs)).
    { induction cs as [|c cs IH]; intros m HP; simpl; [done|].
      apply IH.
      apply (perform_ledger
               (fun ids idx => StronglySorted Nat.lt ids /\ forall i, i ∈ ids -> i < idx));
        [| | | | |exact HP].
      - intros ids ids' idx idx' [Hs Hb] Hsub Hle. split.
        + by eapply StronglySorted_sublist.
        + intros i Hi. eapply elem_of_sublist in Hi; [|exact Hsub].
          apply Hb in Hi. lia.
      - intros ids idx [_ Hb] Hin. apply Hb in Hin. lia.
      - intros ids idx [Hs Hb]. split.
        + apply StronglySorted_app_2; [|done|repeat constructor].
          intros x1 x2 H1 H2. apply list_elem_of_singleton in H2. subst.
          by apply Hb.
        + intros i Hi. apply elem_of_app in Hi as [Hi|Hi].
          * apply Hb in Hi. lia.
          * apply list_elem_of_singleton in Hi. lia.
      - intros ids idx [Hs Hb]. split; [apply StronglySorted_seq|].
        intros i Hi. apply elem_of_seq in Hi.
        assert (length ids <= idx); [|lia].
        rewrite <- (length_seq idx 0).
        apply submseteq_length, NoDup_submseteq; [by apply StronglySorted_lt_NoDup|].
        intros x Hx. apply elem_of_seq. apply Hb in Hx. lia.
      - split; [constructor|]. intros i Hi. by apply elem_of_nil in Hi. }
    apply Hfold. simpl. split; [constructor|].
    intros i Hi. by apply elem_of_nil in Hi. }
  destruct Hgen as [Hs Hb].
  assert (Hfr : forall e : nat * Item, e ∈ _items (run cs) -> fst e < _index (run cs))
    by (intros e He; by apply Hb, list_elem_of_fmap_2).
  split; [by split|]. split.
  { intros e He. apply Hfr in He. pose proof (Hcw (length cs)) as Hmax.
    rewrite firstn_all in Hmax. lia. }
  intros key value.
  assert (Hfresh : _index (run cs) ∉ fst <$> _items (run cs)).
  { intros Hi. apply Hb in Hi. lia. }
  unfold add, ledger_key, contains.
  destruct (find (run cs) key) as [[k0 [|[ki vi] vs]]|]; simpl.
  - split; [|split; [done|discriminate]].
    intros _. unfold items, OrderedDict.values. simpl.
    by rewrite od_set_fresh, fmap_app.
  - destruct (OrderedDict.get (_items (run cs)) ki) as [[k' v']|]; simpl.
    + split; [|split; [done|discriminate]].
      intros _. unfold items, OrderedDict.values. simpl.
      by rewrite od_set_fresh, fmap_app.
    + split; [discriminate|]. split; [discriminate|]. done.
  - split; [|split; [done|discriminate]].
    intros _. unfold items, OrderedDict.values. simpl.
    by rewrite od_set_fresh, fmap_app.
Qed.

(** ** Errors of a bad state *)




(** ** Pickling *)

(** X19.  The pickle round trip.  [__setstate__] on a new object (its
    key index is empty after [__cinit__]) with the [__getstate__] of a
    map that satisfies the invariant never raises and gives a map that
    satisfies the invariant, has the same items in the same order,
    compares [==] to the original and answers [getall] and [in] alike
    for every key; the slot ids are renumbered from the counter of the
    new object on. *)
Theorem getstate_setstate_round_trip m0 m :
  _map m0 = ∅ ->
  consistent m ->
  fst (__setstate__ m0 (__getstate__ m)) = Return tt /\
  consistent (snd (__setstate__ m0 (__getstate__ m))) /\
  items (snd (__setstate__ m0 (__getstate__ m))) = items m /\
  __eq__ (snd (__setstate__ m0 (__getstate__ m))) m = true /\
  (forall key,
      getall (snd (__setstate__ m0 (__getstate__ m))) key None = getall m key None /\
      contains (snd (__setstate__ m0 (__getstate__ m))) key = contains m key) /\
  fst <$> _items (snd (__setstate__ m0 (__getstate__ m)))
    = seq (_index m0) (__len__ m).
Proof.
  intros Hmap Hc. unfold __setstate__, __getstate__. rewrite Hmap.
  change (OrderedDict.values (_items m)) with (items m).
  set (ms := mkOMD [] ∅ (_index m0)).
  assert (Hcs : consistent ms).
  { split; simpl.
    - constructor.
    - intros e He. by apply elem_of_nil in He.
    - intros e1 e2 He. by apply elem_of_nil in He.
    - intros h. apply lookup_empty. }
  destruct (extend_consistent ms (items m) Hcs) as [Hret Hc'].
  assert (Hit : items (snd (extend ms (items m))) = items m).
  { rewrite extend_canonical; [done|done|].
    simpl. intros x y Hx Hy Hh.
    apply list_elem_of_fmap in Hx as (ex & -> & Hx).
    apply list_elem_of_fmap in Hy as (ey & -> & Hy).
    by apply (keys_canonical _ Hc). }
  split; [done|]. split; [done|]. split; [done|].
  split; [unfold __eq__; rewrite Hit; apply zip_longest_eq_refl|].
  split.
  - intros key. split.
    + by rewrite !getall_items, Hit by done.
    + by rewrite !contains_items, Hit by done.
  - destruct (extend_items_canonical ms (items m) Hcs) as [_ Hids].
    rewrite Hids. simpl. unfold __len__, items, OrderedDict.values.
    by rewrite length_fmap.
Qed.

(** ** Sorting *)

Lemma stable_sort_of_Sorted {A K : Type} (key : A -> K) (lt : K -> K -> bool)
    (xs : list A) :
  Sorted (fun x y => lt (key y) (key x) = false) xs -> stable_sort key lt xs = xs.
Proof.
  induction 1 as [|x xs Hs IH Hhd]; [done|].
  unfold stable_sort in *. simpl. rewrite IH.
  destruct Hhd as [|y ys Hy]; simpl; [done|]. by rewrite Hy.
Qed.

Lemma sorted_idempotent {A K : Type} (key : A -> K) (lt : K -> K -> bool)
    (reverse_ : bool) (xs : list A) :
  (forall x y : K, lt x y = true -> lt y x = false) ->
  sorted key lt reverse_ (sorted key lt reverse_ xs) = sorted key lt reverse_ xs.
Proof.
  intros Hasym. unfold sorted. destruct reverse_.
  - rewrite reverse_involutive. f_equal.
    apply stable_sort_of_Sorted. by apply stable_sort_Sorted.
  - apply stable_sort_of_Sorted. by apply stable_sort_Sorted.
Qed.

Lemma values_of_enumerate (xs : list Item) :
  OrderedDict.values (OrderedDict.of_enumerate xs) = xs.
Proof.
  unfold OrderedDict.values, OrderedDict.of_enumerate.
  apply snd_zip. by rewrite length_seq.
Qed.

(** X20.  [sort] on any state: the items are permuted, none is lost or
    added, the slot ids become [0 .. len-1], the key index and the
    counter are the objects from before the call, so every read that
    goes through the key index ([in], [getall]) answers as before.
    When [<] on the sort keys is a strict weak order the items end up
    in ascending order ([reverse=True]: descending), items with the
    same sort key keep their order, and sorting again changes
    nothing. *)
Theorem sort_permutes_ledger_only {K : Type} `{!EqDecision K} m
    (key : Item -> K) (lt : K -> K -> bool) (reverse_ : bool) :
  items (sort m key lt reverse_) ≡ₚ items m /\
  __len__ (sort m key lt reverse_) = __len__ m /\
  fst <$> _items (sort m key lt reverse_) = seq 0 (__len__ m) /\
  _map (sort m key lt reverse_) = _map m /\
  _index (sort m key lt reverse_) = _index m /\
  (forall k d,
      contains (sort m key lt reverse_) k = contains m k /\
      getall (sort m key lt reverse_) k d = getall m k d) /\
  (strict_weak_order lt ->
     (if reverse_
      then Sorted (fun x y => lt (key x) (key y) = false) (items (sort m key lt reverse_))
      else Sorted (fun x y => lt (key y) (key x) = false) (items (sort m key lt reverse_))) /\
     (forall c, filter (fun kv => key kv = c) (items (sort m key lt reverse_))
                = filter (fun kv => key kv = c) (items m)) /\
     sort (sort m key lt reverse_) key lt reverse_ = sort m key lt reverse_).
Proof.
  destruct (sort_ledger m key lt reverse_) as (Hit & Hids & Hmap).
  split; [rewrite Hit; apply sorted_Permutation|].
  split.
  { unfold __len__. rewrite <- !(length_fmap fst), Hids. by rewrite length_seq, length_fmap. }
  split; [done|]. split; [done|]. split; [done|].
  split; [done|].
  intros (Hirr & Htrans & _).
  assert (Hasym : forall x y : K, lt x y = true -> lt y x = false).
  { intros x y Hxy. destruct (lt y x) eqn:Hyx; [|done].
    pose proof (Htrans x y x Hxy Hyx) as Hxx. by rewrite Hirr in Hxx. }
  split; [|split].
  - rewrite Hit. pose proof (sorted_Sorted key lt reverse_ (items m) Hasym) as Hs.
    by destruct reverse_.
  - intros c. rewrite Hit. by apply sorted_stable.
  - unfold sort. simpl. f_equal. f_equal.
    rewrite values_of_enumerate. by apply sorted_idempotent.
Qed.

(** ** Keys that hash alike *)

(** X21.  The two functors the key index is built with look at the hash
    only: [PyObjectPtrHashEqual] is the equivalence "same
    [PyObject_Hash]", whatever [==] says.  On any state two keys it
    equates are interchangeable for every read and, as long as the
    call does not raise [KeyError] (a default is supplied or the key
    is in the map), for every call that removes: same result, same
    state after.  For [add] this needs the key to be in the map with
    a value, since an absent key is stored as the object given. *)
Theorem hash_equal_keys_interchangeable m k1 k2 :
  PyObjectPtrHashEqual k1 k2 = true ->
  PyObjectPtrHash k1 = PyObjectPtrHash k2 /\
  PyObjectPtrHashEqual k2 k1 = true /\
  (forall k3, PyObjectPtrHashEqual k2 k3 = true -> PyObjectPtrHashEqual k1 k3 = true) /\
  find m k1 = find m k2 /\
  contains m k1 = contains m k2 /\
  (forall d, get m k1 d = get m k2 d /\ getFirst m k1 d = getFirst m k2 d /\
             getLast m k1 d = getLast m k2 d) /\
  (forall d, getall m k1 d = getall m k2 d) /\
  (forall d, popFirst m k1 (Some d) = popFirst m k2 (Some d) /\
             popLast m k1 (Some d) = popLast m k2 (Some d)) /\
  (forall d, popAll m k1 (PyList d) = popAll m k2 (PyList d)) /\
  _tryDeleteAll m k1 = _tryDeleteAll m k2 /\
  (contains m k1 = true ->
     (forall d, popFirst m k1 d = popFirst m k2 d /\ popLast m k1 d = popLast m k2 d) /\
     (forall d, popAll m k1 d = popAll m k2 d) /\
     deleteAll m k1 = deleteAll m k2 /\
     (forall d, setdefault m k1 d = setdefault m k2 d) /\
     (forall d, setdefaultAll m k1 d = setdefaultAll m k2 d)) /\
  (forall v, (exists v0 vs, getall m k1 None = Return (v0 :: vs)) ->
             add m k1 v = add m k2 v).
Proof.
  unfold PyObjectPtrHashEqual, PyObjectPtrHash. intros Hh. apply Z.eqb_eq in Hh.
  split; [done|]. split; [by apply Z.eqb_eq|].
  split; [intros k3 H3; apply Z.eqb_eq in H3; apply Z.eqb_eq; congruence|].
  assert (Hfind : find m k1 = find m k2) by (unfold find; by rewrite Hh).
  assert (Hget : getAllOrNull m k1 = getAllOrNull m k2)
    by (unfold getAllOrNull; by rewrite Hfind).
  assert (Hstore : forall mp vs, store mp k1 vs = store mp k2 vs)
    by (intros; unfold store; by rewrite Hh).
  assert (Herase : forall mp, erase mp k1 = erase mp k2)
    by (intros; unfold erase; by rewrite Hh).
  assert (Hee : forall mp vs, erase_if_empty mp k1 vs = erase_if_empty mp k2 vs)
    by (intros mp [|? ?]; simpl; [apply Herase|done]).
  assert (Htry : _tryDeleteAll m k1 = _tryDeleteAll m k2).
  { unfold _tryDeleteAll. rewrite Hget.
    destruct (getAllOrNull m k2) as [[|vs]|]; try done.
    destruct (del_slots _ _) as [[|] ?]; by rewrite ?Herase. }
  assert (HpF : forall d, (contains m k1 = true \/ is_Some d) ->
                          popFirst m k1 d = popFirst m k2 d).
  { intros d Hd. unfold popFirst. rewrite Hget.
    unfold contains, getAllOrNull in *. rewrite Hfind in *.
    destruct (find m k2) as [[k0 [|[i v] vs]]|]; try done.
    - rewrite Hstore. destruct (OrderedDict.del _ _); by rewrite ?Hee.
    - destruct Hd as [|[x ->]]; [discriminate|done]. }
  assert (HpL : forall d, (contains m k1 = true \/ is_Some d) ->
                          popLast m k1 d = popLast m k2 d).
  { intros d Hd. unfold popLast. rewrite Hget.
    unfold contains, getAllOrNull in *. rewrite Hfind in *.
    destruct (find m k2) as [[k0 [|e vs]]|]; try done.
    - destruct (last (e :: vs)) as [[i v]|]; [|done].
      rewrite Hstore. destruct (OrderedDict.del _ _); by rewrite ?Hee.
    - destruct Hd as [|[x ->]]; [discriminate|done]. }
  assert (HpA : forall d, (contains m k1 = true \/ exists ds : list ObjectPtr, d = PyList ds) ->
                          popAll m k1 d = popAll m k2 d).
  { intros d Hd. unfold popAll. rewrite Hget.
    unfold contains, getAllOrNull in *. rewrite Hfind in *.
    destruct (find m k2) as [[k0 [|e vs]]|]; try done.
    - destruct (del_slots _ _) as [[|] ?]; by rewrite ?Herase.
    - destruct Hd as [|[x ->]]; [discriminate|done]. }
  split; [done|]. split; [unfold contains; by rewrite Hfind|].
  split; [intros d; unfold get, getFirst, getLast; by rewrite Hget|].
  split; [intros d; unfold getall; by rewrite Hget|].
  split; [intros d; split; [apply HpF|apply HpL]; right; by eexists|].
  split; [intros d; apply HpA; right; by eexists|].
  split; [done|]. split.
  - intros Hin. split; [intros d; split; [apply HpF|apply HpL]; by left|].
    split; [intros d; apply HpA; by left|].
    split; [unfold deleteAll; rewrite Htry|].
    { unfold _tryDeleteAll, contains, getAllOrNull in *. rewrite <- Hfind.
      destruct (find m k1) as [[k0 [|e vs]]|]; try done.
      by destruct (del_slots _ _) as [[|] ?]. }
    unfold setdefault, setdefaultAll, getall. rewrite Hget.
    unfold contains, getAllOrNull in *. rewrite <- Hfind.
    by destruct (find m k1) as [[k0 [|e vs]]|].
  - intros v (v0 & vs & Hv). unfold add. rewrite <- Hfind, Hh.
    unfold getall, getAllOrNull in Hv.
    destruct (find m k1) as [[k0 [|[i x] b]]|]; try discriminate. simpl.
    done.
Qed.

(** ** The views *)

Lemma each_key_once_canonical (ks out : list ObjectPtr) :
  (forall x y : ObjectPtr, x ∈ ks -> y ∈ ks -> py_hash x = py_hash y -> x = y) ->
  each_key_once ks out ->
  NoDup out /\ forall x, x ∈ out <-> x ∈ ks.
Proof.
  intros Hcan (Hsub & Hcov & Hpair & _).
  assert (Hin : forall x, x ∈ out -> x ∈ ks)
    by (intros x Hx; by eapply elem_of_sublist).
  split.
  - apply NoDup_alt. intros i j x Hi Hj.
    destruct (Nat.lt_trichotomy i j) as [Hlt|[Heq|Hgt]]; [|done|].
    + pose proof (Hpair i j x x Hi Hj Hlt) as Hs. by rewrite same_key_refl in Hs.
    + pose proof (Hpair j i x x Hj Hi Hgt) as Hs. by rewrite same_key_refl in Hs.
  - intros x. split; [apply Hin|]. intros Hx.
    destruct (Hcov x Hx) as (e & He & Hs).
    unfold same_key in Hs. apply andb_true_iff in Hs as [Hs _].
    apply Z.eqb_eq in Hs.
    by rewrite <- (Hcan e x (Hin e He) Hx Hs).
Qed.

(** X22.  The views.  On any state the reversed items, keys and values
    views are the reverses of the forward ones, keys and values zip
    back to the items, and each view has the length [__len__] reports.
    [reversed(uniqueKeys())] is not the reverse of [uniqueKeys()] (it
    orders the keys by their last occurrence), but on a map that
    satisfies the invariant it yields the same key objects, each
    once. *)
Theorem views_agree m :
  items_reversed m = reverse (items m) /\
  keys_reversed m = reverse (keys m) /\
  values_reversed m = reverse (values m) /\
  zip (keys m) (values m) = items m /\
  length (items m) = __len__ m /\
  length (keys m) = __len__ m /\
  length (values m) = __len__ m /\
  (consistent m ->
     NoDup (uniqueKeys m) /\
     (forall k, k ∈ uniqueKeys m <-> k ∈ keys m) /\
     uniqueKeys_reversed m ≡ₚ uniqueKeys m).
Proof.
  unfold items_reversed, keys_reversed, values_reversed, keys, values, __len__.
  change (OrderedDict.values (_items m)) with (items m).
  split; [done|]. split; [by rewrite fmap_reverse|]. split; [by rewrite fmap_reverse|].
  split; [apply zip_fst_snd|].
  split; [unfold items, OrderedDict.values; by rewrite length_fmap|].
  split; [unfold items, OrderedDict.values; by rewrite !length_fmap|].
  split; [unfold items, OrderedDict.values; by rewrite !length_fmap|].
  intros Hc.
  assert (Hcan : forall x y : ObjectPtr,
             x ∈ keys m -> y ∈ keys m -> py_hash x = py_hash y -> x = y)
    by (intros x y; by apply keys_same_hash).
  destruct (each_key_once_canonical (keys m) (uniqueKeys m) Hcan
              (unique_gen_each_key_once (keys m))) as [Hnd Hel].
  assert (Hcanr : forall x y : ObjectPtr,
             x ∈ reverse (keys m) -> y ∈ reverse (keys m) ->
             py_hash x = py_hash y -> x = y).
  { intros x y Hx Hy. rewrite elem_of_reverse in Hx, Hy. by apply Hcan. }
  assert (Hrev : uniqueKeys_reversed m = unique_gen [] (reverse (keys m))).
  { unfold uniqueKeys_reversed, keys. by rewrite fmap_reverse. }
  destruct (each_key_once_canonical (reverse (keys m)) (uniqueKeys_reversed m) Hcanr)
    as [Hndr Helr].
  { rewrite Hrev. apply unique_gen_each_key_once. }
  split; [done|]. split; [done|].
  apply NoDup_Permutation; [done|done|].
  intros x. rewrite Hel, Helr. apply elem_of_reverse.
Qed.

End Further.

(** * The claims on the example interpreter state *)

(** C1.  [sort] does not preserve the dual-index invariant: after
    [add(1,'b'); add(2,'a'); add(3,'a'); sort(key=lambda kv: kv[1])] the
    node of key [1] still lists slot [0], which now holds [(2,'a')].
    After a further [popFirst(1)] the method [popLastItem] finds the
    ledger entry [(1,'b')] without a node and raises the
    [RuntimeError] of a bad state. *)
Theorem sort_breaks_dual_index :
  let m := run [Add int_1 str_b; Add int_2 str_a; Add int_3 str_a;
                Sort by_value Z.ltb false] in
  ~ dual_index m /\
  fst (popFirst m int_1 None) = Return str_b /\
  fst (popLastItem (snd (popFirst m int_1 None)) None) = Raise RuntimeError.
Proof.
  intros m. split; [|split; reflexivity].
  intros [Hindex _].
  specialize (Hindex 1%Z int_1 [(0, str_b)] 0 str_b eq_refl).
  assert (Hin : (0, str_b) ∈ [(0, str_b)]) by left.
  apply Hindex in Hin. vm_compute in Hin. discriminate.
Qed.

(** C2.  On the example of the specification [sort] reorders the ledger
    and renumbers the slots [0, 1, 2], but the key index is the one
    from before the call: the node of key [1] lists slot [0], where the
    ledger now has [(2,'a')], and [popFirst(1)] then deletes the entry
    of key [2] and leaves [(1,'b')] in the ledger. *)
Theorem sort_leaves_key_index_stale :
  let m := run [Add int_1 str_b; Add int_2 str_a; Add int_3 str_a] in
  let m' := sort m by_value Z.ltb false in
  items m = [(int_1, str_b); (int_2, str_a); (int_3, str_a)] /\
  items m' = [(int_2, str_a); (int_3, str_a); (int_1, str_b)] /\
  fst <$> _items m' = [0; 1; 2] /\
  _map m' = _map m /\
  find m' int_1 = Some (int_1, [(0, str_b)]) /\
  OrderedDict.get (_items m') 0 = Some (int_2, str_a) /\
  fst (popFirst m' int_1 None) = Return str_b /\
  items (snd (popFirst m' int_1 None)) = [(int_3, str_a); (int_1, str_b)] /\
  contains (snd (popFirst m' int_1 None)) int_1 = false.
Proof. repeat split; vm_compute; reflexivity. Qed.

(** C5.  A state reached through [sort] in which a key of the index
    has no value: after [add(1,'b'); add(2,'a'); add(3,'a');
    popFirst(1); sort(key=lambda kv: kv[1])] the call [popLast(3)]
    empties the deque of key [3], raises [KeyError] on
    [del self._items[2]] and never erases the key. *)
Theorem sort_then_popLast_keeps_empty_deque :
  let m := run [Add int_1 str_b; Add int_2 str_a; Add int_3 str_a;
                PopFirst int_1 None; Sort by_value Z.ltb false] in
  getall m int_3 None = Return [str_a] /\
  fst (popLast m int_3 None) = Raise (KeyError_slot 2) /\
  find (snd (popLast m int_3 None)) int_3 = Some (int_3, []) /\
  contains (snd (popLast m int_3 None)) int_3 = true.
Proof. repeat split; vm_compute; reflexivity. Qed.

(** C10.  The bracket operators on a map that [sort] has left with a
    stale key index.  After [add(1,'b'); add(2,'a'); add(3,'a');
    sort(key=lambda kv: kv[1])] the items are
    [(2,'a'), (3,'a'), (1,'b')] and the node of key [1] still lists
    slot [0].  [map[1] = 'c'] returns, but it has deleted [(2,'a')]
    and left the old value [(1,'b')] in the map beside the new one;
    [del map[1]] returns, but it has deleted [(2,'a')] and left
    [(1,'b')] in the items of a map that no longer contains key [1].
    After [popFirst(1)] before the [sort], [map[3] = 'c'] and
    [del map[3]] raise the [KeyError] of the missing slot [2]. *)
Theorem bracket_operators_fail_after_sort :
  let m := run [Add int_1 str_b; Add int_2 str_a; Add int_3 str_a;
                Sort by_value Z.ltb false] in
  let m' := run [Add int_1 str_b; Add int_2 str_a; Add int_3 str_a;
                 PopFirst int_1 None; Sort by_value Z.ltb false] in
  items m = [(int_2, str_a); (int_3, str_a); (int_1, str_b)] /\
  getall m int_1 None = Return [str_b] /\
  fst (__setitem__ m int_1 str_c) = Return tt /\
  items (snd (__setitem__ m int_1 str_c))
    = [(int_3, str_a); (int_1, str_b); (int_1, str_c)] /\
  fst (__delitem__ m int_1) = Return tt /\
  items (snd (__delitem__ m int_1)) = [(int_3, str_a); (int_1, str_b)] /\
  contains (snd (__delitem__ m int_1)) int_1 = false /\
  fst (__setitem__ m' int_3 str_c) = Raise (KeyError_slot 2) /\
  fst (__delitem__ m' int_3) = Raise (KeyError_slot 2).
Proof. repeat split; vm_compute; reflexivity. Qed.

(** C7.  A map built with [sort] for which the round trip fails:
    [hash(-1) == hash(-2)], and after [add(-1,'a'); add(5,'b');
    sort(key=lambda kv: kv[0], reverse=True); popFirst(-1); add(-2,'c')]
    the ledger holds [(-1,'a'), (-2,'c')], which [load] replays as
    [(-1,'a'), (-1,'c')]. *)
Theorem round_trip_fails_after_sort :
  let m := run [Add int_m1 str_a; Add int_5 str_b; Sort by_key Z.ltb true;
                PopFirst int_m1 None; Add int_m2 str_c] in
  py_hash int_m1 = py_hash int_m2 /\
  py_eq int_m1 int_m2 = false /\
  items m = [(int_m1, str_a); (int_m2, str_c)] /\
  fst (load empty (items m)) = Return tt /\
  items (snd (load empty (items m))) = [(int_m1, str_a); (int_m1, str_c)] /\
  __eq__ (snd (load empty (items m))) m = false.
Proof. repeat split; vm_compute; reflexivity. Qed.

(** C3, as stated, fails: with [None] supplied as the default and the
    key absent, [popAll] raises [KeyError] instead of returning the
    default. *)
Lemma popAll_supplied_None_raises :
  contains empty int_1 = false /\
  popAll_call empty int_1 (Supplied PyNone) = (Raise (KeyError int_1), empty).
Proof. split; reflexivity. Qed.

(** ** The theorems at concrete inputs *)

Lemma example_run_consistent :
  consistent (run [Add int_1 str_a; Add int_2 str_b; Add int_1 str_c]).
Proof. apply run_consistent. repeat constructor. Defined.

Lemma popAll_present_absent_witness :
  let m := run [Add int_1 str_a; Add int_2 str_b; Add int_1 str_c] in
  consistent m /\
  fst (popAll_call m int_1 Omitted) = Return [str_a; str_c] /\
  popAll_call m int_3 (Supplied (PyList [])) = (Return [], m).
Proof.
  intros m. split; [exact example_run_consistent|].
  destruct popAll_present_absent as [Habs Hin].
  split.
  - exact (proj1 (proj2 (Hin m int_1 example_run_consistent eq_refl Omitted))).
  - exact (proj2 (proj2 (Habs m int_3 eq_refl)) []).
Defined.

Lemma add_keeps_first_key_object_witness :
  let m := run [Add int_5 str_a] in
  py_eq int_1000 int_1000' = true /\ int_1000 <> int_1000' /\
  contains m int_1000 = false /\
  items (snd (add (snd (add m int_1000 str_a)) int_1000' str_b))
    = items m ++ [(int_1000, str_a); (int_1000, str_b)].
Proof.
  intros m. split; [reflexivity|]. split; [discriminate|]. split; [reflexivity|].
  refine (proj1 (proj2 (proj2
    (add_keeps_first_key_object m int_1000 int_1000' str_a str_b
       eq_refl _ _ _ eq_refl)))).
  - discriminate.
  - intros _. reflexivity.
  - apply Forall_forall. vm_compute. repeat constructor.
Defined.

Lemma setdefaultAll_empty_list_absent_witness :
  let m := run [Add int_1 str_a] in
  contains m int_2 = false /\ setdefaultAll m int_2 [] = (Return [], m).
Proof.
  intros m. split; [reflexivity|].
  exact (proj1 (setdefaultAll_empty_list_absent m int_2 eq_refl)).
Defined.

Lemma hash_equal_keys_share_a_node_witness :
  py_hash int_m1 = py_hash int_m2 /\ py_eq int_m1 int_m2 = false /\
  contains (snd (add empty int_m1 str_a)) int_m2 = true /\
  get (snd (add empty int_m1 str_a)) int_m2 int_5 = Return str_a /\
  py_hash int_1 <> py_hash int_2 /\
  contains (snd (add empty int_1 str_a)) int_2 = false.
Proof.
  destruct hash_equal_keys_share_a_node as (_ & _ & Hex & Hpos & _).
  split; [reflexivity|]. split; [reflexivity|].
  destruct (Hpos int_m1 int_m2 str_a int_5 eq_refl eq_refl) as (_ & Hin & Hget).
  split; [exact Hin|]. split; [exact Hget|].
  split; [intros Heq; vm_compute in Heq; discriminate|].
  destruct (Hex (fun h => h) int_1 int_2 str_a int_5) as (_ & _ & Hin' & _).
  exact Hin'.
Defined.

Lemma bracket_operators_witness :
  let m := run [Add int_1 str_a; Add int_2 str_b; Add int_1 str_c] in
  consistent m /\
  getall (snd (__setitem__ m int_1 str_b)) int_1 None = Return [str_b] /\
  getall (snd (__delitem__ m int_1)) int_1 None = Return [str_a].
Proof.
  intros m. split; [exact example_run_consistent|].
  destruct bracket_operators as (_ & _ & _ & Hcons).
  destruct (Hcons m int_1 str_b example_run_consistent) as (_ & Hset & _ & Hdel & _).
  split; [exact Hset|].
  exact (proj1 (proj2 (proj2 (Hdel [str_a] str_c eq_refl)))).
Defined.

(** ** The further properties at concrete inputs *)

Lemma add_appends_value_witness :
  let m := run [Add int_1 str_a; Add int_2 str_b; Add int_1 str_c] in
  consistent m /\ getall m int_1 None = Return [str_a; str_c] /\
  getall (snd (add m int_1 str_b)) int_1 None = Return [str_a; str_c; str_b].
Proof.
  intros m. split; [exact example_run_consistent|]. split; [reflexivity|].
  exact (proj1 (proj2 (add_appends_value m int_1 str_b [str_a; str_c]
                         example_run_consistent eq_refl))).
Defined.

Lemma readers_agree_with_getall_witness :
  let m := run [Add int_1 str_a; Add int_2 str_b; Add int_1 str_c] in
  consistent m /\
  exists vs, getall m int_1 None = Return vs /\
             forall d, getLast m int_1 d = Return (default d (last vs)).
Proof.
  intros m. split; [exact example_run_consistent|].
  destruct (readers_agree_with_getall m int_1 example_run_consistent)
    as (vs & Hg & _ & _ & Hl & _).
  exists vs. split; [exact Hg|exact Hl].
Defined.

Lemma popFirst_oldest_value_witness :
  let m := run [Add int_1 str_a; Add int_2 str_b; Add int_1 str_c] in
  consistent m /\ fst (popFirst m int_1 None) = Return str_a.
Proof.
  intros m. split; [exact example_run_consistent|].
  destruct (popFirst_oldest_value m int_1 None example_run_consistent)
    as (vs & Hg & Hm).
  assert (Hvs : Return vs = Return [str_a; str_c]) by (rewrite <- Hg; reflexivity).
  injection Hvs as ->. exact (proj1 Hm).
Defined.

Lemma popLast_newest_value_witness :
  let m := run [Add int_1 str_a; Add int_2 str_b; Add int_1 str_c] in
  consistent m /\ fst (popLast m int_1 None) = Return str_c.
Proof.
  intros m. split; [exact example_run_consistent|].
  destruct (popLast_newest_value m int_1 None example_run_consistent)
    as (_ & vs & Hg & Hm).
  assert (Hvs : Return vs = Return [str_a; str_c]) by (rewrite <- Hg; reflexivity).
  injection Hvs as ->. exact (proj1 Hm).
Defined.

Lemma add_then_pop_restores_witness :
  let m := run [Add int_1 str_a; Add int_2 str_b; Add int_1 str_c] in
  consistent m /\
  pop (snd (add m int_3 str_a)) int_3 None
    = (Return str_a, mkOMD (_items m) (_map m) (S (_index m))).
Proof.
  intros m. split; [exact example_run_consistent|].
  exact (add_then_pop_restores m int_3 str_a None example_run_consistent).
Defined.

Lemma deleteAll_removes_key_witness :
  let m := run [Add int_1 str_a; Add int_2 str_b; Add int_1 str_c] in
  consistent m /\ contains m int_1 = true /\
  fst (deleteAll m int_1) = Return tt /\
  contains (snd (deleteAll m int_1)) int_1 = false.
Proof.
  intros m. split; [exact example_run_consistent|]. split; [reflexivity|].
  destruct (proj2 (deleteAll_removes_key m int_1) example_run_consistent eq_refl)
    as (Hret & _ & _ & Hout & _).
  split; [exact Hret|exact Hout].
Defined.

Lemma setAll_replaces_values_witness :
  let m := run [Add int_1 str_a; Add int_2 str_b; Add int_1 str_c] in
  consistent m /\
  getall (snd (setAll m int_1 [str_b])) int_1 None = Return [str_b].
Proof.
  intros m. split; [exact example_run_consistent|].
  destruct (setAll_replaces_values m int_1 [str_b] example_run_consistent)
    as (_ & _ & _ & Hg & _).
  exact Hg.
Defined.

Lemma setdefault_returns_first_or_adds_witness :
  let m := run [Add int_1 str_a; Add int_2 str_b; Add int_1 str_c] in
  consistent m /\ setdefault m int_1 str_b = (Return str_a, m).
Proof.
  intros m. split; [exact example_run_consistent|].
  destruct (setdefault_returns_first_or_adds m int_1 str_b example_run_consistent)
    as (vs & Hg & Hm & _).
  assert (Hvs : Return vs = Return [str_a; str_c]) by (rewrite <- Hg; reflexivity).
  injection Hvs as ->. exact Hm.
Defined.

Lemma setdefaultAll_returns_all_or_adds_witness :
  let m := run [Add int_1 str_a; Add int_2 str_b; Add int_1 str_c] in
  consistent m /\ setdefaultAll m int_1 [str_b] = (Return [str_a; str_c], m).
Proof.
  intros m. split; [exact example_run_consistent|].
  destruct (setdefaultAll_returns_all_or_adds m int_1 [str_b] example_run_consistent)
    as (vs & Hg & Hm).
  assert (Hvs : Return vs = Return [str_a; str_c]) by (rewrite <- Hg; reflexivity).
  injection Hvs as ->. exact Hm.
Defined.

Lemma popFirstItem_oldest_entry_witness :
  let m := run [Add int_1 str_a; Add int_2 str_b; Add int_1 str_c] in
  consistent m /\
  fst (popFirstItem m None) = Return (inl (int_1, str_a)) /\
  items (snd (popFirstItem m None)) = [(int_2, str_b); (int_1, str_c)].
Proof.
  intros m. split; [exact example_run_consistent|].
  pose proof (popFirstItem_oldest_entry m None example_run_consistent) as Hp.
  split; [exact (proj1 Hp)|exact (proj1 (proj2 (proj2 Hp)))].
Defined.

Lemma popLastItem_newest_entry_witness :
  let m := run [Add int_1 str_a; Add int_2 str_b; Add int_1 str_c] in
  consistent m /\
  fst (popLastItem m None) = Return (inl (int_1, str_c)) /\
  items (snd (popLastItem m None)) = [(int_1, str_a); (int_2, str_b)].
Proof.
  intros m. split; [exact example_run_consistent|].
  pose proof (popLastItem_newest_entry m None example_run_consistent) as Hp.
  split; [exact (proj1 Hp)|exact (proj1 (proj2 (proj2 Hp)))].
Defined.

Lemma uniqueKeys_view_coherent_witness :
  let m := run [Add int_1 str_a; Add int_2 str_b; Add int_1 str_c] in
  consistent m /\ length (uniqueKeys m) = uniqueKeys_len m.
Proof.
  intros m. split; [exact example_run_consistent|].
  exact (proj1 (uniqueKeys_view_coherent m example_run_consistent)).
Defined.

Lemma nonzero_agrees_with_len_witness :
  let m := run [Add int_1 str_a; Add int_2 str_b; Add int_1 str_c] in
  consistent m /\ __nonzero__ m = negb (Nat.eqb (__len__ m) 0).
Proof.
  intros m. split; [exact example_run_consistent|].
  exact (proj1 (nonzero_agrees_with_len m example_run_consistent)).
Defined.

Lemma eq_is_pairwise_on_items_witness :
  let m := run [Add int_1 str_a; Add int_2 str_b; Add int_1 str_c] in
  let other := snd (load empty [(int_1, str_a); (int_2, str_b); (int_1, str_c)]) in
  __eq__ m other = true /\ __len__ m = __len__ other.
Proof.
  intros m other. split; [reflexivity|].
  exact (proj1 (proj2 (eq_is_pairwise_on_items m other)) eq_refl).
Defined.

Lemma ledger_slots_ascend_witness :
  let cs := [Add int_1 str_b; Add int_2 str_a; Sort by_value Z.ltb false] in
  counter_within 64%Z cs /\
  fst (add (run cs) int_1 str_c) = Return tt /\
  items (run cs) = [(int_2, str_a); (int_1, str_b)] /\
  items (snd (add (run cs) int_1 str_c))
    = [(int_2, str_a); (int_1, str_b); (int_2, str_c)].
Proof.
  intros cs.
  assert (Hcw : counter_within 64%Z cs).
  { intros n. destruct n as [|[|[|[|n]]]]; vm_compute; discriminate. }
  split; [exact Hcw|]. split; [reflexivity|]. split; [reflexivity|].
  destruct (ledger_slots_ascend 64%Z cs Hcw) as (_ & _ & Hadd).
  exact (proj1 (Hadd int_1 str_c) eq_refl).
Defined.


Lemma getstate_setstate_round_trip_witness :
  let m := run [Add int_1 str_a; Add int_2 str_b; Add int_1 str_c] in
  _map empty = ∅ /\ consistent m /\
  items (snd (__setstate__ empty (__getstate__ m))) = items m.
Proof.
  intros m. split; [reflexivity|]. split; [exact example_run_consistent|].
  destruct (getstate_setstate_round_trip empty m eq_refl example_run_consistent)
    as (_ & _ & Hit & _).
  exact Hit.
Defined.

Lemma sort_permutes_ledger_only_witness :
  let m := run [Add int_1 str_b; Add int_2 str_a; Add int_3 str_a] in
  strict_weak_order Z.ltb /\
  items (sort m by_value Z.ltb false) = [(int_2, str_a); (int_3, str_a); (int_1, str_b)] /\
  sort (sort m by_value Z.ltb false) by_value Z.ltb false = sort m by_value Z.ltb false.
Proof.
  intros m.
  assert (Hswo : strict_weak_order Z.ltb).
  { split; [|split].
    - intros x. apply Z.ltb_irrefl.
    - intros x y z Hxy Hyz. apply Z.ltb_lt in Hxy, Hyz. apply Z.ltb_lt. lia.
    - intros x y z Hxy Hyz. apply Z.ltb_ge in Hxy, Hyz. apply Z.ltb_ge. lia. }
  split; [exact Hswo|]. split; [reflexivity|].
  destruct (sort_permutes_ledger_only m by_value Z.ltb false)
    as (_ & _ & _ & _ & _ & _ & Hs).
  exact (proj2 (proj2 (Hs Hswo))).
Defined.

Lemma hash_equal_keys_interchangeable_witness :
  let m := run [Add int_m1 str_a; Add int_5 str_b] in
  PyObjectPtrHashEqual int_m1 int_m2 = true /\ py_eq int_m1 int_m2 = false /\
  contains m int_m1 = true /\
  popFirst m int_m1 None = popFirst m int_m2 None.
Proof.
  intros m.
  assert (Hh : PyObjectPtrHashEqual int_m1 int_m2 = true) by reflexivity.
  assert (Hc : contains m int_m1 = true) by reflexivity.
  split; [exact Hh|]. split; [reflexivity|]. split; [exact Hc|].
  destruct (hash_equal_keys_interchangeable m int_m1 int_m2 Hh)
    as (_ & _ & _ & _ & _ & _ & _ & _ & _ & _ & Hin & _).
  exact (proj1 (proj1 (Hin Hc) None)).
Defined.

Lemma views_agree_witness :
  let m := run [Add int_1 str_a; Add int_2 str_b; Add int_1 str_c] in
  consistent m /\ uniqueKeys_reversed m ≡ₚ uniqueKeys m.
Proof.
  intros m. split; [exact example_run_consistent|].
  destruct (views_agree m) as (_ & _ & _ & _ & _ & _ & _ & Hu).
  exact (proj2 (proj2 (Hu example_run_consistent))).
Defined.
